(** * Mint powder-diffraction engine: embedding of [diffraction.h] / [diffraction.cpp]

    Conventions of the embedding.

    - The C++ sources compute with [double].  A [double] is idealised as a
      real number ([R]): rounding and overflow are not modelled, [abs] is
      [std::abs] on doubles ([Rabs]), and division is the division of [R].
    - The one place where not-a-number decides the control flow, the square
      root of a negative Caglioti term in [generatePeakSignal], uses the type
      [Profile.double]: a real number or [NaN].
    - Reading a [std::vector] outside its bounds is undefined behaviour in
      C++, and [Output::quit()] ends the program.  The functions that can do
      either return an [option] and yield [None] there.  So does
      [removeBackground] where the number of points of its box fits no
      [int] (the conversion is undefined) or a background value is
      0.0 / 0.0, which no real number stands for.
    - Members are named as in the sources; a class is a record of the
      members the modelled operations use, and a member function takes the
      object and returns its new value. *)

From Stdlib Require Import Reals Lra Lia List ZArith Bool Permutation Sorted.
Import ListNotations.
Open Scope R_scope.

(** ** Comparisons on doubles, as booleans *)

Definition Rltb (x y : R) : bool := if Rlt_dec x y then true else false.
Definition Rleb (x y : R) : bool := if Rle_dec x y then true else false.
Definition Rgtb (x y : R) : bool := Rltb y x.
Definition Rgeb (x y : R) : bool := Rleb y x.
Definition Reqb (x y : R) : bool := if Req_dec_T x y then true else false.

(** ** Services of [num.h] and [constants.h] (not part of the sources)

    Modelled from the spec: [Num<double>::toRadians], [Num<double>::toDegrees]
    and [Num<double>::abs] live in num.h, which is outside the sources; they
    are the usual conversions between degrees and radians and the absolute
    value.  [Constants::pi] is [PI]. *)

Definition toRadians (deg : R) : R := deg * PI / 180.
Definition toDegrees (rad : R) : R := rad * 180 / PI.

(** ** Linear-algebra primitives ([Vector3D], [Matrix3D])

    Modelled from the spec: the vector and matrix classes are external
    collaborators ("linear-algebra primitives (matrix inverse, vector
    arithmetic)"); they are given their standard meaning. *)

Module Linear.

Record Vector3D : Type := vec3 { vx : R; vy : R; vz : R }.

(* rows of a 3x3 matrix *)
Record Matrix3D : Type := mat3 { row0 : Vector3D; row1 : Vector3D; row2 : Vector3D }.

Definition dot (a b : Vector3D) : R := vx a * vx b + vy a * vy b + vz a * vz b.

Definition magnitude (a : Vector3D) : R := sqrt (dot a a).

Definition mulMV (m : Matrix3D) (v : Vector3D) : Vector3D :=
  vec3 (dot (row0 m) v) (dot (row1 m) v) (dot (row2 m) v).

Definition col0 (m : Matrix3D) : Vector3D := vec3 (vx (row0 m)) (vx (row1 m)) (vx (row2 m)).
Definition col1 (m : Matrix3D) : Vector3D := vec3 (vy (row0 m)) (vy (row1 m)) (vy (row2 m)).
Definition col2 (m : Matrix3D) : Vector3D := vec3 (vz (row0 m)) (vz (row1 m)) (vz (row2 m)).

Definition transpose (m : Matrix3D) : Matrix3D := mat3 (col0 m) (col1 m) (col2 m).

Definition mulMM (a b : Matrix3D) : Matrix3D :=
  mat3 (vec3 (dot (row0 a) (col0 b)) (dot (row0 a) (col1 b)) (dot (row0 a) (col2 b)))
       (vec3 (dot (row1 a) (col0 b)) (dot (row1 a) (col1 b)) (dot (row1 a) (col2 b)))
       (vec3 (dot (row2 a) (col0 b)) (dot (row2 a) (col1 b)) (dot (row2 a) (col2 b))).

Definition identity : Matrix3D := mat3 (vec3 1 0 0) (vec3 0 1 0) (vec3 0 0 1).

Definition cross (a b : Vector3D) : Vector3D :=
  vec3 (vy a * vz b - vz a * vy b) (vz a * vx b - vx a * vz b) (vx a * vy b - vy a * vx b).

Definition det (m : Matrix3D) : R := dot (row0 m) (cross (row1 m) (row2 m)).

Definition scaleV (k : R) (a : Vector3D) : Vector3D := vec3 (k * vx a) (k * vy a) (k * vz a).

(* inverse by the adjugate: the columns of the inverse are the cross
   products of the rows, divided by the determinant *)
Definition inverse (m : Matrix3D) : Matrix3D :=
  transpose (mat3 (scaleV (/ det m) (cross (row1 m) (row2 m)))
                  (scaleV (/ det m) (cross (row2 m) (row0 m)))
                  (scaleV (/ det m) (cross (row0 m) (row1 m)))).

Definition vecEqb (a b : Vector3D) : bool :=
  Reqb (vx a) (vx b) && Reqb (vy a) (vy b) && Reqb (vz a) (vz b).

Definition matEqb (a b : Matrix3D) : bool :=
  vecEqb (row0 a) (row0 b) && vecEqb (row1 a) (row1 b) && vecEqb (row2 a) (row2 b).

End Linear.
Import Linear.

(** ** Data model: peaks, structure and symmetry *)

(* diffraction.h: enum Method *)
Inductive Method : Type := DM_XRAY | DM_NEUTRON | DM_SIMPLE | DM_NONE.

(* diffraction.h: class DiffractionPeak *)
Record DiffractionPeak : Type := mkDiffractionPeak {
  patternIndex : Z;
  twoThetaRad : R;
  TwoThetaDeg : R;
  peakIntensity : R
}.

(* DiffractionPeak::DiffractionPeak(double twoThetaDegrees, double intensity) *)
Definition newDiffractionPeak (twoThetaDegrees intensity : R) : DiffractionPeak :=
  {| patternIndex := (-1)%Z;
     twoThetaRad := toRadians twoThetaDegrees;
     TwoThetaDeg := twoThetaDegrees;
     peakIntensity := intensity |}.

Definition getAngle (p : DiffractionPeak) : R := TwoThetaDeg p.
Definition getAngleRadians (p : DiffractionPeak) : R := twoThetaRad p.
Definition getIntensity (p : DiffractionPeak) : R := peakIntensity p.

Definition setPatternIndex (i : Z) (p : DiffractionPeak) : DiffractionPeak :=
  {| patternIndex := i;
     twoThetaRad := twoThetaRad p;
     TwoThetaDeg := TwoThetaDeg p;
     peakIntensity := peakIntensity p |}.

(** The parts of the external structure and symmetry classes ([ISO],
    [Basis], [Symmetry], [Orbit], [Atom]) that the engine reads. *)

Module Basis.
Record t : Type := mk {
  inverse : Matrix3D;
  reducedInverse : Matrix3D;
  unitToReduced : Matrix3D;
  unitPointToReduced : Matrix3D
}.
End Basis.

Record Atom : Type := mkAtom { fractional : Vector3D; occupancy : R }.

Record Orbit : Type := mkOrbit { atoms : list Atom }.

Record SymmetryOperation : Type := mkOperation {
  rotation : Matrix3D;
  translations : list Vector3D
}.

Record Symmetry : Type := mkSymmetry {
  operations : list SymmetryOperation;
  orbits : list Orbit
}.

(* diffraction.h: class CalculatedPeak : public DiffractionPeak.  The
   pointers to the structure and to the symmetry are shared with the
   pattern; the operations below receive what they point to. *)
Record CalculatedPeak : Type := mkCalculatedPeak {
  base : DiffractionPeak;
  method : Method;
  wavelength : R;
  hkl : Vector3D;
  equivHKL : list Vector3D;
  recipLatVecs : list Vector3D;
  lpFactor : R;
  multiplicity : R
}.

(** ** Peak entity ([CalculatedPeak]) *)

Module Peak.

(* CalculatedPeak::getLPFactor *)
Definition getLPFactor (angle : R) : R :=
  (1 + (cos (2 * angle)) ^ 2) / (cos angle * (sin angle) ^ 2).

(* CalculatedPeak::getTexturingFactor; pow(x, -1.5) is [Rpower x (-1.5)],
   the real power for a positive base. *)
Definition getTexturingFactor (preferredOrientation : Vector3D) (tau : R)
    (recipLatticeVectors : list Vector3D) : R :=
  let preNorm := magnitude preferredOrientation in
  let output :=
    fold_left
      (fun output r =>
         let cosphi := dot preferredOrientation r / preNorm / magnitude r in
         let cosphi := cosphi * cosphi in
         output + Rpower (tau * tau * cosphi + (1 - cosphi) / tau) (-1.5))
      recipLatticeVectors 0 in
  output / INR (length recipLatticeVectors).

(* CalculatedPeak::thermalFactor(double angle, double wavelength, double Bfactor = 1) *)
Definition thermalFactor (angle wavelength Bfactor : R) : R :=
  exp (- Bfactor * (sin angle / wavelength) ^ 2).

(* the value of [arg] in getDiffractionAngle *)
Definition asinArgument (basis : Basis.t) (hkl : Vector3D) (wavelength : R) : R :=
  magnitude (mulMV (Basis.inverse basis) hkl) * wavelength / 2.

(* CalculatedPeak::getDiffractionAngle *)
Definition getDiffractionAngle (basis : Basis.t) (hkl : Vector3D) (wavelength : R) : R :=
  let arg := asinArgument basis hkl wavelength in
  if Rleb (-1) arg && Rleb arg 1 then asin arg
  else if Rltb arg (-1) then - PI / 2
  else PI / 2.

(* CalculatedPeak::atomicScatteringFactor; the warning printed for s > 2
   does not change the result. *)
Definition atomicScatteringFactor (atfParams : list R) (angle wavelength : R) : R :=
  let s := sin angle / wavelength in
  let s2 := s * s in
  let p i := nth i atfParams 0 in
  p 0%nat * exp (- p 4%nat * s2) +
  p 1%nat * exp (- p 5%nat * s2) +
  p 2%nat * exp (- p 6%nat * s2) +
  p 3%nat * exp (- p 7%nat * s2) + p 8%nat.

(* one pass of the inner loop of structureFactorSquared: (real, imag) *)
Definition addAtom (hkl : Vector3D) (scatteringFactor thermFactor : R)
    (acc : R * R) (curAtom : Atom) : R * R :=
  let dot := 2 * PI * dot hkl (fractional curAtom) in
  let sinTerm := sin dot in
  let cosTerm := cos dot in
  let pre := scatteringFactor * thermFactor * occupancy curAtom in
  (fst acc + pre * cosTerm, snd acc + pre * sinTerm).

(* the outer loop of structureFactorSquared, from orbit number [i] on.
   Note the call [thermalFactor(angle, BFactors[i])]: the B factor is passed
   in the position of the wavelength and Bfactor takes its default, 1. *)
Fixpoint orbitLoop (method : Method) (wavelength angle : R) (hkl : Vector3D)
    (BFactors : list R) (atfParams : list (list R))
    (i : nat) (orbs : list Orbit) (acc : R * R) : R * R :=
  match orbs with
  | [] => acc
  | o :: rest =>
      let scatteringFactor := atomicScatteringFactor (nth i atfParams []) angle wavelength in
      let thermFactor :=
        match method with
        | DM_SIMPLE => 1
        | _ => thermalFactor angle (nth i BFactors 0) 1
        end in
      orbitLoop method wavelength angle hkl BFactors atfParams (S i) rest
        (fold_left (addAtom hkl scatteringFactor thermFactor) (atoms o) acc)
  end.

(* CalculatedPeak::structureFactorSquared *)
Definition structureFactorSquared (method : Method) (wavelength : R) (symmetry : Symmetry)
    (angle : R) (hkl : Vector3D) (BFactors : list R) (atfParams : list (list R)) : R :=
  let '(real, imag) :=
    orbitLoop method wavelength angle hkl BFactors atfParams 0 (orbits symmetry) (0, 0) in
  real * real + imag * imag.

Definition setIntensity (x : R) (p : CalculatedPeak) : CalculatedPeak :=
  {| base := {| patternIndex := patternIndex (base p);
                twoThetaRad := twoThetaRad (base p);
                TwoThetaDeg := TwoThetaDeg (base p);
                peakIntensity := x |};
     method := method p; wavelength := wavelength p; hkl := hkl p;
     equivHKL := equivHKL p; recipLatVecs := recipLatVecs p;
     lpFactor := lpFactor p; multiplicity := multiplicity p |}.

(* CalculatedPeak::updateCalculatedIntensity *)
Definition updateCalculatedIntensity (symmetry : Symmetry) (BFactors : list R)
    (atfParams : list (list R)) (preferredOrientation : Vector3D)
    (texturingStrength : R) (p : CalculatedPeak) : CalculatedPeak :=
  let peakIntensity :=
    structureFactorSquared (method p) (wavelength p) symmetry
      (twoThetaRad (base p) / 2) (hkl p) BFactors atfParams in
  let peakIntensity := peakIntensity * lpFactor p in
  let peakIntensity := peakIntensity * multiplicity p in
  let peakIntensity :=
    peakIntensity * getTexturingFactor preferredOrientation texturingStrength (recipLatVecs p) in
  setIntensity peakIntensity p.

(* CalculatedPeak::updatePeakPosition *)
Definition updatePeakPosition (basis : Basis.t) (p : CalculatedPeak) : CalculatedPeak :=
  let twoThetaRad' := 2 * getDiffractionAngle basis (hkl p) (wavelength p) in
  {| base := {| patternIndex := patternIndex (base p);
                twoThetaRad := twoThetaRad';
                TwoThetaDeg := toDegrees twoThetaRad';
                peakIntensity := peakIntensity (base p) |};
     method := method p; wavelength := wavelength p; hkl := hkl p;
     equivHKL := equivHKL p;
     recipLatVecs := map (mulMV (Basis.inverse basis)) (equivHKL p);
     lpFactor := getLPFactor (twoThetaRad' / 2.0);
     multiplicity := multiplicity p |}.

(* CalculatedPeak::CalculatedPeak: the base is DiffractionPeak(-1, -1); the
   Lorentz factor and the reciprocal vectors are set by updatePeakPosition. *)
Definition newCalculatedPeak (method : Method) (basis : Basis.t) (wavelength : R)
    (hkl : Vector3D) (equivHKL : list Vector3D) : CalculatedPeak :=
  updatePeakPosition basis
    {| base := newDiffractionPeak (-1) (-1);
       method := method; wavelength := wavelength; hkl := hkl;
       equivHKL := equivHKL; recipLatVecs := [];
       lpFactor := 0;
       multiplicity := INR (length equivHKL) |}.

End Peak.

(** ** Pattern state ([Diffraction], [ExperimentalPattern], [CalculatedPattern]) *)

(* Diffraction::PatternType *)
Inductive PatternType : Type := PT_NONE | PT_EXP_RAW | PT_EXP_INT | PT_CALCULATED.

(* Diffraction::Rmethod *)
Inductive Rmethod : Type := DR_ABS | DR_SQUARED | DR_RIETVELD.

(* CalculatedPattern::RefinementParameters *)
Inductive RefinementParameters : Type :=
  | RF_SCALE | RF_BASIS | RF_BACKGROUND | RF_SPECDISP | RF_ZEROSHIFT
  | RF_WFACTOR | RF_UVFACTORS | RF_BFACTORS | RF_TEXTURE | RF_POSITIONS.

(* the members of class Diffraction *)
Record Diffraction : Type := mkDiffraction {
  _type : PatternType;
  _method : Method;
  _wavelength : R;
  _minTwoTheta : R;
  _maxTwoTheta : R;
  _resolution : R;
  _matchingPeaks : list (list nat);
  _unmatchedPeaks : list nat;
  _optimalScale : R
}.

(* the members of class ExperimentalPattern *)
Record ExperimentalPattern : Type := mkExperimentalPattern {
  expBase : Diffraction;
  _continuousTwoTheta : list R;
  _continuousIntensity : list R;
  _diffractionPeaks : list DiffractionPeak
}.

(* the members of class CalculatedPattern that the operations below use *)
Record CalculatedPattern : Type := mkCalculatedPattern {
  calcBase : Diffraction;
  _reflections : list CalculatedPeak;
  _maxLatChange : R;
  _BFactors : list R;
  _atfParams : list (list R);
  _useChebyshev : bool;
  _numBackground : nat;
  _backgroundPolyStart : Z;
  _backgroundParameters : list R;
  _shiftParameters : list R;
  U : R;
  V : R;
  W : R;
  _eta0 : R;
  _eta1 : R;
  _eta2 : R;
  _preferredOrientation : Vector3D;
  _currentlyRefining : list RefinementParameters
}.

(** ** Sorting ([std::sort])

    [std::sort] is modelled by insertion sort with the element type's
    [operator<]; the result is ordered and holds the same elements, which is
    all the standard promises. *)

Section Sorting.
Context {A : Type}.
Variable lt : A -> A -> bool.

Fixpoint insertSorted (x : A) (l : list A) : list A :=
  match l with
  | [] => [x]
  | y :: r => if lt y x then y :: insertSorted x r else x :: y :: r
  end.

Definition sortBy (l : list A) : list A := fold_right insertSorted [] l.

End Sorting.

(* DiffractionPeak::operator< *)
Definition peakLt (a b : DiffractionPeak) : bool := Rltb (TwoThetaDeg a) (TwoThetaDeg b).

(* operator< inherited by CalculatedPeak *)
Definition calcPeakLt (a b : CalculatedPeak) : bool := peakLt (base a) (base b).

(* CalculatedPeak::operator=: the value of *this after  *this = rhs.  The
   operator copies patternIndex, TwoThetaDeg, _twoThetaRad, peakIntensity,
   lpFactor, multiplicity, hkl and equivHKL; method, wavelength and
   recipLatVecs are left as they were. *)
Definition assignPeak (this rhs : CalculatedPeak) : CalculatedPeak :=
  {| base := base rhs;
     method := method this; wavelength := wavelength this;
     hkl := hkl rhs; equivHKL := equivHKL rhs;
     recipLatVecs := recipLatVecs this;
     lpFactor := lpFactor rhs; multiplicity := multiplicity rhs |}.

(* std::sort on a vector of reflections.  The class declares its copy
   assignment, so the sort moves elements between the places of the vector
   with it (temporaries are made by the implicit copy constructor, which
   copies every member): each place ends with the members operator= copies
   taken from the reflection sorted into it, and with the other members of
   the reflection it held before the sort. *)
Definition sortReflections (reflections : list CalculatedPeak) : list CalculatedPeak :=
  map (fun place => assignPeak (fst place) (snd place))
      (combine reflections (sortBy calcPeakLt reflections)).

(* operator< of std::pair<double,double> *)
Definition pairLt (a b : R * R) : bool :=
  Rltb (fst a) (fst b) || (negb (Rltb (fst b) (fst a)) && Rltb (snd a) (snd b)).

(** ** Peak enumerator ([CalculatedPattern::calculatePeakLocations]) *)

Module Enumerator.

Section Externals.

(** [Num<double>::ceil] and [Num<double>::round(x, 1)] are declared in
    num.h and [Symmetry::intrinsicTranslation] in symmetry.h, outside the
    sources: they are parameters of the enumerator. *)
Variable ceil : R -> R.
Variable round1 : R -> R.
Variable intrinsicTranslation : Matrix3D -> Vector3D -> Vector3D.

(* the values taken by x in  for (x = -range; x <= range; ++x) *)
Definition loopValues (range : R) : list R :=
  if Rleb (- range) range
  then map (fun k => - range + INR k) (seq 0 (S (Z.to_nat (Int_part (2 * range)))))
  else [].

(* range[i], from column i of the reduced inverse basis *)
Definition hklRange (maxTwoTheta wavelength : R) (vec : Vector3D) : R :=
  let maxMag := 2 * sin (toRadians (maxTwoTheta / 2)) / wavelength in
  Rabs (ceil (maxMag / magnitude vec)).

(* the reduced-cell hkl visited by the three nested loops, in order *)
Definition reducedGrid (basis : Basis.t) (maxTwoTheta wavelength : R) : list Vector3D :=
  let range0 := hklRange maxTwoTheta wavelength (col0 (Basis.reducedInverse basis)) in
  let range1 := hklRange maxTwoTheta wavelength (col1 (Basis.reducedInverse basis)) in
  let range2 := hklRange maxTwoTheta wavelength (col2 (Basis.reducedInverse basis)) in
  flat_map (fun h =>
    flat_map (fun k =>
      map (fun l => vec3 h k l) (loopValues range2))
      (loopValues range1))
    (loopValues range0).

(* "Remove identity operation": the first operation equal to it *)
Fixpoint removeIdentity (ops : list Matrix3D) : list Matrix3D :=
  match ops with
  | [] => []
  | m :: rest => if matEqb m identity then rest else m :: removeIdentity rest
  end.

(* "Generate symmetry operations for reduced cell" *)
Definition reducedOperations (basis : Basis.t) (symmetry : Symmetry) : list Matrix3D :=
  let P := transpose (Basis.unitToReduced basis) in
  let Q := inverse P in
  removeIdentity
    (map (fun op => transpose (mulMM (mulMM P (rotation op)) Q)) (operations symmetry)).

Definition roundVector (v : Vector3D) : Vector3D :=
  vec3 (round1 (vx v)) (round1 (vy v)) (round1 (vz v)).

(* "Check if hkl is equivalent of something that has been generated
   earlier": true when the image sorts before the seed *)
Definition sortsBefore (symHKL redHKL : Vector3D) : bool :=
  if Rltb (vx symHKL) (vx redHKL - 1e-4) then true
  else if Rltb (Rabs (vx symHKL - vx redHKL)) 1e-4 then
    if Rltb (vy symHKL) (vy redHKL - 1e-4) then true
    else if Rltb (Rabs (vy symHKL - vy redHKL)) 1e-4 then
      Rltb (vz symHKL) (vz redHKL - 1e-4)
    else false
  else false.

Definition samePoint (a b : Vector3D) : bool :=
  Rltb (Rabs (vx a - vx b)) 1e-4 &&
  Rltb (Rabs (vy a - vy b)) 1e-4 &&
  Rltb (Rabs (vz a - vz b)) 1e-4.

(* the loop over the operations: the state is (mult, equivPoints); mult is
   set to 0, and the loop left, when an image sorts before the seed *)
Fixpoint equivalentPoints (redHKL : Vector3D) (ops : list Matrix3D)
    (mult : nat) (equivPoints : list Vector3D) : nat * list Vector3D :=
  match ops with
  | [] => (mult, equivPoints)
  | op :: rest =>
      let symHKL := roundVector (mulMV op redHKL) in
      if sortsBefore symHKL redHKL then (0%nat, equivPoints)
      else if existsb (fun e => samePoint e symHKL) equivPoints
           then equivalentPoints redHKL rest mult equivPoints
           else equivalentPoints redHKL rest (S mult) (equivPoints ++ [symHKL])
  end.

(* "Check if direction will be a systematic absence": the value of [found] *)
Definition systematicAbsence (symmetry : Symmetry) (hkl : Vector3D) : bool :=
  existsb
    (fun op =>
       let symHKL := mulMV (rotation op) hkl in
       if Rltb 1e-4 (Rabs (vx symHKL - vx hkl)) ||
          Rltb 1e-4 (Rabs (vy symHKL - vy hkl)) ||
          Rltb 1e-4 (Rabs (vz symHKL - vz hkl))
       then false
       else existsb
              (fun t =>
                 let product := dot (intrinsicTranslation (rotation op) t) hkl in
                 Rltb 1e-4 (Rabs (round1 product - product)))
              (translations op))
    (operations symmetry).

(* the angle tested against the window *)
Definition twoThetaOf (basis : Basis.t) (wavelength : R) (hkl : Vector3D) : R :=
  2 * toDegrees (Peak.getDiffractionAngle basis hkl wavelength).

(* the body of the innermost loop: the peaks (none or one) pushed for redHKL.
   [found] is computed and not used: the "continue" on it is commented out
   in the source ("keep just in case"). *)
Definition visit (d : Diffraction) (basis : Basis.t) (symmetry : Symmetry)
    (redHKL : Vector3D) : list CalculatedPeak :=
  let convHKL := transpose (Basis.unitPointToReduced basis) in
  let '(mult, equivPoints) :=
    equivalentPoints redHKL (reducedOperations basis symmetry) 1 [redHKL] in
  if (mult =? 0)%nat then []
  else
    let hkl := mulMV convHKL redHKL in
    let equivHKL := map (mulMV convHKL) equivPoints in
    let found := systematicAbsence symmetry hkl in
    let twoTheta := twoThetaOf basis (_wavelength d) hkl in
    if Rltb twoTheta (_minTwoTheta d) || Rltb (_maxTwoTheta d) twoTheta then []
    else [Peak.newCalculatedPeak (_method d) basis (_wavelength d) hkl equivHKL].

(* CalculatedPattern::calculatePeakLocations: the new value of _reflections *)
Definition calculatePeakLocations (d : Diffraction) (basis : Basis.t)
    (symmetry : Symmetry) : list CalculatedPeak :=
  sortReflections
    (flat_map (visit d basis symmetry)
       (reducedGrid basis (_maxTwoTheta d) (_wavelength d))).

End Externals.

End Enumerator.

(** ** Results that may fail

    [None] stands for a run that does not return a value: [Output::quit()]
    was called, or a vector was read outside its bounds. *)

Definition bind {A B : Type} (x : option A) (f : A -> option B) : option B :=
  match x with
  | Some a => f a
  | None => None
  end.

Notation "x <- e ;; k" := (bind e (fun x => k))
  (at level 61, e at next level, right associativity).
Notation "' p <- e ;; k" := (bind e (fun x => match x with p => k end))
  (at level 61, p pattern, e at next level, right associativity).

Fixpoint mapM {A B : Type} (f : A -> option B) (l : list A) : option (list B) :=
  match l with
  | [] => Some []
  | a :: r => b <- f a ;; bs <- mapM f r ;; Some (b :: bs)
  end.

(** Field updates of the pattern records. *)

Definition setMatching (matching : list (list nat)) (unmatched : list nat)
    (d : Diffraction) : Diffraction :=
  {| _type := _type d; _method := _method d; _wavelength := _wavelength d;
     _minTwoTheta := _minTwoTheta d; _maxTwoTheta := _maxTwoTheta d;
     _resolution := _resolution d;
     _matchingPeaks := matching; _unmatchedPeaks := unmatched;
     _optimalScale := _optimalScale d |}.

Definition setOptimalScale (s : R) (d : Diffraction) : Diffraction :=
  {| _type := _type d; _method := _method d; _wavelength := _wavelength d;
     _minTwoTheta := _minTwoTheta d; _maxTwoTheta := _maxTwoTheta d;
     _resolution := _resolution d;
     _matchingPeaks := _matchingPeaks d; _unmatchedPeaks := _unmatchedPeaks d;
     _optimalScale := s |}.

Definition setCalcBase (d : Diffraction) (p : CalculatedPattern) : CalculatedPattern :=
  {| calcBase := d; _reflections := _reflections p; _maxLatChange := _maxLatChange p;
     _BFactors := _BFactors p; _atfParams := _atfParams p;
     _useChebyshev := _useChebyshev p; _numBackground := _numBackground p;
     _backgroundPolyStart := _backgroundPolyStart p;
     _backgroundParameters := _backgroundParameters p;
     _shiftParameters := _shiftParameters p;
     U := U p; V := V p; W := W p;
     _eta0 := _eta0 p; _eta1 := _eta1 p; _eta2 := _eta2 p;
     _preferredOrientation := _preferredOrientation p;
     _currentlyRefining := _currentlyRefining p |}.

Definition setReflections (r : list CalculatedPeak) (p : CalculatedPattern) : CalculatedPattern :=
  {| calcBase := calcBase p; _reflections := r; _maxLatChange := _maxLatChange p;
     _BFactors := _BFactors p; _atfParams := _atfParams p;
     _useChebyshev := _useChebyshev p; _numBackground := _numBackground p;
     _backgroundPolyStart := _backgroundPolyStart p;
     _backgroundParameters := _backgroundParameters p;
     _shiftParameters := _shiftParameters p;
     U := U p; V := V p; W := W p;
     _eta0 := _eta0 p; _eta1 := _eta1 p; _eta2 := _eta2 p;
     _preferredOrientation := _preferredOrientation p;
     _currentlyRefining := _currentlyRefining p |}.

(** ** Matching calculated peaks to the reference *)

Module Matching.

(* "Tolerance for peaks to be aligned" *)
Definition tol : R := 0.15.

(* the inner loop, for (refPeak = 1; refPeak < referencePeaks.size(); ++refPeak),
   entered at [refPeak] with the reference peaks still to visit *)
Fixpoint nearestLoop (angle : R) (refPeak : nat) (toVisit : list DiffractionPeak)
    (nearIndex : nat) (nearDif : R) : nat * R :=
  match toVisit with
  | [] => (nearIndex, nearDif)
  | r :: rest =>
      let curDif := Rabs (angle - getAngle r) in
      if Rltb curDif nearDif
      then nearestLoop angle (S refPeak) rest refPeak curDif
      else nearestLoop angle (S refPeak) rest nearIndex nearDif
  end.

(* _matchingPeaks[nearIndex].push_back(thisPeak) *)
Fixpoint pushAt (nearIndex thisPeak : nat) (matching : list (list nat)) : list (list nat) :=
  match matching, nearIndex with
  | [], _ => []
  | b :: rest, O => (b ++ [thisPeak]) :: rest
  | b :: rest, S i => b :: pushAt i thisPeak rest
  end.

(* the state carried by the loop over the peaks of this pattern: the local
   copy [thisPeaks] (as far as it was visited), _matchingPeaks, _unmatchedPeaks *)
Definition LoopState : Type := (list DiffractionPeak * list (list nat) * list nat)%type.

(* one pass of the outer loop.  The first distance is taken to
   referencePeaks[thisPeak], while nearIndex starts at 0. *)
Definition matchPeak (referencePeaks : list DiffractionPeak) (thisPeak : nat)
    (p : DiffractionPeak) (st : LoopState) : option LoopState :=
  let '(visited, matching, unmatched) := st in
  r <- nth_error referencePeaks thisPeak ;;
  let nearIndex := 0%nat in
  let nearDif := Rabs (getAngle p - getAngle r) in
  let '(nearIndex, nearDif) :=
    nearestLoop (getAngle p) 1 (tl referencePeaks) nearIndex nearDif in
  if Rltb tol nearDif
  then Some (visited ++ [setPatternIndex (-1) p], matching, unmatched ++ [thisPeak])
  else Some (visited ++ [setPatternIndex (Z.of_nat nearIndex) p],
             pushAt nearIndex thisPeak matching, unmatched).

Fixpoint matchLoop (referencePeaks : list DiffractionPeak) (thisPeak : nat)
    (toVisit : list DiffractionPeak) (st : LoopState) : option LoopState :=
  match toVisit with
  | [] => Some st
  | p :: rest =>
      st' <- matchPeak referencePeaks thisPeak p st ;;
      matchLoop referencePeaks (S thisPeak) rest st'
  end.

(* Diffraction::matchPeaksToReference.  [referencePeaks] is what the
   reference returns from getDiffractedPeaks(), [thisPeaks] what this pattern
   returns: a vector by value, so the pattern indices are written to a local
   copy, returned here next to the updated members. *)
Definition matchPeaksToReference (d : Diffraction)
    (referencePeaks thisPeaks : list DiffractionPeak)
    : option (Diffraction * list DiffractionPeak) :=
  let matching := map (fun _ => @nil nat) referencePeaks in
  '(visited, matching, unmatched) <-
     matchLoop referencePeaks 0 thisPeaks ([], matching, []) ;;
  Some (setMatching matching unmatched d, visited).

(* ExperimentalPattern::getDiffractedPeaks: quits on an empty peak list *)
Definition getDiffractedPeaksExp (e : ExperimentalPattern) : option (list DiffractionPeak) :=
  match _diffractionPeaks e with
  | [] => None
  | l => Some l
  end.

(* CalculatedPattern::getDiffractedPeaks: copies of the stored reflections,
   cut down to their DiffractionPeak part *)
Definition getDiffractedPeaks (p : CalculatedPattern) : list DiffractionPeak :=
  map base (_reflections p).

Definition setPeakPatternIndex (i : Z) (p : CalculatedPeak) : CalculatedPeak :=
  {| base := setPatternIndex i (base p);
     method := method p; wavelength := wavelength p; hkl := hkl p;
     equivHKL := equivHKL p; recipLatVecs := recipLatVecs p;
     lpFactor := lpFactor p; multiplicity := multiplicity p |}.

(* for (i = 0; i < _reflections.size(); i++) _reflections[i].patternIndex = i; *)
Fixpoint numberFrom (i : nat) (l : list CalculatedPeak) : list CalculatedPeak :=
  match l with
  | [] => []
  | p :: rest => setPeakPatternIndex (Z.of_nat i) p :: numberFrom (S i) rest
  end.

(* CalculatedPattern::matchPeaksToReference *)
Definition matchPeaksToReferenceCalc (p : CalculatedPattern)
    (referencePeaks : list DiffractionPeak) : option CalculatedPattern :=
  let p := setReflections (numberFrom 0 (_reflections p)) p in
  '(d, _) <- matchPeaksToReference (calcBase p) referencePeaks (getDiffractedPeaks p) ;;
  Some (setCalcBase d p).

End Matching.

(** ** R-factor engine ([Diffraction::getCurrentRFactor]) *)

Module RFactor.

(* std::accumulate(first, last, 0.0) *)
Definition accumulate (l : list R) : R := fold_left Rplus l 0.

(* std::inner_product(first1, last1, first2, 0.0) *)
Definition inner_product (a b : list R) : R :=
  fold_left (fun acc xy => acc + fst xy * snd xy) (combine a b) 0.

(* thisPeaks[k].getIntensity() *)
Definition intensityAt (thisPeaks : list DiffractionPeak) (k : nat) : option R :=
  p <- nth_error thisPeaks k ;; Some (getIntensity p).

(* matchedIntensity[i], summed over _matchingPeaks[i] *)
Definition bucketIntensity (thisPeaks : list DiffractionPeak) (bucket : list nat) : option R :=
  fold_left (fun acc k => a <- acc ;; x <- intensityAt thisPeaks k ;; Some (a + x))
            bucket (Some 0).

(* Part #1: (referenceIntensity, matchedIntensity, unmatchedIntensity) *)
Definition gatherIntensities (d : Diffraction)
    (referencePeaks thisPeaks : list DiffractionPeak)
    : option (list R * list R * list R) :=
  let referenceIntensity := map getIntensity referencePeaks in
  matchedIntensity <-
    mapM (fun i => bucket <- nth_error (_matchingPeaks d) i ;;
                   bucketIntensity thisPeaks bucket)
         (seq 0 (length referencePeaks)) ;;
  unmatchedIntensity <- mapM (intensityAt thisPeaks) (_unmatchedPeaks d) ;;
  Some (referenceIntensity, matchedIntensity, unmatchedIntensity).

(* sum of |I_ref - scale * I_matched| followed by the sum of
   |scale * I_unmatched|: the value of curError, and of rFactor before it
   is divided by the norm *)
Definition absError (scale : R) (referenceIntensity matchedIntensity unmatchedIntensity : list R) : R :=
  fold_left (fun e u => e + Rabs (scale * u)) unmatchedIntensity
    (fold_left (fun e rm => e + Rabs (fst rm - scale * snd rm))
               (combine referenceIntensity matchedIntensity) 0).

Definition squaredError (scale : R) (referenceIntensity matchedIntensity unmatchedIntensity : list R) : R :=
  fold_left (fun e u => e + (scale * u) ^ 2) unmatchedIntensity
    (fold_left (fun e rm => e + (fst rm - scale * snd rm) ^ 2)
               (combine referenceIntensity matchedIntensity) 0).

(* Part #3 for DR_ABS: the loop over the candidate scales
   referenceIntensity[i] / matchedIntensity[i]; the state is
   (minimumError, _optimalScale) *)
Fixpoint scanScales (referenceIntensity matchedIntensity unmatchedIntensity : list R)
    (candidates : list (R * R)) (minimumError optimalScale : R) : R * R :=
  match candidates with
  | [] => (minimumError, optimalScale)
  | (r, m) :: rest =>
      if Reqb m 0
      then scanScales referenceIntensity matchedIntensity unmatchedIntensity rest
             minimumError optimalScale
      else
        let curScale := r / m in
        let curError :=
          absError curScale referenceIntensity matchedIntensity unmatchedIntensity in
        if Rltb curError minimumError
        then scanScales referenceIntensity matchedIntensity unmatchedIntensity rest
               curError curScale
        else scanScales referenceIntensity matchedIntensity unmatchedIntensity rest
               minimumError optimalScale
  end.

(* Parts #2 to #5 on the gathered intensities: (_optimalScale, rFactor) *)
Definition scaleAndRFactor (rMethod : Rmethod)
    (referenceIntensity matchedIntensity unmatchedIntensity : list R) : R * R :=
  match rMethod with
  | DR_SQUARED =>
      let norm := fold_left (fun n r => n + r * r) referenceIntensity 0 in
      let optimalScale := inner_product matchedIntensity referenceIntensity in
      let denom := inner_product matchedIntensity matchedIntensity in
      let denom := denom + inner_product unmatchedIntensity unmatchedIntensity in
      let optimalScale := optimalScale / denom in
      (optimalScale,
       squaredError optimalScale referenceIntensity matchedIntensity unmatchedIntensity / norm)
  | _ =>
      let norm := accumulate referenceIntensity in
      let '(_, optimalScale) :=
        scanScales referenceIntensity matchedIntensity unmatchedIntensity
          (combine referenceIntensity matchedIntensity) 1e100 1.0 in
      (optimalScale,
       absError optimalScale referenceIntensity matchedIntensity unmatchedIntensity / norm)
  end.

(* Diffraction::getCurrentRFactor: the pattern with its new _optimalScale,
   and the R factor.  With DR_RIETVELD the first switch returns -1 before
   the scale is touched. *)
Definition getCurrentRFactor (d : Diffraction)
    (referencePeaks thisPeaks : list DiffractionPeak) (rMethod : Rmethod)
    : option (Diffraction * R) :=
  match _matchingPeaks d with
  | [] => None
  | _ =>
      '(referenceIntensity, matchedIntensity, unmatchedIntensity) <-
         gatherIntensities d referencePeaks thisPeaks ;;
      match rMethod with
      | DR_RIETVELD => Some (d, -1)
      | _ =>
          let '(optimalScale, rFactor) :=
            scaleAndRFactor rMethod referenceIntensity matchedIntensity unmatchedIntensity in
          Some (setOptimalScale optimalScale d, rFactor)
      end
  end.

(* the value of minimumError when the scan of Part #3 (DR_ABS) ends *)
Definition minimumError (d : Diffraction)
    (referencePeaks thisPeaks : list DiffractionPeak) : option R :=
  '(referenceIntensity, matchedIntensity, unmatchedIntensity) <-
     gatherIntensities d referencePeaks thisPeaks ;;
  Some (fst (scanScales referenceIntensity matchedIntensity unmatchedIntensity
               (combine referenceIntensity matchedIntensity) 1e100 1.0)).

(* the scan accepted a candidate scale: minimumError went below its initial
   value (trivially so when the intensities cannot be gathered) *)
Definition candidateAccepted (d : Diffraction)
    (referencePeaks thisPeaks : list DiffractionPeak) : Prop :=
  match minimumError d referencePeaks thisPeaks with
  | Some e => e < 1e100
  | None => True
  end.

(* the reference pattern with every peak intensity multiplied by alpha *)
Definition scaleIntensity (alpha : R) (p : DiffractionPeak) : DiffractionPeak :=
  {| patternIndex := patternIndex p;
     twoThetaRad := twoThetaRad p;
     TwoThetaDeg := TwoThetaDeg p;
     peakIntensity := alpha * peakIntensity p |}.

End RFactor.

(** ** Profile synthesizer *)

Module Profile.

(** A double that may be not-a-number.  Arithmetic with [NaN] gives [NaN]
    and every comparison with [NaN] is false, as IEEE 754 has it. *)
Inductive double : Type := NaN | Fin (x : R).

Definition lift1 (f : R -> R) (a : double) : double :=
  match a with
  | Fin x => Fin (f x)
  | NaN => NaN
  end.

Definition lift2 (f : R -> R -> R) (a b : double) : double :=
  match a, b with
  | Fin x, Fin y => Fin (f x y)
  | _, _ => NaN
  end.

Definition dadd : double -> double -> double := lift2 Rplus.
Definition dsub : double -> double -> double := lift2 Rminus.
Definition dmul : double -> double -> double := lift2 Rmult.
Definition ddiv : double -> double -> double := lift2 Rdiv.
Definition dexp : double -> double := lift1 exp.

(* sqrt: not-a-number below zero *)
Definition dsqrt (x : R) : double := if Rltb x 0 then NaN else Fin (sqrt x).

Definition dlt (a b : double) : bool :=
  match a, b with
  | Fin x, Fin y => Rltb x y
  | _, _ => false
  end.

Definition dge (a b : double) : bool :=
  match a, b with
  | Fin x, Fin y => Rgeb x y
  | _, _ => false
  end.

(* std::lower_bound(first, last, value): the usual binary search on
   [first, first + len); [fuel] bounds the number of halvings *)
Fixpoint lowerBoundLoop (twoTheta : list R) (value : double)
    (fuel first len : nat) : nat :=
  match fuel with
  | O => first
  | S fuel' =>
      if (len =? 0)%nat then first
      else
        let half := Nat.div2 len in
        let middle := (first + half)%nat in
        if dlt (Fin (nth middle twoTheta 0)) value
        then lowerBoundLoop twoTheta value fuel' (S middle) (len - half - 1)
        else lowerBoundLoop twoTheta value fuel' first half
  end.

Definition lower_bound (twoTheta : list R) (value : double) : nat :=
  lowerBoundLoop twoTheta value (length twoTheta) 0 (length twoTheta).

(* while (twoTheta[++a] < minAngle) continue;
   the element is read before any bound is checked: [None] when it lies
   outside the vector *)
Fixpoint skipBelow (twoTheta : list R) (minAngle : double) (fuel a : nat) : option nat :=
  match nth_error twoTheta (S a) with
  | None => None
  | Some t =>
      if dlt (Fin t) minAngle
      then match fuel with
           | O => None
           | S fuel' => skipBelow twoTheta minAngle fuel' (S a)
           end
      else Some (S a)
  end.

(* output[a] += v *)
Fixpoint addAt (a : nat) (v : double) (output : list double) : list double :=
  match output, a with
  | [], _ => []
  | o :: rest, O => dadd o v :: rest
  | o :: rest, S a' => o :: addAt a' v rest
  end.

Definition Cg : R := 4 * ln 2.
Definition rCg : R := sqrt Cg.
Definition rPI : R := sqrt PI.

(* while (twoTheta[a] < maxAngle && a < twoTheta.size()) { ...; a++; }
   When a reaches twoTheta.size() the element read lies one past the end and
   the second operand ends the loop whatever was read. *)
Fixpoint addProfile (twoTheta : list R) (center : R) (H maxAngle : double)
    (intensity eta : R) (fuel a : nat) (output : list double) : list double :=
  match fuel with
  | O => output
  | S fuel' =>
      match nth_error twoTheta a with
      | None => output
      | Some t =>
          if dlt (Fin t) maxAngle && (a <? length twoTheta)%nat
          then
            let gPrefactor := ddiv (Fin (rCg / rPI)) H in
            let lPrefactor := ddiv (Fin (2.0 / PI)) H in
            let x := lift1 (fun y => y ^ 2) (ddiv (Fin (t - center)) H) in
            let gaussian := dmul gPrefactor (dexp (dmul (Fin (- Cg)) x)) in
            let lorentzian := ddiv lPrefactor (dadd (Fin 1) (dmul (Fin 4.0) x)) in
            let v := dmul (Fin intensity)
                       (dadd (dmul (Fin eta) gaussian) (dmul (Fin (1 - eta)) lorentzian)) in
            addProfile twoTheta center H maxAngle intensity eta fuel' (S a) (addAt a v output)
          else output
      end
  end.

(* the Caglioti term W + tan(theta) (V + U tan(theta)) of a reflection.
   For a reflection stored at centerRad = PI the tangent of the reals has a
   pole, where the code computes tan(M_PI / 2), a large finite number: what
   is stated below of this term is stated for cos (centerRad / 2) <> 0 *)
Definition caglioti (pat : CalculatedPattern) (refl : CalculatedPeak) : R :=
  let centerRad := getAngleRadians (base refl) in
  W pat + tan (centerRad / 2) * (V pat + U pat * tan (centerRad / 2)).

(* one pass of the loop over the reflections in generatePeakSignal *)
Definition peakSignal (pat : CalculatedPattern) (twoTheta : list R)
    (output : list double) (refl : CalculatedPeak) : option (list double) :=
  let center := getAngle (base refl) in
  let centerRad := getAngleRadians (base refl) in
  let H := dsqrt (caglioti pat refl) in
  let eta := _eta0 pat + center * (_eta1 pat + center * _eta2 pat) in
  let s i := nth i (_shiftParameters pat) 0 in
  let shift := s 0%nat / tan centerRad + s 1%nat / sin centerRad
               + s 2%nat / tan (centerRad / 2) + s 3%nat * sin centerRad
               + s 4%nat * cos centerRad + s 5%nat in
  let center := center + shift in
  let minAngle := dsub (Fin center) (dmul (Fin 6.0) H) in
  let maxAngle := dadd (Fin center) (dmul (Fin 6.0) H) in
  if dge minAngle (Fin (_maxTwoTheta (calcBase pat))) then Some output
  else
    let a := lower_bound twoTheta minAngle in
    let intensity := getIntensity (base refl) in
    a <- skipBelow twoTheta minAngle (length twoTheta) a ;;
    Some (addProfile twoTheta center H maxAngle intensity eta (length twoTheta) a output).

Fixpoint peakLoop (pat : CalculatedPattern) (twoTheta : list R)
    (reflections : list CalculatedPeak) (output : list double) : option (list double) :=
  match reflections with
  | [] => Some output
  | refl :: rest =>
      output' <- peakSignal pat twoTheta output refl ;;
      peakLoop pat twoTheta rest output'
  end.

(* CalculatedPattern::generatePeakSignal *)
Definition generatePeakSignal (pat : CalculatedPattern) (twoTheta : list R)
    : option (list double) :=
  peakLoop pat twoTheta (_reflections pat) (map (fun _ => Fin 0) twoTheta).

(* the Chebyshev terms from t = 2 on: chebyshev[t] = 2 x chebyshev[t-1] - chebyshev[t-2] *)
Fixpoint chebyshevTail (x : R) (params : list R) (prev2 prev1 : R) (output : R) : R :=
  match params with
  | [] => output
  | c :: rest =>
      let cur := 2 * x * prev1 - prev2 in
      chebyshevTail x rest prev1 cur (output + c * cur)
  end.

(* the polynomial terms: output += c * x; x *= twoTheta[a] *)
Fixpoint polynomialTerms (t : R) (params : list R) (x : R) (output : R) : R :=
  match params with
  | [] => output
  | c :: rest => polynomialTerms t rest (x * t) (output + c * x)
  end.

(* the background at one angle *)
Definition backgroundAt (pat : CalculatedPattern) (t : R) : R :=
  if _useChebyshev pat then
    match _backgroundParameters pat with
    | [] => 0
    | [c0] => 0 + c0
    | c0 :: c1 :: rest =>
        let x := 2 * (t - _minTwoTheta (calcBase pat))
                 / (_maxTwoTheta (calcBase pat) - _minTwoTheta (calcBase pat)) - 1 in
        chebyshevTail x rest 1 x (0 + c0 + c1 * x)
    end
  else
    polynomialTerms t (_backgroundParameters pat) (powerRZ t (_backgroundPolyStart pat)) 0.

(* CalculatedPattern::generateBackgroundSignal.  The array
   chebyshev[_numBackground] is written at 0 and, with Chebyshev terms, up
   to _backgroundParameters.size() - 1: [None] when that leaves the array. *)
Definition generateBackgroundSignal (pat : CalculatedPattern) (twoTheta : list R)
    : option (list R) :=
  match _backgroundParameters pat with
  | [] => Some (map (fun _ => 0) twoTheta)
  | _ =>
      if (_numBackground pat =? 0)%nat then None
      else if _useChebyshev pat
              && negb (length twoTheta =? 0)%nat
              && (_numBackground pat <? length (_backgroundParameters pat))%nat
      then None
      else Some (map (backgroundAt pat) twoTheta)
  end.

(* output[i] += signal[i] *)
Fixpoint addSignal (output : list R) (signal : list double) : list double :=
  match output, signal with
  | o :: output', s :: signal' => dadd (Fin o) s :: addSignal output' signal'
  | _, _ => []
  end.

(* CalculatedPattern::getDiffractedIntensity *)
Definition getDiffractedIntensity (pat : CalculatedPattern) (twoTheta : list R)
    : option (list double) :=
  output <- generateBackgroundSignal pat twoTheta ;;
  signal <- generatePeakSignal pat twoTheta ;;
  Some (addSignal output signal).

End Profile.

(** ** Refinement driver ([CalculatedPattern::rietveldRefinement]) *)

Module Refinement.

Definition RF_eq_dec (a b : RefinementParameters) : {a = b} + {a <> b}.
Proof. decide equality. Defined.

(** [std::set<RefinementParameters>] as a list without repetition. *)
Definition RefinementSet : Type := list RefinementParameters.

Definition insert (x : RefinementParameters) (s : RefinementSet) : RefinementSet :=
  if in_dec RF_eq_dec x s then s else s ++ [x].

(* s.insert(other.begin(), other.end()) *)
Definition insertAll (other s : RefinementSet) : RefinementSet :=
  fold_left (fun acc x => insert x acc) other s.

(* CalculatedPattern::willRefine *)
Definition willRefine (parameter : RefinementParameters) (toRefine : RefinementSet) : bool :=
  if in_dec RF_eq_dec parameter toRefine then true else false.

Definition setCurrentlyRefining (s : RefinementSet) (p : CalculatedPattern) : CalculatedPattern :=
  {| calcBase := calcBase p; _reflections := _reflections p; _maxLatChange := _maxLatChange p;
     _BFactors := _BFactors p; _atfParams := _atfParams p;
     _useChebyshev := _useChebyshev p; _numBackground := _numBackground p;
     _backgroundPolyStart := _backgroundPolyStart p;
     _backgroundParameters := _backgroundParameters p;
     _shiftParameters := _shiftParameters p;
     U := U p; V := V p; W := W p;
     _eta0 := _eta0 p; _eta1 := _eta1 p; _eta2 := _eta2 p;
     _preferredOrientation := _preferredOrientation p;
     _currentlyRefining := s |}.

Definition setBackgroundParameters (b : list R) (p : CalculatedPattern) : CalculatedPattern :=
  {| calcBase := calcBase p; _reflections := _reflections p; _maxLatChange := _maxLatChange p;
     _BFactors := _BFactors p; _atfParams := _atfParams p;
     _useChebyshev := _useChebyshev p; _numBackground := _numBackground p;
     _backgroundPolyStart := _backgroundPolyStart p;
     _backgroundParameters := b;
     _shiftParameters := _shiftParameters p;
     U := U p; V := V p; W := W p;
     _eta0 := _eta0 p; _eta1 := _eta1 p; _eta2 := _eta2 p;
     _preferredOrientation := _preferredOrientation p;
     _currentlyRefining := _currentlyRefining p |}.

Definition setW (w : R) (p : CalculatedPattern) : CalculatedPattern :=
  {| calcBase := calcBase p; _reflections := _reflections p; _maxLatChange := _maxLatChange p;
     _BFactors := _BFactors p; _atfParams := _atfParams p;
     _useChebyshev := _useChebyshev p; _numBackground := _numBackground p;
     _backgroundPolyStart := _backgroundPolyStart p;
     _backgroundParameters := _backgroundParameters p;
     _shiftParameters := _shiftParameters p;
     U := U p; V := V p; W := w;
     _eta0 := _eta0 p; _eta1 := _eta1 p; _eta2 := _eta2 p;
     _preferredOrientation := _preferredOrientation p;
     _currentlyRefining := _currentlyRefining p |}.

(** The pattern together with the structure and the symmetry it points to
    (refinement changes all three), and a record of the calls to
    [runRefinement]: the value of [_currentlyRefining] at each call, oldest
    first.  The record is not a member of the class; it is kept to state
    which refinements were run. *)
Record Engine : Type := mkEngine {
  pattern : CalculatedPattern;
  basis : Basis.t;
  symmetry : Symmetry;
  calls : list RefinementSet
}.

Definition onPattern (f : CalculatedPattern -> CalculatedPattern) (e : Engine) : Engine :=
  {| pattern := f (pattern e); basis := basis e; symmetry := symmetry e; calls := calls e |}.

(* CalculatedPattern::calculatePeakIntensities *)
Definition calculatePeakIntensities (e : Engine) : Engine :=
  let pat := pattern e in
  let texturingParameter := magnitude (_preferredOrientation pat) in
  onPattern
    (setReflections
       (map (fun refl =>
               let refl :=
                 if willRefine RF_BASIS (_currentlyRefining pat)
                 then Peak.updatePeakPosition (basis e) refl
                 else refl in
               Peak.updateCalculatedIntensity (symmetry e) (_BFactors pat) (_atfParams pat)
                 (_preferredOrientation pat) texturingParameter refl)
            (_reflections pat)))
    e.

(* the parameter kinds of the stages up to the width stage, and of the
   stages that follow the test of curR *)
Definition earlyKinds : RefinementSet :=
  [RF_SCALE; RF_SPECDISP; RF_BACKGROUND; RF_BASIS; RF_WFACTOR].
Definition laterKinds : RefinementSet :=
  [RF_POSITIONS; RF_TEXTURE; RF_BFACTORS; RF_UVFACTORS; RF_ZEROSHIFT].

Definition refiningOf (e : Engine) : RefinementSet := _currentlyRefining (pattern e).

(* since the state [e0], every call to runRefinement was made with early
   kinds only, and only early kinds are enabled *)
Definition early (e0 e : Engine) : Prop :=
  incl (refiningOf e) earlyKinds /\
  exists newCalls,
    calls e = calls e0 ++ newCalls /\
    Forall (fun s => incl s earlyKinds) newCalls.

Section Externals.

(** What the driver calls and the sources do not decide:
    - [minimise]: the pattern, structure and symmetry once
      [dlib::find_min_box_constrained] has moved the parameters named by
      [_currentlyRefining] within their bounds and [setAccordingToParameters]
      has written them back;
    - [rFactorAbs]: [getRietveldRFactor(reference, DR_ABS)] in that state;
    - [scaleGuess], [guessBackgroundParameters], [guessPeakWidthParameter]:
      the starting values taken from the reference profile. *)
Variable minimise : CalculatedPattern -> Basis.t -> Symmetry -> CalculatedPattern * Basis.t * Symmetry.
Variable rFactorAbs : Engine -> R.
Variable scaleGuess : Engine -> R.
Variable guessBackgroundParameters : Engine -> list R.
Variable guessPeakWidthParameter : Engine -> R.

(* CalculatedPattern::runRefinement(reference, true).  Nothing it calls
   assigns _currentlyRefining, which is carried over. *)
Definition runRefinement (e : Engine) : Engine * R :=
  let '(pat, b, s) := minimise (pattern e) (basis e) (symmetry e) in
  let e' := calculatePeakIntensities
              {| pattern := setCurrentlyRefining (_currentlyRefining (pattern e)) pat;
                 basis := b; symmetry := s;
                 calls := calls e ++ [_currentlyRefining (pattern e)] |} in
  (e', rFactorAbs e').

Definition clearRefining : Engine -> Engine := onPattern (setCurrentlyRefining []).

Definition addRefining (x : RefinementParameters) : Engine -> Engine :=
  onPattern (fun p => setCurrentlyRefining (insert x (_currentlyRefining p)) p).

Definition addAllRefining (s : RefinementSet) : Engine -> Engine :=
  onPattern (fun p => setCurrentlyRefining (insertAll s (_currentlyRefining p)) p).

(* "Refine the scale factor" *)
Definition stageScale (e : Engine) (refinedSoFar : RefinementSet)
    : Engine * RefinementSet * R :=
  let guess := scaleGuess e in
  let e := addRefining RF_SCALE e in
  let refinedSoFar := insert RF_SCALE refinedSoFar in
  let e := onPattern (fun p => setCalcBase (setOptimalScale guess (calcBase p)) p) e in
  let '(e, curR) := runRefinement e in
  (e, refinedSoFar, curR).

(* "Refine specimen displacement" *)
Definition stageSpecimenDisplacement (e : Engine) (refinedSoFar : RefinementSet)
    : Engine * RefinementSet * R :=
  let e := clearRefining e in
  let e := addRefining RF_SPECDISP e in
  let refinedSoFar := insert RF_SPECDISP refinedSoFar in
  let '(e, curR) := runRefinement e in
  let e := addAllRefining refinedSoFar e in
  let '(e, curR) := runRefinement e in
  (e, refinedSoFar, curR).

(* "Refine the background" *)
Definition stageBackground (e : Engine) (refinedSoFar : RefinementSet)
    : Engine * RefinementSet * R :=
  let e := clearRefining e in
  let e := addRefining RF_BACKGROUND e in
  let e := addRefining RF_SCALE e in
  let refinedSoFar := insert RF_BACKGROUND refinedSoFar in
  let e := onPattern (setBackgroundParameters (guessBackgroundParameters e)) e in
  let '(e, curR) := runRefinement e in
  let e := addAllRefining refinedSoFar e in
  let '(e, curR) := runRefinement e in
  (e, refinedSoFar, curR).

(* "Refine lattice parameters, if desired" *)
Definition stageBasis (e : Engine) (refinedSoFar : RefinementSet) (curR : R)
    : Engine * RefinementSet * R :=
  if Rltb 0 (_maxLatChange (pattern e)) then
    let oldParams := insertAll (_currentlyRefining (pattern e)) [] in
    let e := clearRefining e in
    let e := addRefining RF_BASIS e in
    let refinedSoFar := insert RF_BASIS refinedSoFar in
    let '(e, curR) := runRefinement e in
    let e := addAllRefining oldParams e in
    (e, refinedSoFar, curR)
  else (e, refinedSoFar, curR).

(* "Refine the peak broadening (W)" *)
Definition stageWidth (e : Engine) (refinedSoFar : RefinementSet)
    : Engine * RefinementSet * R :=
  let e := onPattern (setW (guessPeakWidthParameter e)) e in
  let e := addRefining RF_WFACTOR e in
  let refinedSoFar := insert RF_WFACTOR refinedSoFar in
  let '(e, curR) := runRefinement e in
  let e := addAllRefining refinedSoFar e in
  let '(e, curR) := runRefinement e in
  (e, refinedSoFar, curR).

(* rietveldRefinement up to the test of curR after the width stage *)
Definition stagesThroughWidth (e : Engine) : Engine * R :=
  let e := clearRefining e in
  let refinedSoFar : RefinementSet := [] in
  let e := calculatePeakIntensities e in
  let '(e, refinedSoFar, curR) := stageScale e refinedSoFar in
  let '(e, refinedSoFar, curR) := stageSpecimenDisplacement e refinedSoFar in
  let '(e, refinedSoFar, curR) := stageBackground e refinedSoFar in
  let '(e, refinedSoFar, curR) := stageBasis e refinedSoFar curR in
  let '(e, refinedSoFar, curR) := stageWidth e refinedSoFar in
  (e, curR).

(* one of the stages after the test: enable a parameter kind and refine *)
Definition stageAdd (x : RefinementParameters) (e : Engine) : Engine :=
  fst (runRefinement (addRefining x e)).

(* rietveldRefinement after the test of curR *)
Definition laterStages (toRefine : RefinementSet) (e : Engine) : Engine :=
  let e := if willRefine RF_POSITIONS toRefine then stageAdd RF_POSITIONS e else e in
  let e := stageAdd RF_TEXTURE e in
  let e := if willRefine RF_BFACTORS toRefine then stageAdd RF_BFACTORS e else e in
  let e := stageAdd RF_UVFACTORS e in
  stageAdd RF_ZEROSHIFT e.

(* CalculatedPattern::rietveldRefinement *)
Definition rietveldRefinement (toRefine : RefinementSet) (e : Engine) : Engine :=
  let '(e, curR) := stagesThroughWidth e in
  if Rltb 0.9 curR then e
  else laterStages toRefine e.

End Externals.

End Refinement.

(** ** Processing of a raw pattern: derivatives and smoothing *)

Module Processing.

(* v[i] = x.  The functions below write within the vector only. *)
Fixpoint assign (i : nat) (x : R) (v : list R) : list R :=
  match v, i with
  | [], _ => []
  | _ :: rest, O => x :: rest
  | a :: rest, S j => a :: assign j x rest
  end.

(* a for loop over the given indices whose body updates one vector *)
Fixpoint forEach (body : nat -> list R -> option (list R)) (indices : list nat)
    (v : list R) : option (list R) :=
  match indices with
  | [] => Some v
  | i :: rest => v' <- body i v ;; forEach body rest v'
  end.

(* ExperimentalPattern::getFirstDerivative.  d[0] and d.back() are computed
   from d, not from y. *)
Definition getFirstDerivative (x y : list R) : option (list R) :=
  let d := repeat 0 (length x) in
  x1 <- nth_error x 1 ;;
  x0 <- nth_error x 0 ;;
  let h := 2 * (x1 - x0) in
  d1 <- nth_error d 1 ;;
  d0 <- nth_error d 0 ;;
  let d := assign 0 ((d1 - d0) / h * 2) d in
  d <- forEach (fun i d =>
                  yn <- nth_error y (i + 1) ;;
                  yp <- nth_error y (i - 1) ;;
                  Some (assign i ((yn - yp) / h) d))
               (seq 1 (length x - 2)) d ;;
  back <- nth_error d (length d - 1) ;;
  prev <- nth_error d (length d - 2) ;;
  Some (assign (length d - 1) ((back - prev) / h * 2) d).

(* ExperimentalPattern::getSecondDerivative *)
Definition getSecondDerivative (x y : list R) : option (list R) :=
  let d := repeat 0 (length x) in
  x1 <- nth_error x 1 ;;
  x0 <- nth_error x 0 ;;
  let h2 := x1 - x0 in
  let h2 := h2 * h2 in
  d <- forEach (fun i d =>
                  yn <- nth_error y (i + 1) ;;
                  yi <- nth_error y i ;;
                  yp <- nth_error y (i - 1) ;;
                  Some (assign i ((yn - 2 * yi + yp) / h2) d))
               (seq 1 (length x - 2)) d ;;
  d1 <- nth_error d 1 ;;
  let d := assign 0 d1 d in
  prev <- nth_error d (length d - 2) ;;
  Some (assign (length d - 1) prev d).

(* the weights of smoothData, after the division by totalWeight:
   weight[numPerSide - i] and weight[numPerSide + i] hold temp(i) *)
Definition smoothWeights (numPerSide : nat) (farWeight : R) : list R :=
  let temp := fun i => 1.0 + (farWeight - 1.0) * INR i / INR numPerSide in
  let totalWeight := fold_left (fun t i => t + 2 * temp i) (seq 1 numPerSide) 1.0 in
  map (fun w => w / totalWeight)
      (map temp (rev (seq 1 numPerSide)) ++ [1.0] ++ map temp (seq 1 numPerSide)).

(* newValue: the sum over j of weight[j] * initialInt[startPoint + j] *)
Definition weightedSum (weight initialInt : list R) (startPoint : nat) : option R :=
  fold_left (fun acc j =>
               a <- acc ;;
               w <- nth_error weight j ;;
               x <- nth_error initialInt (startPoint + j) ;;
               Some (a + w * x))
            (seq 0 (length weight)) (Some 0).

(* ExperimentalPattern::smoothData: the new value of rawIntensity.  The loop
   bound rawIntensity.size() - numPerSide is unsigned: with fewer than
   numPerSide points it wraps around, and the first pass reads initialInt
   outside its bounds. *)
Definition smoothData (rawTwoTheta rawIntensity : list R) (numPerSide : nat) (power : R)
    : option (list R) :=
  let weight := smoothWeights numPerSide power in
  let initialInt := rawIntensity in
  if (length rawIntensity <? numPerSide)%nat then None
  else
    forEach (fun i rawIntensity =>
               newValue <- weightedSum weight initialInt (i - numPerSide) ;;
               Some (assign i newValue rawIntensity))
            (seq numPerSide (length rawIntensity - numPerSide - numPerSide))
            rawIntensity.

End Processing.

(** ** Background removal ([ExperimentalPattern::removeBackground]) *)

Module Baseline.

(* fitWeight[i]: the fourth power of 1 / intensity, or of 10 *)
Definition fitWeight (intensity : R) : R :=
  let w := if Rltb 0 intensity then 1.0 / intensity else 10 in
  let w := w * w in
  w * w.

(* the points point + neigh for neigh from -toAverage to toAverage: none
   when toAverage is negative *)
Definition neighbours (point : nat) (toAverage : Z) : list nat :=
  if (toAverage <? 0)%Z then []
  else seq (point - Z.to_nat toAverage) (2 * Z.to_nat toAverage + 1).

(* (int) x: the fraction is dropped.  The conversion is defined where the
   result fits an int, and nowhere else: [None] there. *)
Definition toInt (x : R) : option Z :=
  let n := if Rltb x 0 then (- Int_part (- x))%Z else Int_part x in
  if ((-2147483648 <=? n) && (n <=? 2147483647))%Z then Some n else None.

(* backgroundSignal[point].  With a negative pointsPerSide no neighbour is
   averaged and backgroundSignal[point] is 0.0 / 0.0, which is no number:
   [None] as well. *)
Definition backgroundAt (rawIntensity : list R) (pointsPerSide : Z) (point : nat)
    : option R :=
  let toAverage := Z.min (Z.of_nat point) pointsPerSide in
  let toAverage :=
    Z.min toAverage (Z.of_nat (length rawIntensity) - 1 - Z.of_nat point) in
  '(signal, totalWeight) <-
     fold_left (fun acc i =>
                  '(signal, totalWeight) <- acc ;;
                  x <- nth_error rawIntensity i ;;
                  Some (signal + fitWeight x * x, totalWeight + fitWeight x))
               (neighbours point toAverage) (Some (0, 0)) ;;
  if Reqb totalWeight 0 then None else Some (signal / totalWeight).

(* ExperimentalPattern::removeBackground: the new value of rawIntensity.
   The quotient of the box size by a spacing of 0 is infinite and fits no
   int. *)
Definition removeBackground (rawTwoTheta rawIntensity : list R) : option (list R) :=
  let boxSize := 4.0 in
  t1 <- nth_error rawTwoTheta 1 ;;
  t0 <- nth_error rawTwoTheta 0 ;;
  nPoints <- (if Reqb (t1 - t0) 0 then None else toInt (boxSize / (t1 - t0))) ;;
  let pointsPerSide := Z.quot nPoints 2 in
  backgroundSignal <-
    mapM (backgroundAt rawIntensity pointsPerSide) (seq 0 (length rawIntensity)) ;;
  Some (map (fun xb => fst xb - snd xb) (combine rawIntensity backgroundSignal)).

End Baseline.

(** ** Experimental processor ([ExperimentalPattern::set]) *)

Module Experimental.

(* the loop that finds the smallest and the largest spacing of the sorted
   angles; the state is (minDif, maxDif) *)
Fixpoint spacingLoop (prev : R) (rest : list R) (minDif maxDif : R) : R * R :=
  match rest with
  | [] => (minDif, maxDif)
  | t :: rest' =>
      let curDif := t - prev in
      if Rltb curDif minDif then spacingLoop t rest' curDif maxDif
      else if Rltb maxDif curDif then spacingLoop t rest' minDif curDif
      else spacingLoop t rest' minDif maxDif
  end.

Definition spacing (twoTheta : list R) : R * R :=
  match twoTheta with
  | t0 :: t1 :: rest => spacingLoop t0 (t1 :: rest) (t1 - t0) (t1 - t0)
  | _ => (0, 0)
  end.

(* "Save peaks if data is already processed": the test of that branch *)
Definition alreadyProcessed (twoTheta : list R) : bool :=
  let '(minDif, maxDif) := spacing twoTheta in
  (Rltb (1.1 * minDif) maxDif || Reqb maxDif 0) && (length twoTheta <? 500)%nat.

(* *std::min_element and *std::max_element of a vector that is not empty *)
Definition min_element (first : R) (rest : list R) : R :=
  fold_left (fun m x => if Rltb x m then x else m) rest first.
Definition max_element (first : R) (rest : list R) : R :=
  fold_left (fun m x => if Rltb m x then x else m) rest first.

(* ExperimentalPattern::clear *)
Definition clear (e : ExperimentalPattern) : ExperimentalPattern :=
  {| expBase := {| _type := PT_NONE; _method := _method (expBase e);
                   _wavelength := _wavelength (expBase e);
                   _minTwoTheta := _minTwoTheta (expBase e);
                   _maxTwoTheta := _maxTwoTheta (expBase e);
                   _resolution := _resolution (expBase e);
                   _matchingPeaks := []; _unmatchedPeaks := [];
                   _optimalScale := _optimalScale (expBase e) |};
     _continuousTwoTheta := [];
     _continuousIntensity := [];
     _diffractionPeaks := [] |}.

Definition setTypeAndWindow (type : PatternType) (minTwoTheta maxTwoTheta : R)
    (d : Diffraction) : Diffraction :=
  {| _type := type; _method := _method d; _wavelength := _wavelength d;
     _minTwoTheta := minTwoTheta; _maxTwoTheta := maxTwoTheta;
     _resolution := _resolution d;
     _matchingPeaks := _matchingPeaks d; _unmatchedPeaks := _unmatchedPeaks d;
     _optimalScale := _optimalScale d |}.

Definition setDiffractionPeaks (peaks : list DiffractionPeak) (e : ExperimentalPattern)
    : ExperimentalPattern :=
  {| expBase := expBase e;
     _continuousTwoTheta := _continuousTwoTheta e;
     _continuousIntensity := _continuousIntensity e;
     _diffractionPeaks := peaks |}.

(* Part #5 of getPeakIntensities, over the fitted peaks in the order of the
   loops (groups, then the peaks of a group), each with its [location] and
   integrated [intensity].  The result is _diffractionPeaks and whether
   "throw 10" was reached; the peaks pushed before the throw stay stored. *)
Fixpoint extractPeaks (minTwoTheta maxTwoTheta : R) (fitted : list (R * R))
    (diffractionPeaks : list DiffractionPeak) : list DiffractionPeak * bool :=
  match fitted with
  | [] => (diffractionPeaks, false)
  | (location, intensity) :: rest =>
      if Rltb intensity 0.0 then (diffractionPeaks, true)
      else if Rltb location minTwoTheta || Rltb maxTwoTheta location
      then (diffractionPeaks, true)
      else extractPeaks minTwoTheta maxTwoTheta rest
             (diffractionPeaks ++ [newDiffractionPeak location intensity])
  end.

(* ExperimentalPattern::getMeasurementAngles: quits when no intensity was
   stored as a function of angle *)
Definition getMeasurementAngles (e : ExperimentalPattern) : option (list R) :=
  match _continuousIntensity e with
  | [] => None
  | _ => Some (_continuousTwoTheta e)
  end.

(* ExperimentalPattern::getMeasuredIntensities: _continuousIntensity[i] for
   every i below _continuousTwoTheta.size() *)
Definition getMeasuredIntensities (e : ExperimentalPattern) : option (list R) :=
  match _continuousIntensity e with
  | [] => None
  | _ => mapM (nth_error (_continuousIntensity e)) (seq 0 (length (_continuousTwoTheta e)))
  end.

(* a fitted peak that Part #5 rejects: negative integrated intensity, or
   maximum outside the measured range *)
Definition rejected (minTwoTheta maxTwoTheta : R) (fit : R * R) : Prop :=
  snd fit < 0 \/ fst fit < minTwoTheta \/ maxTwoTheta < fst fit.

(* the ends of the measured range of a raw pattern *)
Definition lowestAngle (twoTheta : list R) : R :=
  match twoTheta with
  | [] => 0
  | t0 :: rest => min_element t0 rest
  end.
Definition highestAngle (twoTheta : list R) : R :=
  match twoTheta with
  | [] => 0
  | t0 :: rest => max_element t0 rest
  end.

Section Externals.

(** [fitLocated rawTwoTheta rawIntensity firstDerivative secondDerivative]:
    the raw branch from the smoothed derivatives on, that is the search for
    the peak positions and Parts 2 and 3 of locatePeaks, then Parts #0 to #4
    of getPeakIntensities through [Fit::LM], [Solve::maximize] and
    [dlib::integrate_function_adapt_simp], which the sources do not hold.
    It gives the location and the integrated intensity of every fitted
    pseudo-Voigt, in the order Part #5 visits them, and [None] where that
    part of the run has no result, as when a vector is read outside its
    bounds (peakPosition[0] when no peak was located). *)
Variable fitLocated : list R -> list R -> list R -> list R -> option (list (R * R)).

(* The raw branch of set from "Prepare data for peak fitting" to the fitted
   peaks, on the copies of the sorted data: smoothData with its default
   arguments, removeBackground, the two smoothed derivatives with which
   locatePeaks begins, then [fitLocated] *)
Definition fitPeaks (twoThetaCopy intensityCopy : list R) : option (list (R * R)) :=
  intensityCopy <- Processing.smoothData twoThetaCopy intensityCopy 2 0.25 ;;
  intensityCopy <- Baseline.removeBackground twoThetaCopy intensityCopy ;;
  (* locatePeaks(peakTwoTheta, peakIntensity, twoThetaCopy, intensityCopy) *)
  firstDerivative <- Processing.getFirstDerivative twoThetaCopy intensityCopy ;;
  firstDerivative <- Processing.smoothData twoThetaCopy firstDerivative 3 1.0 ;;
  secondDerivative <- Processing.getSecondDerivative twoThetaCopy intensityCopy ;;
  secondDerivative <- Processing.smoothData twoThetaCopy secondDerivative 3 1.0 ;;
  fitLocated twoThetaCopy intensityCopy firstDerivative secondDerivative.

(* ExperimentalPattern::getPeakIntensities, on the fitted peaks *)
Definition getPeakIntensities (e : ExperimentalPattern) (fitted : list (R * R))
    : ExperimentalPattern * bool :=
  let e := setDiffractionPeaks [] e in
  let '(peaks, thrown) :=
    extractPeaks (_minTwoTheta (expBase e)) (_maxTwoTheta (expBase e)) fitted
                 (_diffractionPeaks e) in
  (setDiffractionPeaks peaks e, thrown).

(* the branch "Save peaks after processing" of set *)
Definition setRaw (e : ExperimentalPattern) (twoTheta intensity : list R)
    : option ExperimentalPattern :=
  match twoTheta with
  | [] => None
  | t0 :: rest =>
      let e :=
        {| expBase := setTypeAndWindow PT_EXP_RAW (min_element t0 rest) (max_element t0 rest)
                        (expBase e);
           _continuousTwoTheta := twoTheta;
           _continuousIntensity := firstn (length twoTheta) intensity;
           _diffractionPeaks := _diffractionPeaks e |} in
      fitted <- fitPeaks twoTheta intensity ;;
      let '(e, thrown) := getPeakIntensities e fitted in
      (* try { ... } catch (int e) { _diffractionPeaks.clear(); } *)
      Some (if thrown then setDiffractionPeaks [] e else e)
  end.

(* the branch "Save peaks if data is already processed" of set *)
Definition setProcessed (e : ExperimentalPattern) (twoTheta intensity : list R)
    : option ExperimentalPattern :=
  let peaks := sortBy peakLt (map (fun ti => newDiffractionPeak (fst ti) (snd ti))
                                  (combine twoTheta intensity)) in
  match peaks with
  | [] => None
  | first :: _ =>
      let resolution := _resolution (expBase e) in
      Some {| expBase := setTypeAndWindow PT_EXP_INT
                           (getAngle first - resolution)
                           (getAngle (last peaks first) + resolution / 2)
                           (expBase e);
              _continuousTwoTheta := _continuousTwoTheta e;
              _continuousIntensity := _continuousIntensity e;
              _diffractionPeaks := peaks |}
  end.

(* ExperimentalPattern::set(vector<double>& twoTheta, vector<double>& intensity).
   intensity[i] is read for every i below twoTheta.size(): [None] when the
   intensities are fewer than the angles. *)
Definition set (e : ExperimentalPattern) (twoTheta intensity : list R)
    : option ExperimentalPattern :=
  if (length intensity <? length twoTheta)%nat then None
  else
    let e := clear e in
    let twoThetaIntensityPairs := sortBy pairLt (combine twoTheta intensity) in
    let sortedIntensity := map snd twoThetaIntensityPairs in
    (* intensity[i] = twoThetaIntensityPairs[i].second below twoTheta.size();
       what lies beyond stays *)
    let intensity := sortedIntensity ++ skipn (length twoTheta) intensity in
    let twoTheta := map fst twoThetaIntensityPairs in
    if alreadyProcessed twoTheta
    then setProcessed e twoTheta intensity
    else setRaw e twoTheta intensity.

End Externals.

End Experimental.


(** ** Inputs used in the examples below *)

Module Examples.

(* a cubic cell with unit edges: every matrix of the basis is the identity *)
Definition unitBasis : Basis.t :=
  Basis.mk identity identity identity identity.

(* the reflection (1 0 0) of [unitBasis] at the given wavelength *)
Definition peak100 (wavelength : R) : CalculatedPeak :=
  Peak.newCalculatedPeak DM_XRAY unitBasis wavelength (vec3 1 0 0) [vec3 1 0 0].

(* one atom of full occupancy at the origin, with no symmetry but the identity *)
Definition oneAtom : Symmetry :=
  mkSymmetry [mkOperation identity [vec3 0 0 0]]
             [mkOrbit [mkAtom (vec3 0 0 0) 1]].

(* form-factor coefficients of a scatterer with f(s) = 1 *)
Definition unitScatterer : list R := [0; 0; 0; 0; 0; 0; 0; 0; 1].

(* Diffraction::Diffraction() *)
Definition newDiffraction : Diffraction :=
  {| _type := PT_NONE; _method := DM_NONE; _wavelength := 1.5418;
     _minTwoTheta := 10; _maxTwoTheta := 100; _resolution := 0.02;
     _matchingPeaks := []; _unmatchedPeaks := []; _optimalScale := 1.0 |}.

(* a pattern with two peaks of intensity 1, at 10 and at 20 degrees *)
Definition twoPeaks : list DiffractionPeak :=
  [newDiffractionPeak 10 1; newDiffractionPeak 20 1].

(* a reflection stored with the given angle (degrees) and intensity 1 *)
Definition reflectionAt (twoThetaDegrees : R) : CalculatedPeak :=
  {| base := newDiffractionPeak twoThetaDegrees 1;
     method := DM_XRAY; wavelength := 1.5418;
     hkl := vec3 1 0 0; equivHKL := [vec3 1 0 0]; recipLatVecs := [vec3 1 0 0];
     lpFactor := 1; multiplicity := 1 |}.

(* CalculatedPattern::CalculatedPattern(), holding the given reflections *)
Definition calculatedPattern (reflections : list CalculatedPeak) : CalculatedPattern :=
  {| calcBase := newDiffraction; _reflections := reflections;
     _maxLatChange := 0.05; _BFactors := []; _atfParams := [];
     _useChebyshev := true; _numBackground := 5; _backgroundPolyStart := (-1)%Z;
     _backgroundParameters := []; _shiftParameters := [0; 0; 0; 0; 0; 0];
     U := 0.0; V := 0.0; W := 0.3; _eta0 := 0.5; _eta1 := 0.0; _eta2 := 0.0;
     _preferredOrientation := vec3 1 0 0; _currentlyRefining := [] |}.

(* the members left by matchPeaksToReference when each of the two
   calculated peaks matched its own reference peak *)
Definition bothMatched : Diffraction := setMatching [[0]; [1]]%nat [] newDiffraction.

(* the members left by matchPeaksToReference for one calculated peak, at 50
   degrees, and one reference peak, at 10 degrees: nothing matched *)
Definition noneMatched : Diffraction := setMatching [[]] [0]%nat newDiffraction.

(* an engine state before refinement: no reflections, no call made *)
Definition idleEngine : Refinement.Engine :=
  Refinement.mkEngine (calculatedPattern []) unitBasis oneAtom [].

(* an experimental pattern on which nothing was set *)
Definition emptyPattern : ExperimentalPattern :=
  mkExperimentalPattern newDiffraction [] [] [].

(* a pattern whose width parameters give a negative Caglioti term at every
   angle: U = V = 0 and W = -1 *)
Definition negativeWidth (reflections : list CalculatedPeak) : CalculatedPattern :=
  Refinement.setW (-1) (calculatedPattern reflections).

(* instances of the services of num.h: the ceiling and the nearest integer *)
Definition ceiling (x : R) : R := - IZR (Int_part (- x)).
Definition nearest (x : R) : R := IZR (Int_part (x + / 2)).

(* one atom and, besides the identity's zero translation, a translation by
   half a cell edge along a: the reflection (1 0 0) is a systematic absence *)
Definition halvedCell : Symmetry :=
  mkSymmetry [mkOperation identity [vec3 (1 / 2) 0 0]]
             [mkOrbit [mkAtom (vec3 0 0 0) 1]].

(* a pattern at wavelength 2 over the window from 10 to 180 degrees *)
Definition wideWindow : Diffraction :=
  {| _type := PT_CALCULATED; _method := DM_XRAY; _wavelength := 2;
     _minTwoTheta := 10; _maxTwoTheta := 180; _resolution := 0.02;
     _matchingPeaks := []; _unmatchedPeaks := []; _optimalScale := 1.0 |}.

End Examples.


(** ** The formulas of the specification, for comparison with the code *)

Module Spec.

(* exp(-B (sin theta / lambda)^2), set to 1 when the method is SIMPLE *)
Definition thermalAttenuation (method : Method) (B angle wavelength : R) : R :=
  match method with
  | DM_SIMPLE => 1
  | _ => exp (- B * (sin angle / wavelength) ^ 2)
  end.

(* the sum over the orbits, from orbit number [i] on, and their atom images of
   f(s) exp(-B (sin theta / lambda)^2) occ exp(i 2 pi hkl.r), as (real, imag) *)
Fixpoint structureFactor (method : Method) (wavelength angle : R) (hkl : Vector3D)
    (BFactors : list R) (atfParams : list (list R))
    (i : nat) (orbs : list Orbit) (acc : R * R) : R * R :=
  match orbs with
  | [] => acc
  | o :: rest =>
      let f := Peak.atomicScatteringFactor (nth i atfParams []) angle wavelength in
      let t := thermalAttenuation method (nth i BFactors 0) angle wavelength in
      structureFactor method wavelength angle hkl BFactors atfParams (S i) rest
        (fold_left (Peak.addAtom hkl f t) (atoms o) acc)
  end.

(* I = |F|^2 LP multiplicity T_hkl *)
Definition integratedIntensity (symmetry : Symmetry) (BFactors : list R)
    (atfParams : list (list R)) (preferredOrientation : Vector3D)
    (texturingStrength : R) (p : CalculatedPeak) : R :=
  let '(real, imag) :=
    structureFactor (method p) (wavelength p) (twoThetaRad (base p) / 2) (hkl p)
      BFactors atfParams 0 (orbits symmetry) (0, 0) in
  (real * real + imag * imag) * lpFactor p * multiplicity p
  * Peak.getTexturingFactor preferredOrientation texturingStrength (recipLatVecs p).

End Spec.


(* the matching the specification describes: each calculated peak goes to
   the reference peak that minimizes |delta 2theta| over all reference peaks
   (the first one, on ties), or to the unmatched list when that distance
   exceeds 0.15 degrees.  The state is (_matchingPeaks, _unmatchedPeaks). *)
Module SpecMatching.

Definition nearest (angle : R) (referencePeaks : list DiffractionPeak) : option (nat * R) :=
  match referencePeaks with
  | [] => None
  | r :: rest =>
      Some (Matching.nearestLoop angle 1 rest 0 (Rabs (angle - getAngle r)))
  end.

Fixpoint matchFrom (referencePeaks : list DiffractionPeak) (thisPeak : nat)
    (toVisit : list DiffractionPeak) (matching : list (list nat)) (unmatched : list nat)
    : option (list (list nat) * list nat) :=
  match toVisit with
  | [] => Some (matching, unmatched)
  | p :: rest =>
      '(nearIndex, nearDif) <- nearest (getAngle p) referencePeaks ;;
      if Rltb Matching.tol nearDif
      then matchFrom referencePeaks (S thisPeak) rest matching (unmatched ++ [thisPeak])
      else matchFrom referencePeaks (S thisPeak) rest
             (Matching.pushAt nearIndex thisPeak matching) unmatched
  end.

Definition matchPeaks (referencePeaks thisPeaks : list DiffractionPeak)
    : option (list (list nat) * list nat) :=
  matchFrom referencePeaks 0 thisPeaks (map (fun _ => @nil nat) referencePeaks) [].

End SpecMatching.


(** ** Changes of the structure used to state invariances *)

Module Transform.

Definition addV (a b : Vector3D) : Vector3D :=
  vec3 (vx a + vx b) (vy a + vy b) (vz a + vz b).

Definition negV (a : Vector3D) : Vector3D := vec3 (- vx a) (- vy a) (- vz a).

(* every atom moved by the same vector [t] (fractional coordinates) *)
Definition shiftAtom (t : Vector3D) (a : Atom) : Atom :=
  mkAtom (addV (fractional a) t) (occupancy a).

Definition shiftOrbit (t : Vector3D) (o : Orbit) : Orbit :=
  mkOrbit (map (shiftAtom t) (atoms o)).

Definition shiftSymmetry (t : Vector3D) (s : Symmetry) : Symmetry :=
  mkSymmetry (operations s) (map (shiftOrbit t) (orbits s)).

End Transform.


(** ** Interpolation in a raw pattern ([ExperimentalPattern::getDiffractedIntensity]) *)

Module Measured.

(* while (_continuousTwoTheta[cpos + 1] < angle) cpos++;
   [ahead] holds the entries of _continuousTwoTheta from index cpos + 1 on,
   and the read past the last one gives [None] *)
Fixpoint seek (angle : R) (cpos : nat) (ahead : list R) : option nat :=
  match ahead with
  | [] => None
  | t :: ahead' => if Rltb t angle then seek angle (S cpos) ahead' else Some cpos
  end.

(* the loop over the angles; cpos is kept from one angle to the next *)
Fixpoint interpolate (continuousTwoTheta continuousIntensity : list R) (cpos : nat)
    (twoTheta : list R) : option (list R) :=
  match twoTheta with
  | [] => Some []
  | angle :: rest =>
      cpos <- seek angle cpos (skipn (S cpos) continuousTwoTheta) ;;
      i0 <- nth_error continuousIntensity cpos ;;
      i1 <- nth_error continuousIntensity (S cpos) ;;
      t1 <- nth_error continuousTwoTheta (S cpos) ;;
      t0 <- nth_error continuousTwoTheta cpos ;;
      let intensity := i0 + (i1 - i0) / (t1 - t0) * (angle - t0) in
      output <- interpolate continuousTwoTheta continuousIntensity cpos rest ;;
      Some (intensity :: output)
  end.

(* ExperimentalPattern::getDiffractedIntensity: the angles are sorted in
   place first, and the intensities are returned in that order *)
Definition getDiffractedIntensity (e : ExperimentalPattern) (twoTheta : list R)
    : option (list R) :=
  let twoTheta := sortBy Rltb twoTheta in
  first <- nth_error twoTheta 0 ;;
  lowest <- nth_error (_continuousTwoTheta e) 0 ;;
  if Rltb first lowest then None
  else
    highest <- nth_error (_continuousTwoTheta e) (length (_continuousTwoTheta e) - 1) ;;
    if Rltb highest (last twoTheta 0) then None
    else interpolate (_continuousTwoTheta e) (_continuousIntensity e) 0 twoTheta.

End Measured.


(** ** Closed forms of the background, to compare the loops with *)

Module Series.

(* c_k cos (k theta) + c_(k+1) cos ((k + 1) theta) + ... *)
Fixpoint cosineSeries (theta : R) (k : nat) (params : list R) : R :=
  match params with
  | [] => 0
  | c :: rest => c * cos (INR k * theta) + cosineSeries theta (S k) rest
  end.

(* c_0 + c_1 t + c_2 t^2 + ... *)
Fixpoint polynomial (t : R) (params : list R) : R :=
  match params with
  | [] => 0
  | c :: rest => c + t * polynomial t rest
  end.

End Series.


(** ** More patterns to state examples on *)

Module Samples.

(* the default pattern with the Chebyshev background 1 + 2 T_1 + 3 T_2 *)
Definition chebyshevBackground : CalculatedPattern :=
  Refinement.setBackgroundParameters [1; 2; 3] (Examples.calculatedPattern []).

(* the same parameters read as the polynomial 1 / t + 2 + 3 t *)
Definition polynomialBackground : CalculatedPattern :=
  let p := chebyshevBackground in
  {| calcBase := calcBase p; _reflections := _reflections p; _maxLatChange := _maxLatChange p;
     _BFactors := _BFactors p; _atfParams := _atfParams p;
     _useChebyshev := false; _numBackground := _numBackground p;
     _backgroundPolyStart := _backgroundPolyStart p;
     _backgroundParameters := _backgroundParameters p;
     _shiftParameters := _shiftParameters p;
     U := U p; V := V p; W := W p;
     _eta0 := _eta0 p; _eta1 := _eta1 p; _eta2 := _eta2 p;
     _preferredOrientation := _preferredOrientation p;
     _currentlyRefining := _currentlyRefining p |}.

(* a reflection stored with the given angle (degrees) and intensity 0 *)
Definition extinctAt (twoThetaDegrees : R) : CalculatedPeak :=
  {| base := newDiffractionPeak twoThetaDegrees 0;
     method := DM_XRAY; wavelength := 1.5418;
     hkl := vec3 1 0 0; equivHKL := [vec3 1 0 0]; recipLatVecs := [vec3 1 0 0];
     lpFactor := 1; multiplicity := 1 |}.

End Samples.


(** ** The vector of refined parameters
       ([getRefinementParameters], its two boundaries, [setAccordingToParameters]) *)

Module Packing.

Import Refinement.

(* members of CalculatedPattern that only the boundaries read *)
Record Limits : Type := mkLimits {
  _minBFactor : R;
  _maxBFactor : R;
  _originalLengths : Vector3D;
  _originalAngles : Vector3D
}.

(* data[0], data[1], data[2] of a Vector3D *)
Definition components (v : Vector3D) : list R := [vx v; vy v; vz v].

(* what is pushed under  if (willRefine(kind, _currentlyRefining)) *)
Definition block (kind : RefinementParameters) (p : CalculatedPattern)
    (values : option (list R)) : option (list R) :=
  if willRefine kind (_currentlyRefining p) then values else Some [].

Definition boundary (kind : RefinementParameters) (p : CalculatedPattern)
    (values : list R) : list R :=
  if willRefine kind (_currentlyRefining p) then values else [].

(* the fractional coordinates of atoms()[0] of every orbit *)
Definition firstPositions (s : Symmetry) : option (list R) :=
  positions <- mapM (fun o => a <- nth_error (atoms o) 0 ;;
                              Some (components (fractional a)))
                    (orbits s) ;;
  Some (concat positions).

Definition setShiftParameters (l : list R) (p : CalculatedPattern) : CalculatedPattern :=
  {| calcBase := calcBase p; _reflections := _reflections p; _maxLatChange := _maxLatChange p;
     _BFactors := _BFactors p; _atfParams := _atfParams p;
     _useChebyshev := _useChebyshev p; _numBackground := _numBackground p;
     _backgroundPolyStart := _backgroundPolyStart p;
     _backgroundParameters := _backgroundParameters p;
     _shiftParameters := l;
     U := U p; V := V p; W := W p;
     _eta0 := _eta0 p; _eta1 := _eta1 p; _eta2 := _eta2 p;
     _preferredOrientation := _preferredOrientation p;
     _currentlyRefining := _currentlyRefining p |}.

(* U, V, W, _eta0, _eta1, _eta2 *)
Definition setShape (u v w eta0 eta1 eta2 : R) (p : CalculatedPattern) : CalculatedPattern :=
  {| calcBase := calcBase p; _reflections := _reflections p; _maxLatChange := _maxLatChange p;
     _BFactors := _BFactors p; _atfParams := _atfParams p;
     _useChebyshev := _useChebyshev p; _numBackground := _numBackground p;
     _backgroundPolyStart := _backgroundPolyStart p;
     _backgroundParameters := _backgroundParameters p;
     _shiftParameters := _shiftParameters p;
     U := u; V := v; W := w;
     _eta0 := eta0; _eta1 := eta1; _eta2 := eta2;
     _preferredOrientation := _preferredOrientation p;
     _currentlyRefining := _currentlyRefining p |}.

Definition setBFactors (l : list R) (p : CalculatedPattern) : CalculatedPattern :=
  {| calcBase := calcBase p; _reflections := _reflections p; _maxLatChange := _maxLatChange p;
     _BFactors := l; _atfParams := _atfParams p;
     _useChebyshev := _useChebyshev p; _numBackground := _numBackground p;
     _backgroundPolyStart := _backgroundPolyStart p;
     _backgroundParameters := _backgroundParameters p;
     _shiftParameters := _shiftParameters p;
     U := U p; V := V p; W := W p;
     _eta0 := _eta0 p; _eta1 := _eta1 p; _eta2 := _eta2 p;
     _preferredOrientation := _preferredOrientation p;
     _currentlyRefining := _currentlyRefining p |}.

Definition setPreferredOrientation (v : Vector3D) (p : CalculatedPattern) : CalculatedPattern :=
  {| calcBase := calcBase p; _reflections := _reflections p; _maxLatChange := _maxLatChange p;
     _BFactors := _BFactors p; _atfParams := _atfParams p;
     _useChebyshev := _useChebyshev p; _numBackground := _numBackground p;
     _backgroundPolyStart := _backgroundPolyStart p;
     _backgroundParameters := _backgroundParameters p;
     _shiftParameters := _shiftParameters p;
     U := U p; V := V p; W := W p;
     _eta0 := _eta0 p; _eta1 := _eta1 p; _eta2 := _eta2 p;
     _preferredOrientation := v;
     _currentlyRefining := _currentlyRefining p |}.

(* params(position++), n times: the values read and what follows them;
   [None] when the vector ends before *)
Definition take (n : nat) (params : list R) : option (list R * list R) :=
  if (length params <? n)%nat then None else Some (firstn n params, skipn n params).

(* if (willRefine(kind, _currentlyRefining)) { n reads, stored by write } *)
Definition store (kind : RefinementParameters) (n : Engine -> nat)
    (write : list R -> Engine -> Engine) (st : Engine * list R)
    : option (Engine * list R) :=
  let '(e, params) := st in
  if willRefine kind (refiningOf e) then
    '(values, rest) <- take (n e) params ;;
    Some (write values e, rest)
  else Some st.

Section Externals.

(** [_U], pushed for RF_UVFACTORS, is not a member of the class (the member
    is [U]) and is declared nowhere in the sources: its value is a parameter.
    [lengths] and [angles] stand for [Basis::lengths()] and
    [Basis::angles()] of the structure, [setBasis] for
    [CalculatedPattern::setBasis] ([Basis::vectors], [Symmetry::refineBasis],
    [ISO::basis]) and [setPositions] for [symPositions] followed by
    [setPositions] ([ISO::moveIntoCell], the generators and special positions
    of an orbit): none of these is in the sources. *)
Variable _U : R.
Variable lengths angles : Basis.t -> Vector3D.
Variable setBasis : list R -> Engine -> Engine.
Variable setPositions : list R -> Engine -> Engine.

(* CalculatedPattern::getRefinementParameters *)
Definition getRefinementParameters (e : Engine) : option (list R) :=
  let p := pattern e in
  scale <- block RF_SCALE p (Some [_optimalScale (calcBase p)]) ;;
  specdisp <- block RF_SPECDISP p (Some [nth 4 (_shiftParameters p) 0]) ;;
  background <- block RF_BACKGROUND p (Some (_backgroundParameters p)) ;;
  lattice <- block RF_BASIS p
               (Some (components (lengths (basis e)) ++ components (angles (basis e)))) ;;
  uv <- block RF_UVFACTORS p (Some [_U; V p; _eta1 p; _eta2 p]) ;;
  w <- block RF_WFACTOR p (Some [W p; _eta0 p]) ;;
  positions <- block RF_POSITIONS p (firstPositions (symmetry e)) ;;
  bfactors <- block RF_BFACTORS p (Some (_BFactors p)) ;;
  texture <- block RF_TEXTURE p (Some (components (_preferredOrientation p))) ;;
  zeroshift <- block RF_ZEROSHIFT p (Some [nth 5 (_shiftParameters p) 0]) ;;
  Some (scale ++ specdisp ++ background ++ lattice ++ uv ++ w ++ positions
        ++ bfactors ++ texture ++ zeroshift).

(* the two boundaries differ in the numbers pushed only *)
Definition boundaries (scale specdisp background latticeFactor shape wFactor eta0
                       position bFactor texture zeroshift : R)
    (lim : Limits) (e : Engine) : list R :=
  let p := pattern e in
  boundary RF_SCALE p [scale]
  ++ boundary RF_SPECDISP p [specdisp]
  ++ boundary RF_BACKGROUND p (map (fun _ => background) (_backgroundParameters p))
  ++ boundary RF_BASIS p
       (map (fun x => x * latticeFactor)
            (components (_originalLengths lim) ++ components (_originalAngles lim)))
  ++ boundary RF_UVFACTORS p [shape; shape; shape; shape]
  ++ boundary RF_WFACTOR p [wFactor; eta0]
  ++ boundary RF_POSITIONS p (repeat position (length (orbits (symmetry e)) * 3))
  ++ boundary RF_BFACTORS p (map (fun _ => bFactor) (_BFactors p))
  ++ boundary RF_TEXTURE p [texture; texture; texture]
  ++ boundary RF_ZEROSHIFT p [zeroshift].

(* CalculatedPattern::getRefinementParameterLowerBoundary *)
Definition getRefinementParameterLowerBoundary (lim : Limits) (e : Engine) : list R :=
  boundaries 0 (-0.1) (-1e100) (1 - _maxLatChange (pattern e)) (-1e100) 0 0 (-1)
             (_minBFactor lim) (-10) (-0.1) lim e.

(* CalculatedPattern::getRefinementParameterUpperBoundary *)
Definition getRefinementParameterUpperBoundary (lim : Limits) (e : Engine) : list R :=
  boundaries 1e100 0.1 1e100 (1 + _maxLatChange (pattern e)) 1e100 20 1 2
             (_maxBFactor lim) 10 0.1 lim e.

(* CalculatedPattern::setAccordingToParameters *)
Definition setAccordingToParameters (params : list R) (e : Engine) : option Engine :=
  let value i values := nth i values 0 in
  st <- store RF_SCALE (fun _ => 1%nat)
          (fun v => onPattern (fun p =>
             setCalcBase (setOptimalScale (value 0%nat v) (calcBase p)) p))
          (e, params) ;;
  st <- store RF_SPECDISP (fun _ => 1%nat)
          (fun v => onPattern (fun p =>
             setShiftParameters (Processing.assign 4 (value 0%nat v) (_shiftParameters p)) p))
          st ;;
  st <- store RF_BACKGROUND (fun e => length (_backgroundParameters (pattern e)))
          (fun v => onPattern (setBackgroundParameters v)) st ;;
  st <- store RF_BASIS (fun _ => 6%nat) setBasis st ;;
  st <- store RF_UVFACTORS (fun _ => 4%nat)
          (fun v => onPattern (fun p =>
             setShape (value 0%nat v) (value 1%nat v) (W p) (_eta0 p)
                      (value 2%nat v) (value 3%nat v) p))
          st ;;
  st <- store RF_WFACTOR (fun _ => 2%nat)
          (fun v => onPattern (fun p =>
             setShape (U p) (V p) (value 0%nat v) (value 1%nat v) (_eta1 p) (_eta2 p) p))
          st ;;
  st <- store RF_POSITIONS (fun e => (length (orbits (symmetry e)) * 3)%nat)
          setPositions st ;;
  st <- store RF_BFACTORS (fun e => length (_BFactors (pattern e)))
          (fun v => onPattern (setBFactors v)) st ;;
  st <- store RF_TEXTURE (fun _ => 3%nat)
          (fun v => onPattern (setPreferredOrientation
                                 (vec3 (value 0%nat v) (value 1%nat v) (value 2%nat v))))
          st ;;
  st <- store RF_ZEROSHIFT (fun _ => 1%nat)
          (fun v => onPattern (fun p =>
             setShiftParameters (Processing.assign 5 (value 0%nat v) (_shiftParameters p)) p))
          st ;;
  Some (fst st).

End Externals.

End Packing.


(** ** Engines to state examples on *)

Module Engines.

(* an engine that refines the scale and the six profile parameters *)
Definition profileEngine : Refinement.Engine :=
  Refinement.onPattern
    (Refinement.setCurrentlyRefining [RF_SCALE; RF_UVFACTORS; RF_WFACTOR])
    Examples.idleEngine.

(* the default limits of the B factors, with the cell of [Examples.unitBasis] *)
Definition unitLimits : Packing.Limits :=
  Packing.mkLimits 0.1 4.0 (vec3 1 1 1) (vec3 90 90 90).

End Engines.


(** ** Atomic form factors ([CalculatedPattern::setATFParams]) *)

Module FormFactors.

(* the branch of setATFParams taken for an atomic number: the values stored,
   [a1; a2; a3; a4; b1; b2; b3; b4; c]; the last branch quits *)
Definition atfParamsOf (number : nat) : option (list R) :=
  match number with
  | 1 => Some [0.489918; 0.262003; 0.196767; 0.049879; 20.659300; 7.740390; 49.551899; 2.201590; 0.001305]
  | 2 => Some [0.873400; 0.630900; 0.311200; 0.178000; 9.103700; 3.356800; 22.927601; 0.982100; 0.006400]
  | 3 => Some [1.128200; 0.750800; 0.617500; 0.465300; 3.954600; 1.052400; 85.390503; 168.261002; 0.037700]
  | 4 => Some [1.591900; 1.127800; 0.539100; 0.702900; 43.642700; 1.862300; 103.483002; 0.542000; 0.038500]
  | 5 => Some [2.054500; 1.332600; 1.097900; 0.706800; 23.218500; 1.021000; 60.349800; 0.140300; (-0.193200)]
  | 6 => Some [2.310000; 1.020000; 1.588600; 0.865000; 20.843901; 10.207500; 0.568700; 51.651199; 0.215600]
  | 7 => Some [12.212600; 3.132200; 2.012500; 1.166300; 0.005700; 9.893300; 28.997499; 0.582600; (-11.529000)]
  | 8 => Some [3.048500; 2.286800; 1.546300; 0.867000; 13.277100; 5.701100; 0.323900; 32.908901; 0.250800]
  | 9 => Some [3.539200; 2.641200; 1.517000; 1.024300; 10.282500; 4.294400; 0.261500; 26.147600; 0.277600]
  | 10 => Some [3.955300; 3.112500; 1.454600; 1.125100; 8.404200; 3.426200; 0.230600; 21.718399; 0.351500]
  | 11 => Some [4.762600; 3.173600; 1.267400; 1.112800; 3.285000; 8.842200; 0.313600; 129.423996; 0.676000]
  | 12 => Some [5.420400; 2.173500; 1.226900; 2.307300; 2.827500; 79.261101; 0.380800; 7.193700; 0.858400]
  | 13 => Some [6.420200; 1.900200; 1.593600; 1.964600; 3.038700; 0.742600; 31.547199; 85.088600; 1.115100]
  | 14 => Some [6.291500; 3.035300; 1.989100; 1.541000; 2.438600; 32.333698; 0.678500; 81.693703; 1.140700]
  | 15 => Some [6.434500; 4.179100; 1.780000; 1.490800; 1.906700; 27.157000; 0.526000; 68.164497; 1.114900]
  | 16 => Some [6.905300; 5.203400; 1.437900; 1.586300; 1.467900; 22.215099; 0.253600; 56.172001; 0.866900]
  | 17 => Some [11.460400; 7.196400; 6.255600; 1.645500; 0.010400; 1.166200; 18.519400; 47.778400; (-9.557400)]
  | 18 => Some [7.484500; 6.772300; 0.653900; 1.644200; 0.907200; 14.840700; 43.898300; 33.392899; 1.444500]
  | 19 => Some [8.218600; 7.439800; 1.051900; 0.865900; 12.794900; 0.774800; 213.186996; 41.684101; 1.422800]
  | 20 => Some [8.626600; 7.387300; 1.589900; 1.021100; 10.442100; 0.659900; 85.748398; 178.436996; 1.375100]
  | 21 => Some [9.189000; 7.367900; 1.640900; 1.468000; 9.021300; 0.572900; 136.108002; 51.353100; 1.332900]
  | 22 => Some [9.759500; 7.355800; 1.699100; 1.902100; 7.850800; 0.500000; 35.633801; 116.105003; 1.280700]
  | 23 => Some [10.297100; 7.351100; 2.070300; 2.057100; 6.865700; 0.438500; 26.893801; 102.477997; 1.219900]
  | 24 => Some [10.640600; 7.353700; 3.324000; 1.492200; 6.103800; 0.392000; 20.262600; 98.739899; 1.183200]
  | 25 => Some [11.281900; 7.357300; 3.019300; 2.244100; 5.340900; 0.343200; 17.867399; 83.754303; 1.089600]
  | 26 => Some [11.769500; 7.357300; 3.522200; 2.304500; 4.761100; 0.307200; 15.353500; 76.880501; 1.036900]
  | 27 => Some [12.284100; 7.340900; 4.003400; 2.348800; 4.279100; 0.278400; 13.535900; 71.169197; 1.011800]
  | 28 => Some [12.837600; 7.292000; 4.443800; 2.380000; 3.878500; 0.256500; 12.176300; 66.342102; 1.034100]
  | 29 => Some [13.338000; 7.167600; 5.615800; 1.673500; 3.582800; 0.247000; 11.396600; 64.812599; 1.191000]
  | 30 => Some [14.074300; 7.031800; 5.165200; 2.410000; 3.265500; 0.233300; 10.316300; 58.709702; 1.304100]
  | 31 => Some [15.235400; 6.700600; 4.359100; 2.962300; 3.066900; 0.241200; 10.780500; 61.413502; 1.718900]
  | 32 => Some [16.081600; 6.374700; 3.706800; 3.683000; 2.850900; 0.251600; 11.446800; 54.762501; 2.131300]
  | 33 => Some [10.672300; 6.070100; 3.431300; 4.277900; 2.634500; 0.264700; 12.947900; 47.797199; 2.531000]
  | 34 => Some [17.000601; 5.819600; 3.973100; 4.354300; 2.409800; 0.272600; 15.237200; 43.816299; 2.840900]
  | 35 => Some [17.178900; 5.235800; 5.637700; 3.985100; 2.172300; 16.579599; 0.260900; 41.432800; 2.955700]
  | 36 => Some [17.355499; 6.728600; 5.549300; 3.537500; 1.938400; 16.562300; 0.226100; 39.397202; 2.825000]
  | 37 => Some [17.178400; 9.643500; 5.139900; 1.529200; 1.788800; 17.315100; 0.274800; 164.934006; 3.487300]
  | 38 => Some [17.566299; 9.818400; 5.422000; 2.669400; 1.556400; 14.098800; 0.166400; 132.376007; 2.506400]
  | 39 => Some [17.775999; 10.294600; 5.726290; 3.265880; 1.402900; 12.800600; 0.125599; 104.353996; 1.912130]
  | 40 => Some [17.876499; 10.948000; 5.417320; 3.657210; 1.276180; 11.916000; 0.117622; 87.662697; 2.069290]
  | 41 => Some [17.614201; 12.014400; 4.041830; 3.533460; 1.188650; 11.766000; 0.204785; 69.795700; 3.755910]
  | 42 => Some [3.702500; 17.235600; 12.887600; 3.742900; 0.277200; 1.095800; 11.004000; 61.658401; 4.387500]
  | 43 => Some [19.130100; 11.094800; 4.649010; 2.712630; 0.864132; 8.144870; 21.570700; 86.847198; 5.404280]
  | 44 => Some [19.267401; 12.918200; 4.863370; 1.567560; 0.808520; 8.434670; 24.799700; 94.292801; 5.378740]
  | 45 => Some [19.295700; 14.350100; 4.734250; 1.289180; 0.751536; 8.217580; 25.874901; 98.606201; 5.328000]
  | 46 => Some [19.331900; 15.501700; 5.295370; 0.605844; 0.698655; 7.989290; 25.205200; 76.898598; 5.265930]
  | 47 => Some [19.280800; 16.688499; 4.804500; 1.046300; 0.644600; 7.472600; 24.660500; 99.815598; 5.179000]
  | 48 => Some [19.221399; 17.644400; 4.461000; 1.602900; 0.594600; 6.908900; 24.700800; 87.482498; 5.069400]
  | 49 => Some [19.162399; 18.559601; 4.294800; 2.039600; 0.547600; 6.377600; 25.849899; 92.802902; 4.939100]
  | 50 => Some [19.188900; 19.100500; 4.458500; 2.466300; 5.830300; 0.503100; 26.890900; 83.957100; 4.782100]
  | 51 => Some [19.641800; 19.045500; 5.037100; 2.682700; 5.303400; 0.460700; 27.907400; 75.282501; 4.590900]
  | 52 => Some [19.964399; 19.013800; 6.144870; 2.523900; 4.817420; 0.420885; 28.528400; 70.840302; 4.352000]
  | 53 => Some [20.147200; 18.994900; 7.513800; 2.273500; 4.347000; 0.381400; 27.766001; 66.877602; 4.071200]
  | 54 => Some [20.293301; 19.029800; 8.976700; 1.990000; 3.928200; 0.344000; 26.465900; 64.265800; 3.711800]
  | 55 => Some [20.389200; 19.106199; 10.662000; 1.495300; 3.569000; 0.310700; 24.387899; 213.904007; 3.335200]
  | 56 => Some [20.336100; 19.297001; 10.888000; 2.695900; 3.216000; 0.275600; 20.207300; 167.201996; 2.773100]
  | 57 => Some [20.577999; 19.599001; 11.372700; 3.287190; 2.948170; 0.244475; 18.772600; 133.123993; 2.146780]
  | 58 => Some [21.167101; 19.769501; 11.851300; 3.330490; 2.812190; 0.226836; 17.608299; 127.112999; 1.862640]
  | 59 => Some [22.044001; 19.669701; 12.385600; 2.824280; 2.773930; 0.222087; 16.766899; 143.643997; 2.058300]
  | 60 => Some [22.684500; 19.684700; 12.774000; 2.851370; 2.662480; 0.210628; 15.885000; 137.903000; 1.984860]
  | 61 => Some [23.340500; 19.609501; 13.123500; 2.875160; 2.562700; 0.202088; 15.100900; 132.720993; 2.028760]
  | 62 => Some [24.004200; 19.425800; 13.439600; 2.896040; 2.472740; 0.196451; 14.399600; 128.007004; 2.209630]
  | 63 => Some [24.627399; 19.088600; 13.760300; 2.922700; 2.387900; 0.194200; 13.754600; 123.174004; 2.574500]
  | 64 => Some [25.070900; 19.079800; 13.851800; 3.545450; 2.253410; 0.181951; 12.933100; 101.398003; 2.419600]
  | 65 => Some [25.897600; 18.218500; 14.316700; 2.953540; 2.242560; 0.196143; 12.664800; 115.362000; 3.589240]
  | 66 => Some [26.507000; 17.638300; 14.559600; 2.965770; 2.180200; 0.202172; 12.189900; 111.874001; 4.297280]
  | 67 => Some [26.904900; 17.294001; 14.558300; 3.638370; 2.070510; 0.197940; 11.440700; 92.656601; 4.567960]
  | 68 => Some [27.656300; 16.428499; 14.977900; 2.982330; 2.073560; 0.223545; 11.360400; 105.703003; 5.920460]
  | 69 => Some [28.181900; 15.885100; 15.154200; 2.987060; 2.028590; 0.238849; 10.997500; 102.960999; 6.756210]
  | 70 => Some [28.664101; 15.434500; 15.308700; 2.989630; 1.988900; 0.257119; 10.664700; 100.417000; 7.566720]
  | 71 => Some [28.947599; 15.220800; 15.100000; 3.716010; 1.901820; 9.985190; 0.261033; 84.329803; 7.976280]
  | 72 => Some [29.143999; 15.172600; 14.758600; 4.300130; 1.832620; 9.599900; 0.275116; 72.028999; 8.581540]
  | 73 => Some [29.202400; 15.229300; 14.513500; 4.764920; 1.773330; 9.370460; 0.295977; 63.364399; 9.243540]
  | 74 => Some [29.081800; 15.430000; 14.432700; 5.119820; 1.720290; 9.225900; 0.321703; 57.056000; 9.887500]
  | 75 => Some [28.762100; 15.718900; 14.556400; 5.441740; 1.671910; 9.092270; 0.350500; 52.086102; 10.472000]
  | 76 => Some [28.189400; 16.155001; 14.930500; 5.675890; 1.629030; 8.979480; 0.382661; 48.164700; 11.000500]
  | 77 => Some [27.304899; 16.729601; 15.611500; 5.833770; 1.592790; 8.865530; 0.417916; 45.001099; 11.472200]
  | 78 => Some [27.005899; 17.763901; 15.713100; 5.783700; 1.512930; 8.811740; 0.424593; 38.610298; 11.688300]
  | 79 => Some [16.881901; 18.591299; 25.558201; 5.860000; 0.461100; 8.621600; 1.482600; 36.395599; 12.065800]
  | 80 => Some [20.680901; 19.041700; 21.657499; 5.967600; 0.545000; 8.448400; 1.572900; 38.324600; 12.608900]
  | 81 => Some [27.544600; 19.158400; 15.538000; 5.525930; 0.655150; 8.707510; 1.963470; 45.814899; 13.174600]
  | 82 => Some [31.061701; 13.063700; 18.441999; 5.969600; 0.690200; 2.357600; 8.618000; 47.257900; 13.411800]
  | 83 => Some [33.368900; 12.951000; 16.587700; 6.469200; 0.704000; 2.923800; 8.793700; 48.009300; 13.578200]
  | 84 => Some [34.672600; 15.473300; 13.113800; 7.025800; 0.700999; 3.550780; 9.556420; 47.004501; 13.677000]
  | 85 => Some [35.316299; 19.021099; 9.498870; 7.425180; 0.685870; 3.974580; 11.382400; 45.471500; 13.710800]
  | 86 => Some [35.563099; 21.281601; 8.003700; 7.443300; 0.663100; 4.069100; 14.042200; 44.247299; 13.690500]
  | 87 => Some [35.929901; 23.054701; 12.143900; 2.112530; 0.646453; 4.176190; 23.105200; 150.645004; 13.724700]
  | 88 => Some [35.763000; 22.906401; 12.473900; 3.210970; 0.616341; 3.871350; 19.988701; 142.324997; 13.621100]
  | 89 => Some [35.659698; 23.103201; 12.597700; 4.086550; 0.589092; 3.651550; 18.599001; 117.019997; 13.526600]
  | 90 => Some [35.564499; 23.421900; 12.747300; 4.807030; 0.563359; 3.462040; 17.830900; 99.172203; 13.431400]
  | 91 => Some [35.884701; 23.294800; 14.189100; 4.172870; 0.547751; 3.415190; 16.923500; 105.250999; 13.428700]
  | 92 => Some [36.022800; 23.412800; 14.949100; 4.188000; 0.529300; 3.325300; 16.092699; 100.612999; 13.396600]
  | 93 => Some [36.187401; 23.596399; 15.640200; 4.185500; 0.511929; 3.253960; 15.362200; 97.490799; 13.357300]
  | 94 => Some [36.525398; 23.808300; 16.770700; 3.479470; 0.499384; 3.263710; 14.945500; 105.980003; 13.381200]
  | 95 => Some [36.670601; 24.099199; 17.341499; 3.493310; 0.483629; 3.206470; 14.313600; 102.273003; 13.359200]
  | 96 => Some [36.648800; 24.409599; 17.399000; 4.216650; 0.465154; 3.089970; 13.434600; 88.483398; 13.288700]
  | 97 => Some [36.788101; 24.773600; 17.891899; 4.232840; 0.451018; 3.046190; 12.894600; 86.002998; 13.275400]
  | 98 => Some [36.918499; 25.199499; 18.331699; 4.243910; 0.437533; 3.007750; 12.404400; 83.788101; 13.267400]
  | _ => None
  end.

(* CalculatedPattern::setATFParams: the new value of _atfParams, from the
   atomic number of atoms()[0] of every orbit *)
Definition setATFParams (numbers : list nat) : option (list (list R)) :=
  mapM atfParamsOf numbers.

End FormFactors.


(** ** Combined peaks ([CalculatedPattern::getCombinedPeaks]) *)

Module Combined.

(* the conversion of a double to int: the fraction is dropped *)
Definition truncate (x : R) : Z :=
  if Rltb x 0 then (- Int_part (- x))%Z else Int_part x.

(* tempIntensity.back() += x *)
Fixpoint addToBack (x : R) (l : list R) : list R :=
  match l with
  | [] => []
  | [a] => [a + x]
  | a :: rest => a :: addToBack x rest
  end.

(* the loop of the branch taken when peaks were matched; the state is
   (tempTwoTheta, tempIntensity).  lastPatternIndex is not assigned in it. *)
Fixpoint combineMatched (lastPatternIndex : Z) (reflections : list CalculatedPeak)
    (tempTwoTheta tempIntensity : list R) : list R * list R :=
  match reflections with
  | [] => (tempTwoTheta, tempIntensity)
  | r :: rest =>
      if (patternIndex (base r) =? -1)%Z
         || negb (patternIndex (base r) =? lastPatternIndex)%Z
      then combineMatched lastPatternIndex rest
             (tempTwoTheta ++ [getAngle (base r)])
             (tempIntensity ++ [getIntensity (base r)])
      else combineMatched lastPatternIndex rest tempTwoTheta
             (addToBack (getIntensity (base r)) tempIntensity)
  end.

(* the loop of the other branch; lastAngle is an int *)
Fixpoint combineNear (lastAngle : Z) (reflections : list CalculatedPeak)
    (tempTwoTheta tempIntensity : list R) : list R * list R :=
  match reflections with
  | [] => (tempTwoTheta, tempIntensity)
  | r :: rest =>
      if Rltb 0.15 (getAngle (base r) - IZR lastAngle)
      then combineNear (truncate (getAngle (base r))) rest
             (tempTwoTheta ++ [getAngle (base r)])
             (tempIntensity ++ [getIntensity (base r)])
      else combineNear lastAngle rest tempTwoTheta
             (addToBack (getIntensity (base r)) tempIntensity)
  end.

(* the lists built by either loop and the scale factor *)
Definition combine (p : CalculatedPattern) (first : CalculatedPeak)
    (rest : list CalculatedPeak) : list R * list R * R :=
  let tempTwoTheta := [getAngle (base first)] in
  let tempIntensity := [getIntensity (base first)] in
  match _matchingPeaks (calcBase p) with
  | _ :: _ =>
      let '(tempTwoTheta, tempIntensity) :=
        combineMatched (patternIndex (base first)) rest tempTwoTheta tempIntensity in
      (tempTwoTheta, tempIntensity,
       1000.0 / Experimental.max_element (hd 0 tempIntensity) (tl tempIntensity))
  | [] =>
      let '(tempTwoTheta, tempIntensity) :=
        combineNear (-100) rest tempTwoTheta tempIntensity in
      (tempTwoTheta, tempIntensity, 1.0)
  end.

(* CalculatedPattern::getCombinedPeaks: _reflections[0] is read first *)
Definition getCombinedPeaks (p : CalculatedPattern) : option (list DiffractionPeak) :=
  match _reflections p with
  | [] => None
  | first :: rest =>
      let '(tempTwoTheta, tempIntensity, scaleFactor) := combine p first rest in
      Some (map (fun ti => newDiffractionPeak (fst ti) (snd ti * scaleFactor))
                (List.combine tempTwoTheta tempIntensity))
  end.

End Combined.


(* ================================================================== *)
(** * Properties *)

(** ** Comparisons *)

Lemma Rltb_true (x y : R) : x < y -> Rltb x y = true.
Proof. intros H; unfold Rltb; destruct (Rlt_dec x y); [reflexivity | contradiction]. Qed.

Lemma Rltb_false (x y : R) : y <= x -> Rltb x y = false.
Proof. intros H; unfold Rltb; destruct (Rlt_dec x y); [lra | reflexivity]. Qed.

Lemma Rleb_true (x y : R) : x <= y -> Rleb x y = true.
Proof. intros H; unfold Rleb; destruct (Rle_dec x y); [reflexivity | contradiction]. Qed.

Lemma Rleb_false (x y : R) : y < x -> Rleb x y = false.
Proof. intros H; unfold Rleb; destruct (Rle_dec x y); [lra | reflexivity]. Qed.

Lemma Reqb_true (x y : R) : x = y -> Reqb x y = true.
Proof. intros H; unfold Reqb; destruct (Req_dec_T x y); [reflexivity | contradiction]. Qed.

Lemma Reqb_false (x y : R) : x <> y -> Reqb x y = false.
Proof. intros H; unfold Reqb; destruct (Req_dec_T x y); [contradiction | reflexivity]. Qed.

Lemma Rltb_lt (x y : R) : Rltb x y = true <-> x < y.
Proof.
  unfold Rltb; destruct (Rlt_dec x y); split; intros; try assumption;
    try reflexivity; try discriminate; contradiction.
Qed.

Lemma Rltb_ge (x y : R) : Rltb x y = false <-> y <= x.
Proof.
  unfold Rltb; destruct (Rlt_dec x y); split; intros; try reflexivity;
    try discriminate; lra.
Qed.

Lemma Reqb_cases (x y : R) : (x = y /\ Reqb x y = true) \/ (x <> y /\ Reqb x y = false).
Proof.
  destruct (Req_dec x y) as [H | H].
  - left. split; [assumption | apply Reqb_true; assumption].
  - right. split; [assumption | apply Reqb_false; assumption].
Qed.

Lemma Rltb_cases (x y : R) : (x < y /\ Rltb x y = true) \/ (y <= x /\ Rltb x y = false).
Proof.
  destruct (Rlt_le_dec x y) as [H | H].
  - left. split; [assumption | apply Rltb_true; assumption].
  - right. split; [assumption | apply Rltb_false; assumption].
Qed.

(* decide the comparisons between numerals that occur in the goal *)
Ltac rabs :=
  repeat match goal with
  | |- context [Rabs ?a] =>
      first [ rewrite (Rabs_pos_eq a) by lra | rewrite (Rabs_left1 a) by lra ]
  end.

Ltac rcmp :=
  repeat match goal with
  | |- context [Rltb ?a ?b] =>
      first [ rewrite (Rltb_true a b) by lra | rewrite (Rltb_false a b) by lra ]
  | |- context [Rleb ?a ?b] =>
      first [ rewrite (Rleb_true a b) by lra | rewrite (Rleb_false a b) by lra ]
  | |- context [Reqb ?a ?b] =>
      first [ rewrite (Reqb_true a b) by lra | rewrite (Reqb_false a b) by lra ]
  end.

(** ** Peak position *)

Section PeakPosition.

Import Examples.

Lemma getDiffractionAngle_bound (basis : Basis.t) (h : Vector3D) (wl : R) :
  - (PI / 2) <= Peak.getDiffractionAngle basis h wl <= PI / 2.
Proof.
  unfold Peak.getDiffractionAngle.
  destruct (Rleb (-1) _ && Rleb _ 1).
  - apply asin_bound.
  - pose proof PI_RGT_0. destruct (Rltb _ (-1)); lra.
Qed.

(** Claim C9, as amended: the stored angle is twice the angle returned by
    getDiffractionAngle.  Whenever the argument of asin lies in [-1, 1],
    two_theta_rad = 2 asin(|B^-1 hkl| lambda / 2); the clamp to
    [-pi/2, pi/2] applies to that half angle, so two_theta_rad always lies
    in [-pi, pi], and it is pi (resp. -pi) when the argument is above 1
    (resp. below -1). *)
Theorem updatePeakPosition_twoThetaRad (basis : Basis.t) (p : CalculatedPeak) :
  let arg := Peak.asinArgument basis (hkl p) (wavelength p) in
  let p' := Peak.updatePeakPosition basis p in
  (-1 <= arg <= 1 -> twoThetaRad (base p') = 2 * asin arg) /\
  - PI <= twoThetaRad (base p') <= PI /\
  (1 < arg -> twoThetaRad (base p') = PI) /\
  (arg < -1 -> twoThetaRad (base p') = - PI).
Proof.
  cbn -[asin PI Peak.getDiffractionAngle Peak.asinArgument].
  repeat split.
  - intros [Hlo Hhi]. unfold Peak.getDiffractionAngle.
    rewrite (Rleb_true _ _ Hlo), (Rleb_true _ _ Hhi). reflexivity.
  - pose proof (getDiffractionAngle_bound basis (hkl p) (wavelength p)). lra.
  - pose proof (getDiffractionAngle_bound basis (hkl p) (wavelength p)). lra.
  - intros H. unfold Peak.getDiffractionAngle.
    rewrite (Rleb_false _ 1) by lra. rewrite andb_false_r.
    rewrite Rltb_false by lra. lra.
  - intros H. unfold Peak.getDiffractionAngle.
    rewrite (Rleb_false (-1)) by lra. cbn [andb].
    rewrite Rltb_true by lra. lra.
Qed.

Lemma magnitude_100 : magnitude (mulMV identity (vec3 1 0 0)) = 1.
Proof.
  unfold magnitude, mulMV, dot, identity; cbn.
  replace (_ + _ + _) with 1 by ring. apply sqrt_1.
Qed.

Lemma asinArgument_100 (wl : R) :
  Peak.asinArgument unitBasis (vec3 1 0 0) wl = wl / 2.
Proof.
  unfold Peak.asinArgument. cbn [Basis.inverse unitBasis].
  rewrite magnitude_100. lra.
Qed.

(** The (1 0 0) reflection of the unit cubic cell at wavelength 1: the
    argument of asin is 1/2 and the stored angle is 2 asin(1/2). *)
Lemma updatePeakPosition_twoThetaRad_witness :
  twoThetaRad (base (Peak.updatePeakPosition unitBasis (peak100 1)))
  = 2 * asin (Peak.asinArgument unitBasis (vec3 1 0 0) 1).
Proof.
  apply (proj1 (updatePeakPosition_twoThetaRad unitBasis (peak100 1))).
  cbn [hkl wavelength peak100 Peak.newCalculatedPeak Peak.updatePeakPosition].
  rewrite asinArgument_100. lra.
Defined.

(** Claim C9, as stated, fails: at wavelength 2 the (1 0 0) reflection of
    the unit cubic cell has asin argument 1 and is stored with
    two_theta_rad = pi, outside [-pi/2, pi/2]. *)
Lemma twoThetaRad_not_within_half_pi :
  ~ (- (PI / 2) <= twoThetaRad (base (peak100 2)) <= PI / 2).
Proof.
  cbn [peak100 Peak.newCalculatedPeak Peak.updatePeakPosition base twoThetaRad
       hkl wavelength].
  unfold Peak.getDiffractionAngle.
  rewrite asinArgument_100.
  replace (2 / 2) with 1 by lra.
  rewrite (Rleb_true (-1) 1) by lra. rewrite (Rleb_true 1 1) by lra.
  cbn [andb]. rewrite asin_1.
  pose proof PI_RGT_0. lra.
Qed.

End PeakPosition.

(** ** Integrated intensity *)

Section IntegratedIntensity.

Import Examples.

Lemma theta_100 : Peak.getDiffractionAngle unitBasis (vec3 1 0 0) 1 = asin (1 / 2).
Proof.
  unfold Peak.getDiffractionAngle. rewrite asinArgument_100.
  rewrite (Rleb_true (-1)) by lra. rewrite (Rleb_true (1 / 2)) by lra.
  reflexivity.
Qed.

Lemma sin_theta_100 : sin (asin (1 / 2)) = 1 / 2.
Proof. apply sin_asin; lra. Qed.

Lemma cos_theta_100_pos : 0 < cos (asin (1 / 2)).
Proof.
  rewrite cos_asin by lra. apply sqrt_lt_R0. unfold Rsqr. lra.
Qed.

Lemma lpFactor_100_nonzero : Peak.getLPFactor (asin (1 / 2)) <> 0.
Proof.
  unfold Peak.getLPFactor. rewrite sin_theta_100.
  pose proof cos_theta_100_pos as Hc.
  pose proof (pow2_ge_0 (cos (2 * asin (1 / 2)))) as Hn.
  apply Rgt_not_eq. apply Rdiv_lt_0_compat; [lra | nra].
Qed.

Lemma texturing_100 :
  Peak.getTexturingFactor (vec3 1 0 0) 1 [mulMV identity (vec3 1 0 0)] = 1.
Proof.
  unfold Peak.getTexturingFactor. cbn [fold_left length INR].
  assert (Hm : magnitude (vec3 1 0 0) = 1).
  { unfold magnitude, dot; cbn. replace (_ + _ + _) with 1 by ring. apply sqrt_1. }
  assert (Hv : mulMV identity (vec3 1 0 0) = vec3 1 0 0).
  { unfold mulMV, identity, dot; cbn. f_equal; ring. }
  rewrite Hv, Hm.
  assert (Hd : dot (vec3 1 0 0) (vec3 1 0 0) = 1) by (unfold dot; cbn; ring).
  rewrite Hd.
  replace (1 * 1 * (1 / 1 / 1 * (1 / 1 / 1)) + (1 - 1 / 1 / 1 * (1 / 1 / 1)) / 1)
    with 1 by field.
  unfold Rpower. rewrite ln_1, Rmult_0_r, exp_0. field.
Qed.

Lemma dot_origin (h : Vector3D) : 2 * PI * dot h (vec3 0 0 0) = 0.
Proof. unfold dot; cbn [vx vy vz]. ring. Qed.

Lemma unitScatterer_factor (angle wl : R) :
  Peak.atomicScatteringFactor unitScatterer angle wl = 1.
Proof. unfold Peak.atomicScatteringFactor, unitScatterer; cbn [nth]. ring. Qed.

(* what the code computes for |F|^2 of one atom with B = 2 at wavelength 1 *)
Lemma structureFactorSquared_oneAtom (angle : R) :
  sin angle = 1 / 2 ->
  Peak.structureFactorSquared DM_XRAY 1 oneAtom angle (vec3 1 0 0) [2] [unitScatterer]
  = exp (- (1 / 16)) ^ 2.
Proof.
  intros Hs.
  unfold Peak.structureFactorSquared.
  cbn [orbits oneAtom Peak.orbitLoop atoms fold_left nth].
  unfold Peak.addAtom. cbn [fractional occupancy fst snd].
  rewrite dot_origin, cos_0, sin_0, unitScatterer_factor.
  unfold Peak.thermalFactor. rewrite Hs.
  replace (- (1) * (1 / 2 / 2) ^ 2) with (- (1 / 16)) by field.
  ring.
Qed.

(* what the formula of the specification gives for the same atom *)
Lemma spec_structureFactor_oneAtom (angle : R) :
  sin angle = 1 / 2 ->
  Spec.structureFactor DM_XRAY 1 angle (vec3 1 0 0) [2] [unitScatterer] 0
    (orbits oneAtom) (0, 0)
  = (exp (- (1 / 2)), 0).
Proof.
  intros Hs.
  cbn [orbits oneAtom Spec.structureFactor atoms fold_left nth].
  unfold Peak.addAtom. cbn [fractional occupancy fst snd].
  rewrite dot_origin, cos_0, sin_0, unitScatterer_factor.
  unfold Spec.thermalAttenuation. rewrite Hs.
  replace (- (2) * (1 / 2 / 1) ^ 2) with (- (1 / 2)) by field.
  f_equal; ring.
Qed.

(** Claim C1 (the code departs from it).  For one atom at the origin with
    f = 1, occupancy 1 and B = 2, and the (1 0 0) reflection of the unit
    cubic cell at wavelength 1 (sin theta = 1/2, multiplicity 1, T_hkl = 1),
    updateCalculatedIntensity stores exp(-1/16)^2 LP: the thermal factor it
    used is exp(-(sin theta / B)^2), from the call
    thermalFactor(angle, BFactors[i]).  The formula of the claim, with
    exp(-B (sin theta / lambda)^2), gives exp(-1/2)^2 LP, a different value. *)
Theorem updateCalculatedIntensity_thermal_factor :
  let p := peak100 1 in
  let code :=
    peakIntensity (base (Peak.updateCalculatedIntensity oneAtom [2] [unitScatterer]
                           (vec3 1 0 0) 1 p)) in
  let spec := Spec.integratedIntensity oneAtom [2] [unitScatterer] (vec3 1 0 0) 1 p in
  code = exp (- (1 / 16)) ^ 2 * Peak.getLPFactor (asin (1 / 2)) /\
  spec = exp (- (1 / 2)) ^ 2 * Peak.getLPFactor (asin (1 / 2)) /\
  code <> spec.
Proof.
  assert (Hang : 2 * Peak.getDiffractionAngle unitBasis (vec3 1 0 0) 1 / 2 = asin (1 / 2)).
  { rewrite theta_100. lra. }
  assert (Hang' : 2 * Peak.getDiffractionAngle unitBasis (vec3 1 0 0) 1 / 2.0 = asin (1 / 2)).
  { rewrite theta_100. lra. }
  assert (Hcode :
    peakIntensity (base (Peak.updateCalculatedIntensity oneAtom [2] [unitScatterer]
                           (vec3 1 0 0) 1 (peak100 1)))
    = exp (- (1 / 16)) ^ 2 * Peak.getLPFactor (asin (1 / 2))).
  { unfold Peak.updateCalculatedIntensity, peak100, Peak.newCalculatedPeak,
      Peak.updatePeakPosition.
    cbn [Peak.setIntensity base peakIntensity method wavelength twoThetaRad hkl
         lpFactor multiplicity recipLatVecs equivHKL map length INR
         Basis.inverse unitBasis].
    rewrite Hang, Hang', texturing_100.
    rewrite structureFactorSquared_oneAtom by apply sin_theta_100.
    ring. }
  assert (Hspec :
    Spec.integratedIntensity oneAtom [2] [unitScatterer] (vec3 1 0 0) 1 (peak100 1)
    = exp (- (1 / 2)) ^ 2 * Peak.getLPFactor (asin (1 / 2))).
  { unfold Spec.integratedIntensity, peak100, Peak.newCalculatedPeak,
      Peak.updatePeakPosition.
    cbn [base peakIntensity method wavelength twoThetaRad hkl
         lpFactor multiplicity recipLatVecs equivHKL map length INR
         Basis.inverse unitBasis].
    rewrite Hang, Hang', texturing_100.
    rewrite spec_structureFactor_oneAtom by apply sin_theta_100.
    ring. }
  cbv zeta. rewrite Hcode, Hspec. repeat split.
  intros Heq.
  apply Rmult_eq_reg_r in Heq; [| apply lpFactor_100_nonzero].
  assert (Hlt : exp (- (1 / 2)) < exp (- (1 / 16))) by (apply exp_increasing; lra).
  pose proof (exp_pos (- (1 / 2))) as Hp.
  nra.
Qed.

End IntegratedIntensity.

(** ** Matching *)

Section MatchingProperties.

Import Examples.

(* evaluate a matching run on peaks whose angles are numerals *)
Ltac match_eval :=
  repeat (cbn [Matching.matchLoop Matching.matchPeak Matching.nearestLoop
               Matching.pushAt nth_error tl bind getAngle TwoThetaDeg
               newDiffractionPeak setPatternIndex app map
               SpecMatching.matchFrom SpecMatching.nearest];
          unfold Matching.tol; rabs; rcmp).

(** Claim C2 (the code departs from it).  A pattern with peaks at 10 and 20
    degrees is matched against a reference with peaks at the same angles.
    The reference peak nearest to the second calculated peak is the second
    one, at distance 0, and the claim puts its index in that bucket.  The
    code starts the search from the distance to referencePeaks[thisPeak]
    with nearIndex = 0, finds nothing strictly nearer, and puts both peaks
    in bucket 0. *)
Theorem matchPeaksToReference_first_bucket :
  option_map (fun r => (_matchingPeaks (fst r), _unmatchedPeaks (fst r)))
             (Matching.matchPeaksToReference newDiffraction twoPeaks twoPeaks)
  = Some ([[0; 1]; []]%nat, [])
  /\ SpecMatching.matchPeaks twoPeaks twoPeaks = Some ([[0]; [1]]%nat, []).
Proof.
  unfold Matching.matchPeaksToReference, SpecMatching.matchPeaks, twoPeaks.
  split; match_eval; reflexivity.
Qed.

(** Claim C3 (the code departs from it).  A calculated pattern with
    reflections at 10 and 50 degrees is matched against a reference with
    peaks at 10 and 20 degrees.  The second reflection is recorded as
    unmatched, yet the pattern indices seen through getDiffractedPeaks are
    0 and 1: the indices written by CalculatedPattern::matchPeaksToReference.
    Diffraction::matchPeaksToReference writes -1 and the reference index to
    a copy of the peaks, which is dropped on return. *)
Theorem matchPeaksToReference_patternIndex_not_stored :
  option_map (fun p => (map patternIndex (Matching.getDiffractedPeaks p),
                        _matchingPeaks (calcBase p), _unmatchedPeaks (calcBase p)))
             (Matching.matchPeaksToReferenceCalc
                (calculatedPattern [reflectionAt 10; reflectionAt 50]) twoPeaks)
  = Some ([0; 1]%Z, [[0]; []]%nat, [1]%nat).
Proof.
  unfold Matching.matchPeaksToReferenceCalc, Matching.matchPeaksToReference, twoPeaks.
  cbn [calculatedPattern setReflections _reflections calcBase Matching.numberFrom
       Matching.getDiffractedPeaks Matching.setPeakPatternIndex base reflectionAt
       setPatternIndex map].
  match_eval. reflexivity.
Qed.

End MatchingProperties.

(** ** R factors under a rescaling of the reference *)

Section ScaleInvariance.

Import RFactor.

Variable alpha : R.
Hypothesis alpha_pos : 0 < alpha.

Let scaled (l : list R) : list R := map (Rmult alpha) l.

Lemma map_getIntensity_scaled (l : list DiffractionPeak) :
  map getIntensity (map (scaleIntensity alpha) l) = scaled (map getIntensity l).
Proof. unfold scaled. rewrite !map_map. reflexivity. Qed.

Lemma gatherIntensities_scaled (d : Diffraction) (referencePeaks thisPeaks : list DiffractionPeak) :
  gatherIntensities d (map (scaleIntensity alpha) referencePeaks) thisPeaks
  = option_map (fun rmu => (scaled (fst (fst rmu)), snd (fst rmu), snd rmu))
               (gatherIntensities d referencePeaks thisPeaks).
Proof.
  unfold gatherIntensities. rewrite length_map, map_getIntensity_scaled.
  destruct (mapM _ (seq 0 (length referencePeaks))) as [m |]; cbn [bind option_map];
    [| reflexivity].
  destruct (mapM _ (_unmatchedPeaks d)) as [u |]; reflexivity.
Qed.

Lemma fold_matched_abs (s : R) (r m : list R) (acc : R) :
  fold_left (fun e rm => e + Rabs (fst rm - alpha * s * snd rm))
            (combine (scaled r) m) (alpha * acc)
  = alpha * fold_left (fun e rm => e + Rabs (fst rm - s * snd rm)) (combine r m) acc.
Proof.
  revert m acc. induction r as [| x r IH]; intros m acc; [reflexivity |].
  destruct m as [| y m]; [reflexivity |].
  cbn [scaled map combine fold_left fst snd].
  replace (alpha * acc + Rabs (alpha * x - alpha * s * y))
    with (alpha * (acc + Rabs (x - s * y))).
  - apply IH.
  - replace (alpha * x - alpha * s * y) with (alpha * (x - s * y)) by ring.
    rewrite (Rabs_mult alpha), (Rabs_pos_eq alpha) by lra. ring.
Qed.

Lemma fold_unmatched_abs (s : R) (u : list R) (acc : R) :
  fold_left (fun e x => e + Rabs (alpha * s * x)) u (alpha * acc)
  = alpha * fold_left (fun e x => e + Rabs (s * x)) u acc.
Proof.
  revert acc. induction u as [| x u IH]; intros acc; [reflexivity |].
  cbn [fold_left].
  replace (alpha * acc + Rabs (alpha * s * x)) with (alpha * (acc + Rabs (s * x))).
  - apply IH.
  - replace (alpha * s * x) with (alpha * (s * x)) by ring.
    rewrite (Rabs_mult alpha), (Rabs_pos_eq alpha) by lra. ring.
Qed.

Lemma absError_scaled (s : R) (r m u : list R) :
  absError (alpha * s) (scaled r) m u = alpha * absError s r m u.
Proof.
  unfold absError.
  rewrite <- fold_unmatched_abs, <- fold_matched_abs.
  rewrite Rmult_0_r. reflexivity.
Qed.

Lemma fold_matched_sq (s : R) (r m : list R) (acc : R) :
  fold_left (fun e rm => e + (fst rm - alpha * s * snd rm) ^ 2)
            (combine (scaled r) m) (alpha ^ 2 * acc)
  = alpha ^ 2 * fold_left (fun e rm => e + (fst rm - s * snd rm) ^ 2) (combine r m) acc.
Proof.
  revert m acc. induction r as [| x r IH]; intros m acc; [reflexivity |].
  destruct m as [| y m]; [reflexivity |].
  cbn [scaled map combine fold_left fst snd].
  replace (alpha ^ 2 * acc + (alpha * x - alpha * s * y) ^ 2)
    with (alpha ^ 2 * (acc + (x - s * y) ^ 2)) by ring.
  apply IH.
Qed.

Lemma fold_unmatched_sq (s : R) (u : list R) (acc : R) :
  fold_left (fun e x => e + (alpha * s * x) ^ 2) u (alpha ^ 2 * acc)
  = alpha ^ 2 * fold_left (fun e x => e + (s * x) ^ 2) u acc.
Proof.
  revert acc. induction u as [| x u IH]; intros acc; [reflexivity |].
  cbn [fold_left].
  replace (alpha ^ 2 * acc + (alpha * s * x) ^ 2)
    with (alpha ^ 2 * (acc + (s * x) ^ 2)) by ring.
  apply IH.
Qed.

Lemma squaredError_scaled (s : R) (r m u : list R) :
  squaredError (alpha * s) (scaled r) m u = alpha ^ 2 * squaredError s r m u.
Proof.
  unfold squaredError.
  rewrite <- fold_unmatched_sq, <- fold_matched_sq.
  rewrite Rmult_0_r. reflexivity.
Qed.

Lemma accumulate_scaled (r : list R) : accumulate (scaled r) = alpha * accumulate r.
Proof.
  unfold accumulate.
  assert (H : forall acc, fold_left Rplus (scaled r) (alpha * acc)
                          = alpha * fold_left Rplus r acc).
  { induction r as [| x r IH]; intros acc; [reflexivity |].
    cbn [scaled map fold_left]. rewrite <- Rmult_plus_distr_l. apply IH. }
  rewrite <- H, Rmult_0_r. reflexivity.
Qed.

Lemma norm_squared_scaled (r : list R) :
  fold_left (fun n x => n + x * x) (scaled r) 0
  = alpha ^ 2 * fold_left (fun n x => n + x * x) r 0.
Proof.
  assert (H : forall acc, fold_left (fun n x => n + x * x) (scaled r) (alpha ^ 2 * acc)
                          = alpha ^ 2 * fold_left (fun n x => n + x * x) r acc).
  { induction r as [| x r IH]; intros acc; [reflexivity |].
    cbn [scaled map fold_left].
    replace (alpha ^ 2 * acc + alpha * x * (alpha * x))
      with (alpha ^ 2 * (acc + x * x)) by ring.
    apply IH. }
  rewrite <- H, Rmult_0_r. reflexivity.
Qed.

Lemma inner_product_scaled (m r : list R) :
  inner_product m (scaled r) = alpha * inner_product m r.
Proof.
  unfold inner_product.
  assert (H : forall acc,
             fold_left (fun a xy => a + fst xy * snd xy) (combine m (scaled r)) (alpha * acc)
             = alpha * fold_left (fun a xy => a + fst xy * snd xy) (combine m r) acc).
  { revert r. induction m as [| x m IH]; intros r acc; [reflexivity |].
    destruct r as [| y r]; [reflexivity |].
    cbn [scaled map combine fold_left fst snd].
    replace (alpha * acc + x * (alpha * y)) with (alpha * (acc + x * y)) by ring.
    apply IH. }
  rewrite <- H, Rmult_0_r. reflexivity.
Qed.

Let scaledCandidates (c : list (R * R)) : list (R * R) :=
  map (fun rm => (alpha * fst rm, snd rm)) c.

Lemma combine_scaled (r m : list R) :
  combine (scaled r) m = scaledCandidates (combine r m).
Proof.
  revert m. induction r as [| x r IH]; intros m; [reflexivity |].
  destruct m as [| y m]; [reflexivity |].
  cbn [scaled map combine scaledCandidates fst snd]. f_equal. apply IH.
Qed.

Lemma Rltb_scaled (x y : R) : Rltb (alpha * x) (alpha * y) = Rltb x y.
Proof.
  destruct (Rlt_dec x y) as [H | H].
  - rewrite (Rltb_true x y H). apply Rltb_true. nra.
  - rewrite (Rltb_false x y) by lra. apply Rltb_false. nra.
Qed.

(* homogeneity of the scan: scaled candidates, scaled starting state *)
Lemma scanScales_scaled (r m u : list R) (cands : list (R * R)) (M s : R) :
  scanScales (scaled r) m u (scaledCandidates cands) (alpha * M) (alpha * s)
  = (alpha * fst (scanScales r m u cands M s),
     alpha * snd (scanScales r m u cands M s)).
Proof.
  revert M s. induction cands as [| [x y] c IH]; intros M s; [reflexivity |].
  cbn [scaledCandidates map scanScales fst snd].
  destruct (Reqb y 0); [apply IH |].
  replace (alpha * x / y) with (alpha * (x / y)) by (unfold Rdiv; ring).
  rewrite absError_scaled, Rltb_scaled.
  destruct (Rltb (absError (x / y) r m u) M); apply IH.
Qed.

(* a larger starting value of minimumError gives the same result once some
   candidate is accepted *)
Lemma scanScales_start (r m u : list R) (cands : list (R * R)) :
  forall M s M' s',
    M <= M' ->
    fst (scanScales r m u cands M s) < M ->
    scanScales r m u cands M' s' = scanScales r m u cands M s.
Proof.
  induction cands as [| [x y] c IH]; intros M s M' s' Hle Hlt.
  - cbn in Hlt. lra.
  - cbn [scanScales] in *.
    destruct (Reqb y 0); [apply IH; assumption |].
    set (e := absError (x / y) r m u) in *.
    destruct (Rlt_dec e M) as [HeM | HeM].
    + rewrite (Rltb_true e M HeM) in *. rewrite (Rltb_true e M') by lra. reflexivity.
    + rewrite (Rltb_false e M) in * by lra.
      destruct (Rlt_dec e M') as [HeM' | HeM'].
      * rewrite (Rltb_true e M' HeM'). apply IH; [lra | assumption].
      * rewrite (Rltb_false e M') by lra. apply IH; assumption.
Qed.

(* the scan of the rescaled reference, from the values the code starts with *)
Lemma scanScales_rescaled (r m u : list R) :
  fst (scanScales r m u (combine r m) 1e100 1.0) < 1e100 ->
  fst (scanScales (scaled r) m u (combine (scaled r) m) 1e100 1.0) < 1e100 ->
  snd (scanScales (scaled r) m u (combine (scaled r) m) 1e100 1.0)
  = alpha * snd (scanScales r m u (combine r m) 1e100 1.0).
Proof.
  intros H1 H2.
  pose proof (scanScales_scaled r m u (combine r m) 1e100 1.0) as Hs.
  rewrite <- combine_scaled in Hs.
  destruct (Rle_dec 1 alpha) as [Ha | Ha].
  - rewrite <- (scanScales_start (scaled r) m u (combine (scaled r) m)
                  1e100 1.0 (alpha * 1e100) (alpha * 1.0)); [| nra | assumption].
    rewrite Hs. reflexivity.
  - rewrite (scanScales_start (scaled r) m u (combine (scaled r) m)
               (alpha * 1e100) (alpha * 1.0) 1e100 1.0); [| nra |].
    + rewrite Hs. reflexivity.
    + rewrite Hs. cbn [fst]. nra.
Qed.

Lemma scaleAndRFactor_squared_scaled (r m u : list R) :
  scaleAndRFactor DR_SQUARED (scaled r) m u
  = (alpha * fst (scaleAndRFactor DR_SQUARED r m u),
     snd (scaleAndRFactor DR_SQUARED r m u)).
Proof.
  unfold scaleAndRFactor. cbn [fst snd].
  rewrite inner_product_scaled, norm_squared_scaled.
  set (denom := inner_product m m + inner_product u u).
  replace (alpha * inner_product m r / denom)
    with (alpha * (inner_product m r / denom)) by (unfold Rdiv; ring).
  rewrite squaredError_scaled.
  rewrite Rdiv_mult_l_l by (apply pow_nonzero; lra).
  reflexivity.
Qed.

Lemma scaleAndRFactor_abs_scaled (r m u : list R) :
  fst (scanScales r m u (combine r m) 1e100 1.0) < 1e100 ->
  fst (scanScales (scaled r) m u (combine (scaled r) m) 1e100 1.0) < 1e100 ->
  scaleAndRFactor DR_ABS (scaled r) m u
  = (alpha * fst (scaleAndRFactor DR_ABS r m u),
     snd (scaleAndRFactor DR_ABS r m u)).
Proof.
  intros H1 H2. unfold scaleAndRFactor.
  pose proof (scanScales_rescaled r m u H1 H2) as Hs.
  destruct (scanScales (scaled r) m u (combine (scaled r) m) 1e100 1.0) as [e' s'].
  destruct (scanScales r m u (combine r m) 1e100 1.0) as [e s].
  cbn [fst snd] in *. subst s'.
  rewrite absError_scaled, accumulate_scaled.
  rewrite Rdiv_mult_l_l by lra.
  reflexivity.
Qed.

End ScaleInvariance.

(** Claim C10, as amended: multiplying every reference peak intensity by
    alpha > 0 leaves the R factor returned by getCurrentRFactor unchanged
    and multiplies the resulting _optimalScale by alpha, for DR_SQUARED
    always, and for DR_ABS whenever the scan over the candidate scales
    accepts a candidate both before and after the rescaling (minimumError
    ends below its starting value 1e100). *)
Theorem getCurrentRFactor_scale_invariance
    (d : Diffraction) (referencePeaks thisPeaks : list DiffractionPeak)
    (rMethod : Rmethod) (alpha : R) :
  0 < alpha ->
  rMethod = DR_SQUARED \/
  (rMethod = DR_ABS /\
   RFactor.candidateAccepted d referencePeaks thisPeaks /\
   RFactor.candidateAccepted d (map (RFactor.scaleIntensity alpha) referencePeaks) thisPeaks) ->
  RFactor.getCurrentRFactor d (map (RFactor.scaleIntensity alpha) referencePeaks)
    thisPeaks rMethod
  = option_map (fun dr => (setOptimalScale (alpha * _optimalScale (fst dr)) (fst dr), snd dr))
      (RFactor.getCurrentRFactor d referencePeaks thisPeaks rMethod).
Proof.
  intros Ha Hm.
  unfold RFactor.candidateAccepted, RFactor.minimumError in Hm.
  unfold RFactor.getCurrentRFactor.
  rewrite (gatherIntensities_scaled alpha) in *.
  destruct (_matchingPeaks d) as [| b bs]; [reflexivity |].
  destruct (RFactor.gatherIntensities d referencePeaks thisPeaks) as [[[r m] u] |];
    cbn [option_map bind fst snd] in *; [| reflexivity].
  destruct Hm as [-> | (-> & H1 & H2)].
  - rewrite (scaleAndRFactor_squared_scaled alpha Ha).
    destruct (RFactor.scaleAndRFactor DR_SQUARED r m u) as [s rf].
    reflexivity.
  - rewrite (scaleAndRFactor_abs_scaled alpha Ha r m u H1 H2).
    destruct (RFactor.scaleAndRFactor DR_ABS r m u) as [s rf].
    reflexivity.
Qed.

Section ScaleInvarianceExamples.

Import Examples RFactor.

Ltac rfactor_eval :=
  repeat (cbn [gatherIntensities bothMatched noneMatched setMatching newDiffraction
               _matchingPeaks _unmatchedPeaks twoPeaks map length seq mapM bind
               nth_error bucketIntensity intensityAt fold_left getIntensity
               peakIntensity newDiffractionPeak scaleIntensity combine
               scanScales absError fst snd accumulate option_map scaleAndRFactor];
          rewrite ?Rplus_0_l, ?Rmult_1_r, ?Rmult_1_l; rabs; rcmp).

(** Two calculated peaks of intensity 1, each matched to its own reference
    peak of intensity 1, and alpha = 2: the scan accepts the first candidate
    before and after the rescaling. *)
Lemma getCurrentRFactor_scale_invariance_witness :
  getCurrentRFactor bothMatched (map (scaleIntensity 2) twoPeaks) twoPeaks DR_ABS
  = option_map (fun dr => (setOptimalScale (2 * _optimalScale (fst dr)) (fst dr), snd dr))
      (getCurrentRFactor bothMatched twoPeaks twoPeaks DR_ABS).
Proof.
  apply getCurrentRFactor_scale_invariance; [lra |].
  right. split; [reflexivity |].
  unfold candidateAccepted, minimumError.
  split; rfactor_eval; lra.
Defined.

(** Claim C10, as stated, fails for DR_ABS.  One calculated peak of
    intensity 1 that matched nothing and one reference peak of intensity 1:
    no candidate scale exists (the matched intensity is 0), _optimalScale
    stays 1 and R = (|1 - 0| + |1|) / 1 = 2.  With the reference multiplied
    by 2 the scale is still 1 and R = (|2 - 0| + |1|) / 2 = 3/2. *)
Lemma getCurrentRFactor_abs_not_scale_invariant :
  let reference := [newDiffractionPeak 10 1] in
  let calculated := [newDiffractionPeak 50 1] in
  option_map snd (getCurrentRFactor noneMatched (map (scaleIntensity 2) reference)
                    calculated DR_ABS)
  <> option_map snd (getCurrentRFactor noneMatched reference calculated DR_ABS).
Proof.
  cbv zeta. unfold getCurrentRFactor.
  rfactor_eval.
  intros H. injection H as H. lra.
Qed.

End ScaleInvarianceExamples.

(** ** The staged Rietveld refinement *)

Section DivergenceGuard.

Import Refinement.

Variable minimise : CalculatedPattern -> Basis.t -> Symmetry -> CalculatedPattern * Basis.t * Symmetry.
Variable rFactorAbs : Engine -> R.
Variable scaleGuess : Engine -> R.
Variable guessBackgroundParameters : Engine -> list R.
Variable guessPeakWidthParameter : Engine -> R.

Let run := runRefinement minimise rFactorAbs.

Lemma early_onPattern (f : CalculatedPattern -> CalculatedPattern) (e0 e : Engine) :
  incl (_currentlyRefining (f (pattern e))) earlyKinds ->
  early e0 e -> early e0 (onPattern f e).
Proof. intros Hf [_ Hc]. split; assumption. Qed.

Lemma incl_insert (x : RefinementParameters) (s t : RefinementSet) :
  In x t -> incl s t -> incl (insert x s) t.
Proof.
  intros Hx Hs. unfold insert. destruct (in_dec RF_eq_dec x s); [assumption |].
  apply incl_app; [assumption |]. intros y [<- | []]. assumption.
Qed.

Lemma incl_insertAll (other s t : RefinementSet) :
  incl other t -> incl s t -> incl (insertAll other s) t.
Proof.
  unfold insertAll. revert s. induction other as [| x o IH]; intros s Ho Hs; [assumption |].
  cbn [fold_left]. apply IH.
  - intros y Hy. apply Ho. right. assumption.
  - apply incl_insert; [apply Ho; left; reflexivity | assumption].
Qed.

Lemma early_clear (e0 e : Engine) : early e0 e -> early e0 (clearRefining e).
Proof. apply early_onPattern. intros x []. Qed.

Lemma early_add (x : RefinementParameters) (e0 e : Engine) :
  In x earlyKinds -> early e0 e -> early e0 (addRefining x e).
Proof.
  intros Hx He. apply early_onPattern; [| assumption].
  apply incl_insert; [assumption | apply He].
Qed.

Lemma early_addAll (s : RefinementSet) (e0 e : Engine) :
  incl s earlyKinds -> early e0 e -> early e0 (addAllRefining s e).
Proof.
  intros Hs He. apply early_onPattern; [| assumption].
  apply incl_insertAll; [assumption | apply He].
Qed.

Lemma early_calculatePeakIntensities (e0 e : Engine) :
  early e0 e -> early e0 (calculatePeakIntensities e).
Proof. intros He. unfold calculatePeakIntensities. apply early_onPattern; [apply He | assumption]. Qed.

Lemma early_run (e0 e : Engine) : early e0 e -> early e0 (fst (run e)).
Proof.
  intros [Hr (newCalls & Hc & Hn)]. unfold run, runRefinement.
  destruct (minimise (pattern e) (basis e) (symmetry e)) as [[pat b] s].
  cbn [fst]. apply early_calculatePeakIntensities.
  split; [exact Hr |].
  exists (newCalls ++ [refiningOf e]). cbn [calls]. split.
  - rewrite Hc, app_assoc. reflexivity.
  - apply Forall_app. split; [assumption |]. constructor; [exact Hr | constructor].
Qed.

(* name the result of the next call to runRefinement, with the fact that it
   keeps [early] *)
Ltac run_step e0 :=
  match goal with
  | |- context [runRefinement minimise rFactorAbs ?x] =>
      let H := fresh "Hrun" in
      pose proof (early_run e0 x) as H; unfold run in H;
      destruct (runRefinement minimise rFactorAbs x) as [? ?];
      cbn [fst snd] in *
  end.

Ltac kind := solve [cbn; tauto].

Lemma stageScale_early (e0 e : Engine) (rsf : RefinementSet) :
  early e0 e -> incl rsf earlyKinds ->
  early e0 (fst (fst (stageScale minimise rFactorAbs scaleGuess e rsf))) /\
  incl (snd (fst (stageScale minimise rFactorAbs scaleGuess e rsf))) earlyKinds.
Proof.
  intros He Hr. unfold stageScale. run_step e0. split.
  - apply Hrun. apply early_onPattern; [| apply early_add; [kind | assumption]].
    cbn. apply incl_insert; [kind | apply He].
  - apply incl_insert; [kind | assumption].
Qed.

Lemma stageSpecimenDisplacement_early (e0 e : Engine) (rsf : RefinementSet) :
  early e0 e -> incl rsf earlyKinds ->
  early e0 (fst (fst (stageSpecimenDisplacement minimise rFactorAbs e rsf))) /\
  incl (snd (fst (stageSpecimenDisplacement minimise rFactorAbs e rsf))) earlyKinds.
Proof.
  intros He Hr. unfold stageSpecimenDisplacement.
  assert (Hi : incl (insert RF_SPECDISP rsf) earlyKinds)
    by (apply incl_insert; [kind | assumption]).
  run_step e0. run_step e0. split; [| assumption].
  apply Hrun0, early_addAll; [assumption |].
  apply Hrun, early_add; [kind |]. apply early_clear. assumption.
Qed.

Lemma stageBackground_early (e0 e : Engine) (rsf : RefinementSet) :
  early e0 e -> incl rsf earlyKinds ->
  early e0 (fst (fst (stageBackground minimise rFactorAbs guessBackgroundParameters e rsf))) /\
  incl (snd (fst (stageBackground minimise rFactorAbs guessBackgroundParameters e rsf)))
       earlyKinds.
Proof.
  intros He Hr. unfold stageBackground.
  assert (Hi : incl (insert RF_BACKGROUND rsf) earlyKinds)
    by (apply incl_insert; [kind | assumption]).
  run_step e0. run_step e0. split; [| assumption].
  apply Hrun0, early_addAll; [assumption |].
  apply Hrun.
  assert (Hb : early e0 (addRefining RF_SCALE (addRefining RF_BACKGROUND (clearRefining e)))).
  { apply early_add; [kind |]. apply early_add; [kind |]. apply early_clear. assumption. }
  apply early_onPattern; [apply Hb | exact Hb].
Qed.

Lemma stageBasis_early (e0 e : Engine) (rsf : RefinementSet) (curR : R) :
  early e0 e -> incl rsf earlyKinds ->
  early e0 (fst (fst (stageBasis minimise rFactorAbs e rsf curR))) /\
  incl (snd (fst (stageBasis minimise rFactorAbs e rsf curR))) earlyKinds.
Proof.
  intros He Hr. unfold stageBasis.
  destruct (Rltb 0 (_maxLatChange (pattern e))); [| split; assumption].
  run_step e0. split.
  - apply early_addAll.
    + apply incl_insertAll; [apply He | intros x []].
    + apply Hrun, early_add; [kind |]. apply early_clear. assumption.
  - apply incl_insert; [kind | assumption].
Qed.

Lemma stageWidth_early (e0 e : Engine) (rsf : RefinementSet) :
  early e0 e -> incl rsf earlyKinds ->
  early e0 (fst (fst (stageWidth minimise rFactorAbs guessPeakWidthParameter e rsf))).
Proof.
  intros He Hr. unfold stageWidth.
  assert (Hi : incl (insert RF_WFACTOR rsf) earlyKinds)
    by (apply incl_insert; [kind | assumption]).
  run_step e0. run_step e0.
  apply Hrun0, early_addAll; [assumption |].
  apply Hrun, early_add; [kind |].
  apply early_onPattern; [apply He | assumption].
Qed.

(* on entry _currentlyRefining is cleared: whatever was enabled is gone *)
Lemma early_start (e : Engine) : early e (clearRefining e).
Proof.
  split; [intros x [] |]. exists []. cbn [clearRefining onPattern calls].
  rewrite app_nil_r. split; constructor.
Qed.

Lemma stagesThroughWidth_early (e : Engine) :
  early e (fst (stagesThroughWidth minimise rFactorAbs scaleGuess
                  guessBackgroundParameters guessPeakWidthParameter e)).
Proof.
  unfold stagesThroughWidth.
  pose proof (early_calculatePeakIntensities e _ (early_start e)) as H0.
  set (e1 := calculatePeakIntensities (clearRefining e)) in *.
  assert (Hnil : incl (@nil RefinementParameters) earlyKinds) by (intros x []).
  destruct (stageScale_early e e1 [] H0 Hnil) as [H1 R1].
  destruct (stageScale minimise rFactorAbs scaleGuess e1 []) as [[e2 rsf2] r2].
  cbn [fst snd] in *.
  destruct (stageSpecimenDisplacement_early e e2 rsf2 H1 R1) as [H2 R2].
  destruct (stageSpecimenDisplacement minimise rFactorAbs e2 rsf2) as [[e3 rsf3] r3].
  cbn [fst snd] in *.
  destruct (stageBackground_early e e3 rsf3 H2 R2) as [H3 R3].
  destruct (stageBackground minimise rFactorAbs guessBackgroundParameters e3 rsf3)
    as [[e4 rsf4] r4].
  cbn [fst snd] in *.
  destruct (stageBasis_early e e4 rsf4 r4 H3 R3) as [H4 R4].
  destruct (stageBasis minimise rFactorAbs e4 rsf4 r4) as [[e5 rsf5] r5].
  cbn [fst snd] in *.
  pose proof (stageWidth_early e e5 rsf5 H4 R4) as H5.
  destruct (stageWidth minimise rFactorAbs guessPeakWidthParameter e5 rsf5)
    as [[e6 rsf6] r6].
  exact H5.
Qed.

(* the R factor tested after the width stage is the one of the state
   that stage ends in *)
Lemma stagesThroughWidth_curR (e : Engine) :
  let through := stagesThroughWidth minimise rFactorAbs scaleGuess
                   guessBackgroundParameters guessPeakWidthParameter e in
  snd through = rFactorAbs (fst through).
Proof.
  unfold stagesThroughWidth.
  destruct (stageScale _ _ _ _ _) as [[e2 rsf2] r2].
  destruct (stageSpecimenDisplacement _ _ _ _) as [[e3 rsf3] r3].
  destruct (stageBackground _ _ _ _ _) as [[e4 rsf4] r4].
  destruct (stageBasis _ _ _ _ _) as [[e5 rsf5] r5].
  unfold stageWidth.
  destruct (runRefinement minimise rFactorAbs _) as [e6 r6].
  unfold runRefinement.
  destruct (minimise _ _ _) as [[pat b] sy].
  reflexivity.
Qed.

Lemma early_not_later (s : RefinementSet) :
  incl s earlyKinds -> forall x, In x laterKinds -> ~ In x s.
Proof.
  intros Hs x Hx Hin. apply Hs in Hin. cbn in Hx, Hin.
  intuition (subst; discriminate).
Qed.

(** Claim C7: when the R factor found after the width stage exceeds 0.9,
    rietveldRefinement returns the state reached at the end of that stage,
    and no call to runRefinement, from its entry to its return, was made
    with POSITIONS, TEXTURE, BFACTORS, UVFACTORS or ZEROSHIFT enabled; none
    of them is enabled in the state returned. *)
Theorem rietveldRefinement_divergence_guard (toRefine : RefinementSet) (e : Engine) :
  let through := stagesThroughWidth minimise rFactorAbs scaleGuess
                   guessBackgroundParameters guessPeakWidthParameter e in
  let result := rietveldRefinement minimise rFactorAbs scaleGuess
                  guessBackgroundParameters guessPeakWidthParameter toRefine e in
  0.9 < snd through ->
  result = fst through /\
  (forall x, In x laterKinds -> ~ In x (refiningOf result)) /\
  exists newCalls,
    calls result = calls e ++ newCalls /\
    Forall (fun s => forall x, In x laterKinds -> ~ In x s) newCalls.
Proof.
  intros through result Hr.
  assert (Hres : result = fst through).
  { unfold result, rietveldRefinement. fold through.
    destruct through as [e1 curR]. cbn [fst snd] in *.
    rewrite Rltb_true by assumption. reflexivity. }
  rewrite Hres.
  destruct (stagesThroughWidth_early e) as [Hk (newCalls & Hc & Hn)].
  fold through in Hk, Hc.
  split; [reflexivity |]. split.
  - apply early_not_later. assumption.
  - exists newCalls. split; [assumption |].
    eapply Forall_impl; [| exact Hn]. intros s. apply early_not_later.
Qed.

End DivergenceGuard.

(** A refinement whose optimiser leaves every parameter where it is and
    whose R factor is 1 throughout: the guard trips and the state after the
    width stage is returned. *)
Lemma rietveldRefinement_divergence_guard_witness :
  let minimise := fun (p : CalculatedPattern) (b : Basis.t) (s : Symmetry) => (p, b, s) in
  let rFactorAbs := fun _ : Refinement.Engine => 1 in
  let scaleGuess := fun _ : Refinement.Engine => 1 in
  let guessBackgroundParameters := fun _ : Refinement.Engine => @nil R in
  let guessPeakWidthParameter := fun _ : Refinement.Engine => 0.3 in
  let through := Refinement.stagesThroughWidth minimise rFactorAbs scaleGuess
                   guessBackgroundParameters guessPeakWidthParameter
                   Examples.idleEngine in
  0.9 < snd through /\
  Refinement.rietveldRefinement minimise rFactorAbs scaleGuess
    guessBackgroundParameters guessPeakWidthParameter
    [RF_BFACTORS; RF_POSITIONS] Examples.idleEngine
  = fst through.
Proof.
  intros minimise rFactorAbs scaleGuess guessBackgroundParameters
         guessPeakWidthParameter through.
  assert (H : 0.9 < snd through).
  { unfold through. rewrite stagesThroughWidth_curR. unfold rFactorAbs. lra. }
  split; [exact H |].
  exact (proj1 (rietveldRefinement_divergence_guard minimise rFactorAbs scaleGuess
                  guessBackgroundParameters guessPeakWidthParameter
                  [RF_BFACTORS; RF_POSITIONS] Examples.idleEngine H)).
Defined.

(** ** The steps of the processing of a raw pattern *)

Section ProcessingSteps.

Import Processing Baseline.

Lemma assign_length (i : nat) (x : R) (v : list R) : length (assign i x v) = length v.
Proof.
  revert i. induction v as [| a v IH]; intros [| i]; cbn [assign length]; try reflexivity.
  rewrite IH. reflexivity.
Qed.

Lemma forEach_preserves (P : list R -> Prop) (body : nat -> list R -> option (list R))
    (indices : list nat) :
  (forall i d, In i indices -> P d -> exists d', body i d = Some d' /\ P d') ->
  forall v, P v -> exists v', forEach body indices v = Some v' /\ P v'.
Proof.
  induction indices as [| i rest IH]; intros Hbody v Hv; cbn [forEach].
  - exists v. split; [reflexivity | assumption].
  - destruct (Hbody i v (or_introl eq_refl) Hv) as (d' & -> & Hd'). cbn [bind].
    apply IH; [| assumption]. intros j d Hj. apply Hbody. right. assumption.
Qed.

Lemma nth_error_within {A : Type} (l : list A) (i : nat) :
  (i < length l)%nat -> exists x, nth_error l i = Some x.
Proof.
  intros Hi. destruct (nth_error l i) as [x |] eqn:Hx; [exists x; reflexivity |].
  apply nth_error_None in Hx. lia.
Qed.

(* the sum of smoothData reads initialInt from startPoint to startPoint +
   numSmoothPoints - 1 *)
Lemma weightedSum_within (W X : list R) (s : nat) :
  (s + length W <= length X)%nat -> exists v, weightedSum W X s = Some v.
Proof.
  intros Hlen. unfold weightedSum.
  assert (Hgen : forall suf pre acc,
            W = pre ++ suf ->
            exists v,
              fold_left (fun acc j =>
                           a <- acc ;;
                           w <- nth_error W j ;;
                           x <- nth_error X (s + j) ;;
                           Some (a + w * x))
                        (seq (length pre) (length suf)) (Some acc) = Some v).
  { induction suf as [| w suf IH]; intros pre acc HW.
    - exists acc. reflexivity.
    - cbn [length seq fold_left bind].
      assert (HlenW : length W = (length pre + S (length suf))%nat).
      { rewrite HW, length_app. reflexivity. }
      destruct (nth_error_within W (length pre)) as (w' & ->); [lia |].
      destruct (nth_error_within X (s + length pre)) as (x & ->); [lia |].
      cbn [bind].
      destruct (IH (pre ++ [w]) (acc + w' * x)) as (v & Hv).
      + rewrite <- app_assoc. exact HW.
      + rewrite length_app in Hv. cbn [length] in Hv. rewrite Nat.add_1_r in Hv.
        exists v. exact Hv. }
  exact (Hgen W [] 0 eq_refl).
Qed.

Lemma smoothWeights_length (numPerSide : nat) (farWeight : R) :
  length (smoothWeights numPerSide farWeight) = (2 * numPerSide + 1)%nat.
Proof.
  unfold smoothWeights.
  rewrite length_map, !length_app, !length_map, length_rev, length_seq.
  cbn [length]. lia.
Qed.

(* smoothData goes through on numPerSide points or more *)
Lemma smoothData_length (rawTwoTheta rawIntensity : list R) (numPerSide : nat) (power : R) :
  (numPerSide <= length rawIntensity)%nat ->
  exists smoothed,
    smoothData rawTwoTheta rawIntensity numPerSide power = Some smoothed /\
    length smoothed = length rawIntensity.
Proof.
  intros Hn. unfold smoothData.
  replace (length rawIntensity <? numPerSide)%nat with false
    by (symmetry; apply Nat.ltb_ge; assumption).
  apply (forEach_preserves (fun d => length d = length rawIntensity)); [| reflexivity].
  intros i d Hi Hd. apply in_seq in Hi.
  destruct (weightedSum_within (smoothWeights numPerSide power) rawIntensity
              (i - numPerSide)) as (v & ->).
  { rewrite smoothWeights_length. lia. }
  cbn [bind]. eexists. split; [reflexivity |]. rewrite assign_length. assumption.
Qed.

(* both derivatives go through on two points or more, each with an
   intensity *)
Lemma getFirstDerivative_length (x y : list R) :
  (2 <= length x <= length y)%nat ->
  exists d, getFirstDerivative x y = Some d /\ length d = length x.
Proof.
  intros Hlen. unfold getFirstDerivative.
  destruct (nth_error_within x 1) as (x1 & ->); [lia |].
  destruct (nth_error_within x 0) as (x0 & ->); [lia |]. cbn [bind].
  destruct (nth_error_within (repeat 0 (length x)) 1) as (d1 & ->);
    [rewrite repeat_length; lia |].
  destruct (nth_error_within (repeat 0 (length x)) 0) as (d0 & ->);
    [rewrite repeat_length; lia |]. cbn [bind].
  destruct (forEach_preserves (fun d => length d = length x)
              (fun i d =>
                 yn <- nth_error y (i + 1) ;;
                 yp <- nth_error y (i - 1) ;;
                 Some (assign i ((yn - yp) / (2 * (x1 - x0))) d))
              (seq 1 (length x - 2))) with
    (v := assign 0 ((d1 - d0) / (2 * (x1 - x0)) * 2) (repeat 0 (length x)))
    as (d & -> & Hd).
  - intros i d Hi Hd. apply in_seq in Hi.
    destruct (nth_error_within y (i + 1)) as (yn & ->); [lia |].
    destruct (nth_error_within y (i - 1)) as (yp & ->); [lia |]. cbn [bind].
    eexists. split; [reflexivity |]. rewrite assign_length. assumption.
  - rewrite assign_length, repeat_length. reflexivity.
  - cbn [bind].
    destruct (nth_error_within d (length d - 1)) as (back & ->); [lia |].
    destruct (nth_error_within d (length d - 2)) as (prev & ->); [lia |]. cbn [bind].
    eexists. split; [reflexivity |]. rewrite assign_length. assumption.
Qed.

Lemma getSecondDerivative_length (x y : list R) :
  (2 <= length x <= length y)%nat ->
  exists d, getSecondDerivative x y = Some d /\ length d = length x.
Proof.
  intros Hlen. unfold getSecondDerivative.
  destruct (nth_error_within x 1) as (x1 & ->); [lia |].
  destruct (nth_error_within x 0) as (x0 & ->); [lia |]. cbn [bind].
  destruct (forEach_preserves (fun d => length d = length x)
              (fun i d =>
                 yn <- nth_error y (i + 1) ;;
                 yi <- nth_error y i ;;
                 yp <- nth_error y (i - 1) ;;
                 Some (assign i ((yn - 2 * yi + yp) / ((x1 - x0) * (x1 - x0))) d))
              (seq 1 (length x - 2))) with (v := repeat 0 (length x))
    as (d & -> & Hd).
  - intros i d Hi Hd. apply in_seq in Hi.
    destruct (nth_error_within y (i + 1)) as (yn & ->); [lia |].
    destruct (nth_error_within y i) as (yi & ->); [lia |].
    destruct (nth_error_within y (i - 1)) as (yp & ->); [lia |]. cbn [bind].
    eexists. split; [reflexivity |]. rewrite assign_length. assumption.
  - apply repeat_length.
  - cbn [bind].
    destruct (nth_error_within d 1) as (d1 & ->); [lia |]. cbn [bind].
    destruct (nth_error_within (assign 0 d1 d) (length (assign 0 d1 d) - 2)) as (prev & ->);
      [rewrite assign_length; lia |]. cbn [bind].
    eexists. split; [reflexivity |]. rewrite !assign_length. assumption.
Qed.

(* the conversion to int of a number from 0 to below 2^31 *)
Lemma toInt_within (x : R) :
  0 <= x < 2147483648 -> exists n, toInt x = Some n /\ (0 <= n)%Z.
Proof.
  intros [Hlo Hhi]. unfold toInt. rewrite (Rltb_false x 0) by lra.
  destruct (base_Int_part x) as [Hle Hgt].
  assert (H0 : (0 <= Int_part x)%Z).
  { apply Z.lt_succ_r. apply lt_IZR. rewrite succ_IZR. lra. }
  assert (H1 : (Int_part x <= 2147483647)%Z).
  { apply Z.lt_succ_r. apply lt_IZR. change (Z.succ 2147483647) with 2147483648%Z. lra. }
  exists (Int_part x). split; [| assumption].
  replace (-2147483648 <=? Int_part x)%Z with true by (symmetry; apply Z.leb_le; lia).
  replace (Int_part x <=? 2147483647)%Z with true by (symmetry; apply Z.leb_le; lia).
  reflexivity.
Qed.

Lemma fitWeight_positive (intensity : R) : 0 < fitWeight intensity.
Proof.
  unfold fitWeight. destruct (Rltb_cases 0 intensity) as [[H ->] | [H ->]].
  - assert (Hq : 0 < 1.0 / intensity) by (apply Rdiv_lt_0_compat; lra).
    assert (Hq2 : 0 < 1.0 / intensity * (1.0 / intensity)) by (apply Rmult_lt_0_compat; assumption).
    apply Rmult_lt_0_compat; assumption.
  - lra.
Qed.

(* with a pointsPerSide that is not negative, the average at a point of the
   signal runs over the point and its neighbours within the signal *)
Lemma backgroundAt_within (rawIntensity : list R) (pointsPerSide : Z) (point : nat) :
  (0 <= pointsPerSide)%Z -> (point < length rawIntensity)%nat ->
  exists b, backgroundAt rawIntensity pointsPerSide point = Some b.
Proof.
  intros Hpps Hpoint. unfold backgroundAt.
  set (toAverage := Z.min (Z.min (Z.of_nat point) pointsPerSide)
                          (Z.of_nat (length rawIntensity) - 1 - Z.of_nat point)).
  assert (Hta : (0 <= toAverage <= Z.of_nat point)%Z /\
                (toAverage <= Z.of_nat (length rawIntensity) - 1 - Z.of_nat point)%Z)
    by (unfold toAverage; lia).
  unfold neighbours.
  replace (toAverage <? 0)%Z with false by (symmetry; apply Z.ltb_ge; lia).
  set (k := Z.to_nat toAverage).
  assert (Hk : (k <= point)%nat /\ (point + k < length rawIntensity)%nat)
    by (unfold k; lia).
  clearbody k. clear Hta. clearbody toAverage.
  assert (Hgen : forall len start signal totalWeight,
            (start + len <= length rawIntensity)%nat -> 0 <= totalWeight ->
            exists s t,
              fold_left (fun acc i =>
                           '(signal, totalWeight) <- acc ;;
                           x <- nth_error rawIntensity i ;;
                           Some (signal + fitWeight x * x, totalWeight + fitWeight x))
                        (seq start len) (Some (signal, totalWeight)) = Some (s, t) /\
              totalWeight <= t /\ ((0 < len)%nat -> 0 < t)).
  { induction len as [| len IH]; intros start signal totalWeight Hb Ht.
    - exists signal, totalWeight. cbn [seq fold_left].
      split; [reflexivity |]. split; [lra | lia].
    - cbn [seq fold_left bind].
      destruct (nth_error_within rawIntensity start) as (x & ->); [lia |]. cbn [bind].
      pose proof (fitWeight_positive x) as Hw.
      destruct (IH (S start) (signal + fitWeight x * x) (totalWeight + fitWeight x))
        as (s & t & -> & Hle & _); [lia | lra |].
      exists s, t. split; [reflexivity |]. split; [lra |]. intros _. lra. }
  destruct (Hgen (2 * k + 1)%nat (point - k)%nat 0 0) as (s & t & -> & _ & Ht);
    [lia | lra |].
  cbn [bind]. rewrite (Reqb_false t 0) by (specialize (Ht ltac:(lia)); lra).
  eexists. reflexivity.
Qed.

Lemma mapM_within {A B : Type} (f : A -> option B) (l : list A) :
  (forall a, In a l -> exists b, f a = Some b) ->
  exists out, mapM f l = Some out /\ length out = length l.
Proof.
  induction l as [| a l IH]; intros Hf.
  - exists []. split; reflexivity.
  - cbn [mapM]. destruct (Hf a (or_introl eq_refl)) as (b & ->). cbn [bind].
    destruct IH as (out & -> & Hlen); [intros a' Ha'; apply Hf; right; assumption |].
    cbn [bind]. exists (b :: out). split; [reflexivity |]. cbn [length]. rewrite Hlen.
    reflexivity.
Qed.

(* removeBackground goes through when the second angle is above the first
   and the box holds fewer than 2^31 points *)
Lemma removeBackground_length (rawTwoTheta rawIntensity : list R) (t0 t1 : R)
    (rest : list R) :
  rawTwoTheta = t0 :: t1 :: rest ->
  t0 < t1 -> 4.0 / (t1 - t0) < 2147483648 ->
  exists cleaned,
    removeBackground rawTwoTheta rawIntensity = Some cleaned /\
    length cleaned = length rawIntensity.
Proof.
  intros -> Hlt Hbox. unfold removeBackground. cbn [nth_error bind].
  rewrite (Reqb_false (t1 - t0) 0) by lra.
  destruct (toInt_within (4.0 / (t1 - t0))) as (nPoints & -> & Hn).
  { split; [| assumption]. apply Rlt_le. apply Rdiv_lt_0_compat; lra. }
  cbn [bind].
  destruct (mapM_within (backgroundAt rawIntensity (nPoints ÷ 2))
              (seq 0 (length rawIntensity))) as (backgroundSignal & -> & Hb).
  { intros point Hp. apply in_seq in Hp. apply backgroundAt_within; [| lia].
    apply Z.quot_pos; lia. }
  cbn [bind]. eexists. split; [reflexivity |].
  rewrite length_map, length_combine, Hb, length_seq. apply Nat.min_id.
Qed.

(* on three measurements or more, each with an intensity, the second angle
   above the first and the box below 2^31 points, every step of the
   processing before [fitLocated] goes through *)
Lemma fitPeaks_reaches_fit
    (fitLocated : list R -> list R -> list R -> list R -> option (list (R * R)))
    (twoTheta intensity : list R) (t0 t1 : R) (rest : list R) :
  twoTheta = t0 :: t1 :: rest ->
  (3 <= length twoTheta <= length intensity)%nat ->
  t0 < t1 -> 4.0 / (t1 - t0) < 2147483648 ->
  exists cleaned firstDerivative secondDerivative,
    Experimental.fitPeaks fitLocated twoTheta intensity
    = fitLocated twoTheta cleaned firstDerivative secondDerivative.
Proof.
  intros Htt Hlen Hlt Hbox. unfold Experimental.fitPeaks.
  destruct (smoothData_length twoTheta intensity 2 0.25) as (smoothed & -> & Hs); [lia |].
  cbn [bind].
  destruct (removeBackground_length twoTheta smoothed t0 t1 rest Htt Hlt Hbox)
    as (cleaned & -> & Hc).
  cbn [bind].
  destruct (getFirstDerivative_length twoTheta cleaned) as (d1 & -> & Hd1); [lia |].
  cbn [bind].
  destruct (smoothData_length twoTheta d1 3 1.0) as (firstDerivative & -> & _); [lia |].
  cbn [bind].
  destruct (getSecondDerivative_length twoTheta cleaned) as (d2 & -> & Hd2); [lia |].
  cbn [bind].
  destruct (smoothData_length twoTheta d2 3 1.0) as (secondDerivative & -> & _); [lia |].
  cbn [bind].
  exists cleaned, firstDerivative, secondDerivative. reflexivity.
Qed.

End ProcessingSteps.

(** ** Processing a raw experimental pattern *)

Section ProcessingFailure.

Import Experimental.

Variable fitLocated : list R -> list R -> list R -> list R -> option (list (R * R)).

Lemma extractPeaks_rejected (minTwoTheta maxTwoTheta : R) (fitted : list (R * R)) :
  Exists (rejected minTwoTheta maxTwoTheta) fitted ->
  forall peaks, snd (extractPeaks minTwoTheta maxTwoTheta fitted peaks) = true.
Proof.
  induction fitted as [| [location intensity] rest IH]; intros Hex peaks.
  - inversion Hex.
  - cbn [extractPeaks].
    destruct (Rlt_dec intensity 0.0) as [Hi | Hi];
      [rewrite (Rltb_true _ _ Hi); reflexivity | rewrite (Rltb_false intensity 0.0) by lra].
    destruct (Rlt_dec location minTwoTheta) as [Hlo | Hlo];
      [rewrite (Rltb_true _ _ Hlo); reflexivity
      | rewrite (Rltb_false location minTwoTheta) by lra].
    destruct (Rlt_dec maxTwoTheta location) as [Hhi | Hhi];
      [rewrite (Rltb_true _ _ Hhi); reflexivity
      | rewrite (Rltb_false maxTwoTheta location) by lra].
    cbn [orb]. apply IH.
    inversion Hex as [x l Hrej | x l Hrest]; subst; [| assumption].
    unfold rejected in Hrej; cbn [fst snd] in Hrej. lra.
Qed.

(* reading a vector at every index below its size gives the vector *)
Lemma mapM_nth_error_from (l : list R) :
  forall prefix, mapM (nth_error (prefix ++ l)) (seq (length prefix) (length l)) = Some l.
Proof.
  induction l as [| x l IH]; intros prefix; [reflexivity |].
  cbn [length seq mapM].
  rewrite nth_error_app2 by lia. rewrite Nat.sub_diag. cbn [nth_error bind].
  specialize (IH (prefix ++ [x])).
  rewrite <- app_assoc, length_app in IH. cbn [app length] in IH.
  rewrite Nat.add_1_r in IH. rewrite IH. reflexivity.
Qed.

Lemma mapM_nth_error_all (l : list R) : mapM (nth_error l) (seq 0 (length l)) = Some l.
Proof. exact (mapM_nth_error_from l []). Qed.

Lemma alreadyProcessed_nil : alreadyProcessed [] = true.
Proof.
  unfold alreadyProcessed, spacing. rewrite (Reqb_true 0 0) by reflexivity.
  rewrite orb_true_r. reflexivity.
Qed.

(** Claim C8: when a raw pattern is processed and some fitted peak has a
    negative integrated intensity or its maximum outside the measured
    range, the pattern ends with no diffraction peak at all (those pushed
    before the failing one included), while the sorted raw angles and
    intensities stay stored and are what getMeasurementAngles and
    getMeasuredIntensities return.  The fitted peaks are those the
    processing of the sorted data arrives at. *)
Theorem set_raw_discards_all_peaks
    (e : ExperimentalPattern) (twoTheta intensity : list R) (fitted : list (R * R)) :
  let pairs := sortBy pairLt (combine twoTheta intensity) in
  let sortedTwoTheta := map fst pairs in
  let sortedIntensity := map snd pairs in
  (length twoTheta <= length intensity)%nat ->
  alreadyProcessed sortedTwoTheta = false ->
  fitPeaks fitLocated sortedTwoTheta (sortedIntensity ++ skipn (length twoTheta) intensity)
  = Some fitted ->
  Exists (rejected (lowestAngle sortedTwoTheta) (highestAngle sortedTwoTheta)) fitted ->
  exists e',
    set fitLocated e twoTheta intensity = Some e' /\
    _diffractionPeaks e' = [] /\
    _type (expBase e') = PT_EXP_RAW /\
    _continuousTwoTheta e' = sortedTwoTheta /\
    _continuousIntensity e' = sortedIntensity /\
    getMeasurementAngles e' = Some sortedTwoTheta /\
    getMeasuredIntensities e' = Some sortedIntensity.
Proof.
  intros pairs sortedTwoTheta sortedIntensity Hlen Hraw Hfit Hrej.
  unfold set. fold pairs. fold sortedIntensity. fold sortedTwoTheta.
  replace (length intensity <? length twoTheta)%nat with false
    by (symmetry; apply Nat.ltb_ge; assumption).
  rewrite Hraw. unfold setRaw.
  destruct sortedTwoTheta as [| t0 rest] eqn:Htt.
  { rewrite alreadyProcessed_nil in Hraw. discriminate. }
  rewrite Hfit. cbn [bind].
  cbn [lowestAngle highestAngle] in Hrej.
  unfold getPeakIntensities.
  cbn [setDiffractionPeaks expBase setTypeAndWindow _minTwoTheta _maxTwoTheta
       _diffractionPeaks].
  pose proof (extractPeaks_rejected _ _ _ Hrej []) as Hthrow.
  destruct (extractPeaks _ _ _ []) as [peaks thrown].
  cbn [snd] in Hthrow. subst thrown.
  eexists. split; [reflexivity |].
  unfold getMeasurementAngles, getMeasuredIntensities.
  cbn [setDiffractionPeaks _diffractionPeaks expBase setTypeAndWindow _type
       _continuousTwoTheta _continuousIntensity].
  assert (Hstored :
    firstn (length (t0 :: rest))
      (sortedIntensity ++ skipn (length twoTheta) intensity) = sortedIntensity).
  { rewrite <- Htt. unfold sortedTwoTheta, sortedIntensity.
    rewrite length_map, <- (length_map snd pairs).
    rewrite firstn_app, Nat.sub_diag, firstn_all. cbn [firstn]. apply app_nil_r. }
  rewrite Hstored.
  assert (Hsame : length (t0 :: rest) = length sortedIntensity).
  { rewrite <- Htt. unfold sortedTwoTheta, sortedIntensity. rewrite !length_map. reflexivity. }
  rewrite Hsame.
  destruct sortedIntensity as [| i0 irest] eqn:Hii; [discriminate Hsame |].
  rewrite <- Hii. repeat split. apply mapM_nth_error_all.
Qed.

End ProcessingFailure.

(* the steps of the processing that come before [fitLocated] go through on
   the three measurements (10, 1), (11, 5), (12, 1) *)
Lemma fitPeaks_three_measurements
    (fitLocated : list R -> list R -> list R -> list R -> option (list (R * R)))
    (fitted : list (R * R)) :
  (forall rawTwoTheta rawIntensity firstDerivative secondDerivative,
     fitLocated rawTwoTheta rawIntensity firstDerivative secondDerivative = Some fitted) ->
  Experimental.fitPeaks fitLocated [10; 11; 12] [1; 5; 1] = Some fitted.
Proof.
  intros Hfit.
  destruct (fitPeaks_reaches_fit fitLocated [10; 11; 12] [1; 5; 1] 10 11 [12])
    as (cleaned & firstDerivative & secondDerivative & ->);
    [reflexivity | cbn [length]; lia | lra | lra | apply Hfit].
Qed.

(** A raw pattern measured at 10, 11 and 12 degrees whose fit gives a first
    peak that passes the checks and a second one of negative intensity:
    both are gone. *)
Lemma set_raw_discards_all_peaks_witness :
  let fitLocated := fun _ _ _ _ : list R => Some [(11, 4); (11.5, -1)] in
  exists e',
    Experimental.set fitLocated Examples.emptyPattern [10; 11; 12] [1; 5; 1] = Some e' /\
    _diffractionPeaks e' = [] /\
    _type (expBase e') = PT_EXP_RAW /\
    _continuousTwoTheta e' = [10; 11; 12] /\
    _continuousIntensity e' = [1; 5; 1] /\
    Experimental.getMeasurementAngles e' = Some [10; 11; 12] /\
    Experimental.getMeasuredIntensities e' = Some [1; 5; 1].
Proof.
  intros fitLocated.
  assert (Hsort : sortBy pairLt (combine [10; 11; 12] [1; 5; 1])
                  = [(10, 1); (11, 5); (12, 1)]).
  { repeat (cbn [sortBy fold_right insertSorted combine]; unfold pairLt;
            cbn [fst snd]; rcmp; cbn [orb andb negb]).
    reflexivity. }
  pose proof (set_raw_discards_all_peaks fitLocated Examples.emptyPattern
                [10; 11; 12] [1; 5; 1] [(11, 4); (11.5, -1)]) as H.
  cbv zeta in H. rewrite Hsort in H. cbn [map fst snd] in H.
  apply H.
  - cbn. lia.
  - unfold Experimental.alreadyProcessed.
    repeat (cbn [Experimental.spacing Experimental.spacingLoop length]; rcmp).
    cbn [orb andb]. reflexivity.
  - apply fitPeaks_three_measurements. reflexivity.
  - apply Exists_cons_tl, Exists_cons_hd.
    left. cbn [snd]. lra.
Defined.

(** ** Reflections with a negative Caglioti term *)

Section NegativeWidth.

Import Profile.

(* no element compares below not-a-number: the search stays at [first] *)
Lemma lowerBoundLoop_NaN (twoTheta : list R) (fuel first len : nat) :
  lowerBoundLoop twoTheta NaN fuel first len = first.
Proof.
  revert first len. induction fuel as [| fuel IH]; intros first len; [reflexivity |].
  cbn [lowerBoundLoop]. destruct (len =? 0)%nat; [reflexivity |].
  cbn [dlt]. apply IH.
Qed.

Lemma nth_error_1 (twoTheta : list R) :
  (2 <= length twoTheta)%nat -> exists t, nth_error twoTheta 1 = Some t.
Proof.
  destruct twoTheta as [| t0 [| t1 rest]]; cbn; intros H; try lia.
  exists t1. reflexivity.
Qed.

(* the pass of the loop for such a reflection leaves the output as it is *)
Lemma peakSignal_negative_width (pat : CalculatedPattern) (twoTheta : list R)
    (output : list double) (refl : CalculatedPeak) :
  (2 <= length twoTheta)%nat ->
  caglioti pat refl < 0 ->
  peakSignal pat twoTheta output refl = Some output.
Proof.
  intros Hlen Hneg. unfold peakSignal, dsqrt.
  rewrite (Rltb_true _ _ Hneg).
  cbn [dmul dsub dadd lift2 dge].
  unfold lower_bound. rewrite lowerBoundLoop_NaN.
  destruct (nth_error_1 twoTheta Hlen) as [t Ht].
  destruct twoTheta as [| t0 rest]; [cbn in Hlen; lia |].
  cbn [length skipBelow]. rewrite Ht. cbn [dlt bind addProfile].
  rewrite Ht. cbn [dlt andb]. reflexivity.
Qed.

Lemma peakLoop_negative_width (pat : CalculatedPattern) (twoTheta : list R)
    (pre post : list CalculatedPeak) (bad : CalculatedPeak) :
  (2 <= length twoTheta)%nat ->
  caglioti pat bad < 0 ->
  forall output,
    peakLoop pat twoTheta (pre ++ bad :: post) output
    = peakLoop pat twoTheta (pre ++ post) output.
Proof.
  intros Hlen Hneg. induction pre as [| r pre IH]; intros output.
  - cbn [app peakLoop]. rewrite peakSignal_negative_width by assumption. reflexivity.
  - cbn [app peakLoop]. destruct (peakSignal pat twoTheta output r); [apply IH | reflexivity].
Qed.

(* the pass for one reflection reads the pattern's parameters, not its list
   of reflections *)
Lemma peakLoop_setReflections (pat : CalculatedPattern) (twoTheta : list R)
    (stored reflections : list CalculatedPeak) (output : list double) :
  peakLoop (setReflections stored pat) twoTheta reflections output
  = peakLoop pat twoTheta reflections output.
Proof.
  revert output. induction reflections as [| r rest IH]; intros output; [reflexivity |].
  cbn [peakLoop].
  change (peakSignal (setReflections stored pat) twoTheta output r)
    with (peakSignal pat twoTheta output r).
  destruct (peakSignal pat twoTheta output r); [apply IH | reflexivity].
Qed.

(* Where the grid has two angles or more, a reflection whose Caglioti term
   is negative adds nothing to the synthesized profile: its pass through
   generatePeakSignal leaves every entry of the output as it was, and the
   intensities returned by generatePeakSignal and by getDiffractedIntensity
   are those obtained without that reflection (the other reflections and
   the background contribute as before).  The second angle of the grid is
   read whatever the grid holds. *)
Lemma negative_width_peak_skipped (pat : CalculatedPattern) (twoTheta : list R)
    (pre post : list CalculatedPeak) (bad : CalculatedPeak) :
  (2 <= length twoTheta)%nat ->
  cos (getAngleRadians (base bad) / 2) <> 0 ->
  caglioti pat bad < 0 ->
  (forall output, peakSignal pat twoTheta output bad = Some output) /\
  generatePeakSignal (setReflections (pre ++ bad :: post) pat) twoTheta
  = generatePeakSignal (setReflections (pre ++ post) pat) twoTheta /\
  getDiffractedIntensity (setReflections (pre ++ bad :: post) pat) twoTheta
  = getDiffractedIntensity (setReflections (pre ++ post) pat) twoTheta.
Proof.
  intros Hlen _ Hneg.
  assert (Hsig :
    generatePeakSignal (setReflections (pre ++ bad :: post) pat) twoTheta
    = generatePeakSignal (setReflections (pre ++ post) pat) twoTheta).
  { unfold generatePeakSignal. cbn [setReflections _reflections].
    rewrite !peakLoop_setReflections.
    apply peakLoop_negative_width; assumption. }
  split; [| split].
  - intros output. apply peakSignal_negative_width; assumption.
  - exact Hsig.
  - unfold getDiffractedIntensity. rewrite Hsig. reflexivity.
Qed.


End NegativeWidth.

(* the angle of 15 degrees is away from the pole of the tangent *)
Lemma cos_half_15 : cos (getAngleRadians (base (Examples.reflectionAt 15)) / 2) <> 0.
Proof.
  cbn [Examples.reflectionAt base newDiffractionPeak getAngleRadians twoThetaRad].
  unfold toRadians. pose proof PI_RGT_0 as Hpi.
  apply Rgt_not_eq. apply cos_gt_0; lra.
Qed.

Lemma caglioti_negativeWidth (reflections : list CalculatedPeak) (refl : CalculatedPeak) :
  Profile.caglioti (Examples.negativeWidth reflections) refl < 0.
Proof.
  unfold Profile.caglioti.
  cbn [Examples.negativeWidth Refinement.setW Examples.calculatedPattern W V U].
  lra.
Qed.

(** With U = V = 0 and W = -1 every reflection has a negative Caglioti
    term.  On the grid 10, 20 the profile of the pattern with one
    reflection at 15 degrees is the profile of the pattern with none. *)
Lemma negative_width_peak_skipped_witness :
  Profile.getDiffractedIntensity
    (setReflections [Examples.reflectionAt 15] (Examples.negativeWidth [])) [10; 20]
  = Profile.getDiffractedIntensity
      (setReflections [] (Examples.negativeWidth [])) [10; 20].
Proof.
  apply (negative_width_peak_skipped (Examples.negativeWidth []) [10; 20] [] []
           (Examples.reflectionAt 15)).
  - cbn. lia.
  - exact cos_half_15.
  - apply caglioti_negativeWidth.
Defined.

(** The profile in question exists and is zero at both angles. *)
Lemma negative_width_profile_value :
  Profile.getDiffractedIntensity
    (setReflections [] (Examples.negativeWidth [])) [10; 20]
  = Some [Profile.dadd (Profile.Fin 0) (Profile.Fin 0);
          Profile.dadd (Profile.Fin 0) (Profile.Fin 0)].
Proof. reflexivity. Qed.


(** ** Sorting *)

Section SortingProperties.

Context {A : Type}.
Variable lt : A -> A -> bool.
Hypothesis lt_asym : forall a b, lt a b = true -> lt b a = false.

(* ascending for [operator<]: the next element is not below the previous one *)
Let ascending (a b : A) : Prop := lt b a = false.

Lemma insertSorted_perm (x : A) (l : list A) : Permutation (insertSorted lt x l) (x :: l).
Proof.
  induction l as [| y r IH]; [reflexivity |].
  cbn [insertSorted]. destruct (lt y x); [| reflexivity].
  rewrite IH. apply perm_swap.
Qed.

Lemma sortBy_perm (l : list A) : Permutation (sortBy lt l) l.
Proof.
  induction l as [| x l IH]; [reflexivity |].
  cbn [sortBy fold_right]. rewrite insertSorted_perm. constructor. exact IH.
Qed.

Lemma sortBy_In (l : list A) (x : A) : In x (sortBy lt l) <-> In x l.
Proof.
  split; apply Permutation_in; [| symmetry]; apply sortBy_perm.
Qed.

Lemma insertSorted_hd (x a : A) (l : list A) :
  ascending a x -> HdRel ascending a l -> HdRel ascending a (insertSorted lt x l).
Proof.
  intros Hax Hl. destruct l as [| y r]; cbn [insertSorted].
  - constructor. exact Hax.
  - destruct (lt y x); constructor; [inversion Hl; assumption | exact Hax].
Qed.

Lemma insertSorted_sorted (x : A) (l : list A) :
  Sorted ascending l -> Sorted ascending (insertSorted lt x l).
Proof.
  induction l as [| y r IH]; intros Hs; cbn [insertSorted].
  - repeat constructor.
  - inversion Hs as [| ? ? Hr Hhd]; subst.
    destruct (lt y x) eqn:Hyx.
    + constructor; [apply IH; assumption |].
      apply insertSorted_hd; [| assumption].
      unfold ascending. apply lt_asym. exact Hyx.
    + constructor; [assumption |]. constructor. exact Hyx.
Qed.

Lemma sortBy_sorted (l : list A) : Sorted ascending (sortBy lt l).
Proof.
  induction l as [| x l IH]; [constructor |].
  cbn [sortBy fold_right]. apply insertSorted_sorted. exact IH.
Qed.

End SortingProperties.

Lemma Sorted_weaken {A : Type} (P Q : A -> A -> Prop) (l : list A) :
  (forall a b, P a b -> Q a b) -> Sorted P l -> Sorted Q l.
Proof.
  intros HPQ Hs. induction Hs as [| a l Hs IH Hhd]; constructor; [exact IH |].
  destruct Hhd; constructor. apply HPQ. assumption.
Qed.

Lemma calcPeakLt_asym (a b : CalculatedPeak) :
  calcPeakLt a b = true -> calcPeakLt b a = false.
Proof.
  unfold calcPeakLt, peakLt. intros H. apply Rltb_lt in H. apply Rltb_false. lra.
Qed.

(* every place of the sorted vector holds, for the members operator=
   copies, one of the reflections that were sorted *)
Lemma sortReflections_In (l : list CalculatedPeak) (p : CalculatedPeak) :
  In p (sortReflections l) -> exists place s, In s l /\ p = assignPeak place s.
Proof.
  unfold sortReflections. intros Hp. apply in_map_iff in Hp.
  destruct Hp as ([place s] & <- & Hin). apply in_combine_r in Hin.
  exists place, s. split; [| reflexivity].
  exact (proj1 (sortBy_In calcPeakLt l s) Hin).
Qed.

Lemma combine_In_r {A B : Type} (l : list A) (r : list B) (x : B) :
  (length r <= length l)%nat -> In x r -> exists a, In (a, x) (combine l r).
Proof.
  revert l. induction r as [| y r IH]; intros l Hlen Hx; [destruct Hx |].
  destruct l as [| a l]; [cbn in Hlen; lia |].
  cbn [combine]. destruct Hx as [-> | Hx].
  - exists a. left. reflexivity.
  - destruct (IH l) as [a' Ha']; [cbn in Hlen; lia | exact Hx |].
    exists a'. right. exact Ha'.
Qed.

(* and every reflection that was sorted is in some place *)
Lemma sortReflections_keeps (l : list CalculatedPeak) (s : CalculatedPeak) :
  In s l -> exists place, In (assignPeak place s) (sortReflections l).
Proof.
  intros Hs. apply (proj2 (sortBy_In calcPeakLt l s)) in Hs.
  destruct (combine_In_r l (sortBy calcPeakLt l) s) as [place Hplace].
  - rewrite (Permutation_length (sortBy_perm calcPeakLt l)). lia.
  - exact Hs.
  - exists place. unfold sortReflections.
    apply (in_map (fun place => assignPeak (fst place) (snd place))) in Hplace.
    exact Hplace.
Qed.

Lemma assign_sorted (R : CalculatedPeak -> CalculatedPeak -> Prop) (sorted : list CalculatedPeak) :
  (forall t a b u, R a b -> R (assignPeak t a) (assignPeak u b)) ->
  Sorted R sorted ->
  forall l, Sorted R (map (fun place => assignPeak (fst place) (snd place))
                          (combine l sorted)).
Proof.
  intros HR Hs. induction Hs as [| a r Hs IH Hhd]; intros l.
  - destruct l; constructor.
  - destruct l as [| t l]; [constructor |].
    cbn [combine map fst snd]. constructor; [apply IH |].
    destruct Hhd as [| b r' Hab]; [destruct l; constructor |].
    destruct l as [| u l]; [constructor |].
    cbn [combine map fst snd]. constructor. apply HR. exact Hab.
Qed.

(** ** The peak enumerator *)

Section EnumeratorProperties.

Import Enumerator.

Variable ceil : R -> R.
Variable round1 : R -> R.
Variable intrinsicTranslation : Matrix3D -> Vector3D -> Vector3D.

(* the list of equivalent points only grows *)
Lemma equivalentPoints_length (redHKL : Vector3D) (ops : list Matrix3D) :
  forall mult points,
    (length points <= length (snd (equivalentPoints round1 redHKL ops mult points)))%nat.
Proof.
  induction ops as [| op rest IH]; intros mult points; cbn [equivalentPoints snd].
  - lia.
  - destruct (sortsBefore _ _); [cbn [snd]; lia |].
    destruct (existsb _ points); [apply IH |].
    specialize (IH (S mult) (points ++ [roundVector round1 (mulMV op redHKL)])).
    rewrite length_app in IH. cbn [length] in IH. lia.
Qed.

(* the angle stored in a new peak is the angle tested against the window *)
Lemma newCalculatedPeak_angle (m : Method) (basis : Basis.t) (wl : R)
    (h : Vector3D) (equiv : list Vector3D) :
  TwoThetaDeg (base (Peak.newCalculatedPeak m basis wl h equiv)) = twoThetaOf basis wl h.
Proof.
  cbn [Peak.newCalculatedPeak Peak.updatePeakPosition base TwoThetaDeg hkl wavelength].
  unfold twoThetaOf, toDegrees. pose proof PI_neq0. field. assumption.
Qed.

(* what holds of every peak pushed for one reduced hkl *)
Lemma visit_spec (d : Diffraction) (basis : Basis.t) (symmetry : Symmetry)
    (redHKL : Vector3D) (p : CalculatedPeak) :
  In p (visit round1 intrinsicTranslation d basis symmetry redHKL) ->
  _minTwoTheta d <= TwoThetaDeg (base p) <= _maxTwoTheta d /\
  multiplicity p = INR (length (equivHKL p)) /\
  (1 <= length (equivHKL p))%nat.
Proof.
  unfold visit.
  pose proof (equivalentPoints_length redHKL (reducedOperations basis symmetry)
                1%nat [redHKL]) as Hlen.
  destruct (equivalentPoints round1 redHKL _ 1 [redHKL]) as [mult points].
  cbn [snd length] in Hlen.
  destruct (mult =? 0)%nat; [intros [] |].
  destruct (Rltb (twoThetaOf _ _ _) _) eqn:Hlo; [intros [] |].
  destruct (Rltb _ (twoThetaOf _ _ _)) eqn:Hhi; [intros [] |].
  cbn [orb]. intros [<- | []].
  apply Rltb_ge in Hlo, Hhi.
  rewrite newCalculatedPeak_angle.
  cbn [Peak.newCalculatedPeak Peak.updatePeakPosition multiplicity equivHKL].
  rewrite length_map. repeat split; try assumption.
Qed.

(** Claim C5: every reflection stored by calculatePeakLocations has its
    angle two_theta_deg within [theta_min, theta_max] and a multiplicity
    equal to the number of its equivalent hkl, which is at least 1; the
    list of reflections is in ascending order of two_theta_deg. *)
Theorem calculatePeakLocations_window_and_order
    (d : Diffraction) (basis : Basis.t) (symmetry : Symmetry) :
  let reflections :=
    calculatePeakLocations ceil round1 intrinsicTranslation d basis symmetry in
  Forall (fun p =>
            _minTwoTheta d <= TwoThetaDeg (base p) <= _maxTwoTheta d /\
            multiplicity p = INR (length (equivHKL p)) /\
            (1 <= length (equivHKL p))%nat)
         reflections /\
  Sorted (fun a b => TwoThetaDeg (base a) <= TwoThetaDeg (base b)) reflections.
Proof.
  intros reflections. split.
  - apply Forall_forall. intros p Hp.
    unfold reflections, calculatePeakLocations in Hp.
    apply sortReflections_In in Hp. destruct Hp as (place & s & Hs & ->).
    apply in_flat_map in Hs. destruct Hs as (redHKL & _ & Hs).
    exact (visit_spec d basis symmetry redHKL s Hs).
  - unfold reflections, calculatePeakLocations, sortReflections.
    apply assign_sorted; [intros t a b u H; exact H |].
    eapply Sorted_weaken; [| apply (sortBy_sorted calcPeakLt calcPeakLt_asym)].
    intros a b H. unfold calcPeakLt, peakLt in H. cbv beta in H.
    apply Rltb_ge in H. exact H.
Qed.

(** Claim C6: a reduced hkl of the enumeration that is the canonical
    representative of its orbit (mult is not 0) and whose angle lies in the
    window is stored as a reflection even when the systematic-absence test
    finds it absent: some place of the sorted vector holds what operator=
    copies of the new peak, that is its hkl, equivalent hkl, angles,
    multiplicity and Lorentz factor.  The enumerator has no other test; the
    intensity of a stored reflection is the product of its squared structure
    factor with the other factors, so a zero structure factor is what
    reports it with intensity 0. *)
Theorem calculatePeakLocations_keeps_absences
    (d : Diffraction) (basis : Basis.t) (symmetry : Symmetry)
    (redHKL : Vector3D) (mult : nat) (equivPoints : list Vector3D) :
  let convHKL := transpose (Basis.unitPointToReduced basis) in
  let unitHKL := mulMV convHKL redHKL in
  let newPeak :=
    Peak.newCalculatedPeak (_method d) basis (_wavelength d) unitHKL
      (map (mulMV convHKL) equivPoints) in
  let reflections :=
    calculatePeakLocations ceil round1 intrinsicTranslation d basis symmetry in
  In redHKL (reducedGrid ceil basis (_maxTwoTheta d) (_wavelength d)) ->
  equivalentPoints round1 redHKL (reducedOperations basis symmetry) 1 [redHKL]
  = (mult, equivPoints) ->
  mult <> 0%nat ->
  _minTwoTheta d <= twoThetaOf basis (_wavelength d) unitHKL <= _maxTwoTheta d ->
  systematicAbsence round1 intrinsicTranslation symmetry unitHKL = true ->
  (exists place, In (assignPeak place newPeak) reflections) /\
  forall stored BFactors atfParams preferredOrientation texturingStrength,
    In stored reflections ->
    Peak.structureFactorSquared (method stored) (wavelength stored) symmetry
      (twoThetaRad (base stored) / 2) (hkl stored) BFactors atfParams = 0 ->
    peakIntensity
      (base (Peak.updateCalculatedIntensity symmetry BFactors atfParams
               preferredOrientation texturingStrength stored)) = 0.
Proof.
  intros convHKL hkl0 newPeak reflections Hgrid Hequiv Hmult [Hlo Hhi] Habsent. split.
  - unfold reflections, calculatePeakLocations. apply sortReflections_keeps.
    apply in_flat_map.
    exists redHKL. split; [exact Hgrid |].
    unfold visit. rewrite Hequiv.
    replace (mult =? 0)%nat with false by (symmetry; apply Nat.eqb_neq; exact Hmult).
    fold convHKL. fold hkl0.
    rewrite (Rltb_false _ _ Hlo), (Rltb_false _ _ Hhi). cbn [orb].
    left. reflexivity.
  - intros stored BFactors atfParams preferredOrientation texturingStrength _ Hzero.
    unfold Peak.updateCalculatedIntensity.
    cbn [Peak.setIntensity base peakIntensity].
    rewrite Hzero. ring.
Qed.

(* the loop for (x = -range; x <= range; ++x) passes through -range + k
   for every k with k <= 2 range *)
Lemma loopValues_In (range : R) (k : nat) :
  0 <= range -> INR k <= 2 * range -> In (- range + INR k) (loopValues range).
Proof.
  intros Hr Hk. unfold loopValues. rewrite Rleb_true by lra.
  apply (in_map (fun k => - range + INR k)). apply in_seq. split; [lia |]. cbn [plus].
  destruct (base_Int_part (2 * range)) as [Hfloor Hfrac].
  assert (Hz : (Z.of_nat k < Int_part (2 * range) + 1)%Z).
  { apply lt_IZR. rewrite plus_IZR, <- INR_IZR_INZ. lra. }
  lia.
Qed.

End EnumeratorProperties.

Section EnumeratorExample.

Import Enumerator Examples.

Lemma Int_part_IZR (z : Z) : Int_part (IZR z) = z.
Proof. symmetry. apply Int_part_spec. lra. Qed.

Lemma mulMV_identity (v : Vector3D) : mulMV identity v = v.
Proof. destruct v as [x y z]. unfold mulMV, identity, dot; cbn. f_equal; ring. Qed.

Lemma transpose_identity : transpose identity = identity.
Proof. reflexivity. Qed.

Lemma det_identity : det identity = 1.
Proof. unfold det, identity, cross, dot; cbn. ring. Qed.

Lemma inverse_identity : inverse identity = identity.
Proof.
  unfold inverse. rewrite det_identity.
  unfold transpose, col0, col1, col2, scaleV, cross, identity; cbn.
  repeat f_equal; field.
Qed.

Lemma mulMM_identity (m : Matrix3D) : mulMM identity m = m.
Proof.
  destruct m as [[a b c] [d e f] [g h i]].
  unfold mulMM, identity, dot, col0, col1, col2; cbn. repeat f_equal; ring.
Qed.

Lemma matEqb_refl (m : Matrix3D) : matEqb m m = true.
Proof.
  unfold matEqb, vecEqb. rewrite !Reqb_true by reflexivity. reflexivity.
Qed.

(* the identity is the only operation, and it is removed *)
Lemma reducedOperations_halvedCell : reducedOperations unitBasis halvedCell = [].
Proof.
  unfold reducedOperations. cbn [Basis.unitToReduced unitBasis operations halvedCell map rotation].
  rewrite transpose_identity, inverse_identity, !mulMM_identity, transpose_identity.
  cbn [removeIdentity]. rewrite matEqb_refl. reflexivity.
Qed.

Lemma magnitude_unit_x : magnitude (vec3 1 0 0) = 1.
Proof. unfold magnitude, dot; cbn. replace (_ + _ + _) with 1 by ring. apply sqrt_1. Qed.
Lemma magnitude_unit_y : magnitude (vec3 0 1 0) = 1.
Proof. unfold magnitude, dot; cbn. replace (_ + _ + _) with 1 by ring. apply sqrt_1. Qed.
Lemma magnitude_unit_z : magnitude (vec3 0 0 1) = 1.
Proof. unfold magnitude, dot; cbn. replace (_ + _ + _) with 1 by ring. apply sqrt_1. Qed.

(* the hkl range along an axis of the unit cell, for the window ending at
   180 degrees at wavelength 2 *)
Lemma hklRange_unit (vec : Vector3D) :
  magnitude vec = 1 -> hklRange ceiling 180 2 vec = 1.
Proof.
  intros Hm. unfold hklRange, toRadians. rewrite Hm.
  replace (180 / 2 * PI / 180) with (PI / 2) by field.
  rewrite sin_PI2. unfold ceiling.
  replace (- (2 * 1 / 2 / 1)) with (IZR (-1)) by (simpl; field).
  rewrite Int_part_IZR.
  replace (- IZR (-1)) with 1 by (simpl; ring).
  apply Rabs_pos_eq. lra.
Qed.

Lemma reducedGrid_100 : In (vec3 1 0 0) (reducedGrid ceiling unitBasis 180 2).
Proof.
  unfold reducedGrid. cbn [Basis.reducedInverse unitBasis].
  rewrite (hklRange_unit (col0 identity) magnitude_unit_x).
  rewrite (hklRange_unit (col1 identity) magnitude_unit_y).
  rewrite (hklRange_unit (col2 identity) magnitude_unit_z).
  replace (vec3 1 0 0) with (vec3 (- (1) + INR 2) (- (1) + INR 1) (- (1) + INR 1))
    by (cbn [INR]; f_equal; ring).
  apply in_flat_map. exists (- (1) + INR 2).
  split; [apply loopValues_In; cbn [INR]; lra |].
  apply in_flat_map. exists (- (1) + INR 1).
  split; [apply loopValues_In; cbn [INR]; lra |].
  apply (in_map (fun l => vec3 (- (1) + INR 2) (- (1) + INR 1) l)).
  apply loopValues_In; cbn [INR]; lra.
Qed.

Lemma twoThetaOf_100 : twoThetaOf unitBasis 2 (mulMV identity (vec3 1 0 0)) = 180.
Proof.
  unfold twoThetaOf, Peak.getDiffractionAngle. rewrite mulMV_identity.
  rewrite asinArgument_100. replace (2 / 2) with 1 by field.
  rewrite !Rleb_true by lra. cbn [andb]. rewrite asin_1.
  unfold toDegrees. pose proof PI_neq0. field. assumption.
Qed.

Lemma systematicAbsence_100 :
  systematicAbsence nearest (fun _ t => t) halvedCell (mulMV identity (vec3 1 0 0)) = true.
Proof.
  unfold systematicAbsence.
  cbn [operations halvedCell existsb rotation translations].
  rewrite !mulMV_identity. cbn [vx vy vz].
  rewrite !(Rltb_false 1e-4) by (rewrite Rminus_diag, Rabs_R0; lra).
  cbn [orb].
  replace (dot (vec3 (1 / 2) 0 0) (vec3 1 0 0)) with (/ 2)
    by (unfold dot; cbn; field).
  unfold nearest.
  replace (/ 2 + / 2) with (IZR 1) by (simpl; field).
  rewrite Int_part_IZR.
  rewrite Rltb_true; [reflexivity |].
  rewrite Rabs_pos_eq; lra.
Qed.

(** In the unit cubic cell with a translation by half an edge along a, the
    reflection (1 0 0) is a systematic absence; it lies in the window at
    two_theta = 180 degrees and is stored by calculatePeakLocations. *)
Lemma calculatePeakLocations_keeps_absences_witness :
  exists place,
    In (assignPeak place
          (Peak.newCalculatedPeak DM_XRAY unitBasis 2 (mulMV identity (vec3 1 0 0))
             (map (mulMV identity) [vec3 1 0 0])))
       (calculatePeakLocations ceiling nearest (fun _ t => t) wideWindow unitBasis
          halvedCell).
Proof.
  apply (proj1 (calculatePeakLocations_keeps_absences ceiling nearest (fun _ t => t)
                  wideWindow unitBasis halvedCell (vec3 1 0 0) 1 [vec3 1 0 0]
                  reducedGrid_100
                  ltac:(rewrite reducedOperations_halvedCell; reflexivity)
                  ltac:(discriminate)
                  ltac:(cbn [wideWindow _wavelength _minTwoTheta _maxTwoTheta
                             Basis.unitPointToReduced unitBasis];
                        rewrite transpose_identity, twoThetaOf_100; lra)
                  systematicAbsence_100)).
Defined.

End EnumeratorExample.

(** ** The squared structure factor *)

Section StructureFactor.

Import Transform.

(* the two loops with the two factors of an orbit left free; [factors i] is
   the product of the scattering and thermal factors of orbit [i] *)
Lemma addAtom_product (h : Vector3D) (f t : R) (acc : R * R) (a : Atom) :
  Peak.addAtom h f t acc a
  = (fst acc + f * t * occupancy a * cos (2 * PI * dot h (fractional a)),
     snd acc + f * t * occupancy a * sin (2 * PI * dot h (fractional a))).
Proof. reflexivity. Qed.

Lemma fold_addAtom_vacant (h : Vector3D) (f t : R) (l : list Atom) (acc : R * R) :
  Forall (fun a => occupancy a = 0) l ->
  fold_left (Peak.addAtom h f t) l acc = acc.
Proof.
  intros Hl. revert acc. induction Hl as [| a l Ha Hl IH]; intros acc; [reflexivity |].
  cbn [fold_left]. rewrite addAtom_product, Ha.
  replace (fst acc + f * t * 0 * _) with (fst acc) by ring.
  replace (snd acc + f * t * 0 * _) with (snd acc) by ring.
  rewrite <- surjective_pairing. apply IH.
Qed.

Lemma orbitLoop_vacant (m : Method) (wl angle : R) (h : Vector3D)
    (BFactors : list R) (atfParams : list (list R)) (orbs : list Orbit) :
  Forall (fun o => Forall (fun a => occupancy a = 0) (atoms o)) orbs ->
  forall i acc, Peak.orbitLoop m wl angle h BFactors atfParams i orbs acc = acc.
Proof.
  intros Ho. induction Ho as [| o orbs Ho Hrest IH]; intros i acc; [reflexivity |].
  cbn [Peak.orbitLoop]. rewrite fold_addAtom_vacant by assumption. apply IH.
Qed.

(** Extra X1: a structure in which every atom has occupancy 0 has a squared
    structure factor of 0 for every reflection, angle, wavelength, method,
    B factors and form-factor coefficients. *)
Theorem structureFactorSquared_vacant (m : Method) (wl : R) (symmetry : Symmetry)
    (angle : R) (h : Vector3D) (BFactors : list R) (atfParams : list (list R)) :
  Forall (fun o => Forall (fun a => occupancy a = 0) (atoms o)) (orbits symmetry) ->
  Peak.structureFactorSquared m wl symmetry angle h BFactors atfParams = 0.
Proof.
  intros Ho. unfold Peak.structureFactorSquared.
  rewrite orbitLoop_vacant by assumption. ring.
Qed.

(* the sum after a rotation of the phase by [phi] *)
Let rotate (phi : R) (acc : R * R) : R * R :=
  (fst acc * cos phi - snd acc * sin phi, snd acc * cos phi + fst acc * sin phi).

Lemma dot_addV (h r t : Vector3D) : dot h (addV r t) = dot h r + dot h t.
Proof. unfold dot, addV; cbn [vx vy vz]. ring. Qed.

Lemma addAtom_shift (h t : Vector3D) (f th : R) (acc : R * R) (a : Atom) :
  Peak.addAtom h f th (rotate (2 * PI * dot h t) acc) (shiftAtom t a)
  = rotate (2 * PI * dot h t) (Peak.addAtom h f th acc a).
Proof.
  rewrite !addAtom_product. unfold rotate, shiftAtom. cbn [fst snd fractional occupancy].
  rewrite dot_addV, Rmult_plus_distr_l, cos_plus, sin_plus.
  f_equal; ring.
Qed.

Lemma fold_addAtom_shift (h t : Vector3D) (f th : R) (l : list Atom) (acc : R * R) :
  fold_left (Peak.addAtom h f th) (map (shiftAtom t) l) (rotate (2 * PI * dot h t) acc)
  = rotate (2 * PI * dot h t) (fold_left (Peak.addAtom h f th) l acc).
Proof.
  revert acc. induction l as [| a l IH]; intros acc; [reflexivity |].
  cbn [map fold_left]. rewrite addAtom_shift. apply IH.
Qed.

Lemma orbitLoop_shift (m : Method) (wl angle : R) (h t : Vector3D)
    (BFactors : list R) (atfParams : list (list R)) (orbs : list Orbit) :
  forall i acc,
    Peak.orbitLoop m wl angle h BFactors atfParams i (map (shiftOrbit t) orbs)
      (rotate (2 * PI * dot h t) acc)
    = rotate (2 * PI * dot h t)
        (Peak.orbitLoop m wl angle h BFactors atfParams i orbs acc).
Proof.
  induction orbs as [| o orbs IH]; intros i acc; [reflexivity |].
  cbn [map Peak.orbitLoop shiftOrbit atoms].
  rewrite fold_addAtom_shift. apply IH.
Qed.

(** Extra X2: the squared structure factor does not depend on the choice of
    origin: moving every atom by the same vector leaves it unchanged, for
    every reflection. *)
Theorem structureFactorSquared_origin_shift (m : Method) (wl : R) (symmetry : Symmetry)
    (angle : R) (h t : Vector3D) (BFactors : list R) (atfParams : list (list R)) :
  Peak.structureFactorSquared m wl (shiftSymmetry t symmetry) angle h BFactors atfParams
  = Peak.structureFactorSquared m wl symmetry angle h BFactors atfParams.
Proof.
  unfold Peak.structureFactorSquared. cbn [shiftSymmetry orbits].
  replace (0, 0) with (rotate (2 * PI * dot h t) (0, 0)) at 1
    by (unfold rotate; cbn [fst snd]; f_equal; ring).
  rewrite orbitLoop_shift.
  destruct (Peak.orbitLoop m wl angle h BFactors atfParams 0 (orbits symmetry) (0, 0))
    as [re im].
  unfold rotate; cbn [fst snd].
  pose proof (sin2_cos2 (2 * PI * dot h t)) as Hsc. unfold Rsqr in Hsc.
  nra.
Qed.

(* the conjugate sum *)
Let conj (acc : R * R) : R * R := (fst acc, - snd acc).

Lemma dot_negV (h r : Vector3D) : dot (negV h) r = - dot h r.
Proof. unfold dot, negV; cbn [vx vy vz]. ring. Qed.

Lemma fold_addAtom_neg (h : Vector3D) (f th : R) (l : list Atom) (acc : R * R) :
  fold_left (Peak.addAtom (negV h) f th) l (conj acc)
  = conj (fold_left (Peak.addAtom h f th) l acc).
Proof.
  revert acc. induction l as [| a l IH]; intros acc; [reflexivity |].
  cbn [fold_left]. rewrite <- IH. f_equal.
  rewrite !addAtom_product. unfold conj; cbn [fst snd].
  rewrite dot_negV.
  replace (2 * PI * - dot h (fractional a)) with (- (2 * PI * dot h (fractional a))) by ring.
  rewrite cos_neg, sin_neg. f_equal; ring.
Qed.

Lemma orbitLoop_neg (m : Method) (wl angle : R) (h : Vector3D)
    (BFactors : list R) (atfParams : list (list R)) (orbs : list Orbit) :
  forall i acc,
    Peak.orbitLoop m wl angle (negV h) BFactors atfParams i orbs (conj acc)
    = conj (Peak.orbitLoop m wl angle h BFactors atfParams i orbs acc).
Proof.
  induction orbs as [| o orbs IH]; intros i acc; [reflexivity |].
  cbn [Peak.orbitLoop]. rewrite fold_addAtom_neg. apply IH.
Qed.

(** Extra X3 (Friedel's law): at the same angle the reflections hkl and
    -h -k -l have the same squared structure factor. *)
Theorem structureFactorSquared_friedel (m : Method) (wl : R) (symmetry : Symmetry)
    (angle : R) (h : Vector3D) (BFactors : list R) (atfParams : list (list R)) :
  Peak.structureFactorSquared m wl symmetry angle (negV h) BFactors atfParams
  = Peak.structureFactorSquared m wl symmetry angle h BFactors atfParams.
Proof.
  unfold Peak.structureFactorSquared.
  replace (0, 0) with (conj (0, 0)) at 1 by (unfold conj; cbn [fst snd]; f_equal; ring).
  rewrite orbitLoop_neg.
  destruct (Peak.orbitLoop m wl angle h BFactors atfParams 0 (orbits symmetry) (0, 0))
    as [re im].
  unfold conj; cbn [fst snd]. ring.
Qed.

End StructureFactor.

Lemma structureFactorSquared_vacant_witness :
  Peak.structureFactorSquared DM_XRAY 1.5418
    (mkSymmetry [] [mkOrbit [mkAtom (vec3 0 0 0) 0; mkAtom (vec3 (1/2) 0 0) 0]])
    0 (vec3 1 0 0) [1] [Examples.unitScatterer] = 0.
Proof.
  apply structureFactorSquared_vacant. cbn [orbits atoms].
  repeat constructor.
Defined.

(** ** The texturing factor *)

Section Texturing.

Lemma Rpower_one_base (y : R) : Rpower 1 y = 1.
Proof. unfold Rpower. rewrite ln_1, Rmult_0_r. apply exp_0. Qed.

Lemma texturing_sum_untextured (po : Vector3D) (recips : list Vector3D) (acc : R) :
  fold_left
    (fun output r =>
       let cosphi := dot po r / magnitude po / magnitude r in
       let cosphi := cosphi * cosphi in
       output + Rpower (1 * 1 * cosphi + (1 - cosphi) / 1) (-1.5))
    recips acc
  = acc + INR (length recips).
Proof.
  revert acc. induction recips as [| r recips IH]; intros acc.
  - cbn [fold_left length INR]. ring.
  - cbn [fold_left]. rewrite IH.
    change (length (r :: recips)) with (S (length recips)). rewrite S_INR.
    cbv zeta.
    replace (1 * 1 * _ + (1 - _) / 1) with 1 by (unfold Rdiv; rewrite Rinv_1; ring).
    rewrite Rpower_one_base. ring.
Qed.

(** Extra X4: with the March-Dollase parameter tau = 1 the texturing factor
    is 1 (no texturing), whatever the preferred orientation, provided the
    orientation and the reflection's reciprocal lattice vectors are non-zero
    and there is at least one such vector. *)
Theorem getTexturingFactor_untextured (po : Vector3D) (recips : list Vector3D) :
  magnitude po <> 0 ->
  Forall (fun r => magnitude r <> 0) recips ->
  recips <> [] ->
  Peak.getTexturingFactor po 1 recips = 1.
Proof.
  intros _ _ Hne. unfold Peak.getTexturingFactor. cbv zeta.
  rewrite texturing_sum_untextured, Rplus_0_l.
  apply Rinv_r. destruct recips as [| r recips]; [contradiction |].
  apply not_0_INR. discriminate.
Qed.

Lemma getTexturingFactor_untextured_witness :
  Peak.getTexturingFactor (vec3 0 0 2) 1 [vec3 0 0 3; vec3 0 0 (-3)] = 1.
Proof.
  assert (Hm : forall z, z <> 0 -> magnitude (vec3 0 0 z) <> 0).
  { intros z Hz. unfold magnitude, dot; cbn [vx vy vz].
    intros H0. apply sqrt_eq_0 in H0; nra. }
  apply getTexturingFactor_untextured.
  - apply Hm; lra.
  - repeat constructor; apply Hm; lra.
  - discriminate.
Defined.

End Texturing.

(** ** The points equivalent to a reduced hkl *)

Section EquivalentPoints.

Import Enumerator.

Variable round1 : R -> R.

Lemma ForallOrdPairs_snoc {A : Type} (P : A -> A -> Prop) (l : list A) (x : A) :
  ForallOrdPairs P l -> Forall (fun a => P a x) l -> ForallOrdPairs P (l ++ [x]).
Proof.
  induction 1 as [| a l Ha Hl IH]; intros Hx; cbn [app].
  - constructor; constructor.
  - inversion Hx as [| ? ? Hax Hlx]; subst.
    constructor; [| apply IH; assumption].
    apply Forall_app. split; [assumption | constructor; [assumption | constructor]].
Qed.

Lemma existsb_false_Forall {A : Type} (f : A -> bool) (l : list A) :
  existsb f l = false -> Forall (fun a => f a = false) l.
Proof.
  induction l as [| a l IH]; cbn [existsb]; intros H; constructor.
  - destruct (f a); [discriminate | reflexivity].
  - apply IH. destruct (f a); [discriminate | assumption].
Qed.

(* what the loop over the operations keeps *)
Lemma equivalentPoints_invariant (redHKL : Vector3D) (allOps ops : list Matrix3D) :
  incl ops allOps ->
  forall mult points,
    mult = length points ->
    ForallOrdPairs (fun a b => samePoint a b = false) points ->
    Forall (fun p => p = redHKL \/
                     exists op, In op allOps /\ roundVector round1 (mulMV op redHKL) = p) points ->
    fst (equivalentPoints round1 redHKL ops mult points) <> 0%nat ->
    let result := equivalentPoints round1 redHKL ops mult points in
    fst result = length (snd result) /\
    (exists added, snd result = points ++ added) /\
    ForallOrdPairs (fun a b => samePoint a b = false) (snd result) /\
    Forall (fun p => p = redHKL \/
                     exists op, In op allOps /\ roundVector round1 (mulMV op redHKL) = p) (snd result) /\
    Forall (fun op => sortsBefore (roundVector round1 (mulMV op redHKL)) redHKL = false /\
                      exists p, In p (snd result) /\
                                samePoint p (roundVector round1 (mulMV op redHKL)) = true)
           ops.
Proof.
  induction ops as [| op rest IH]; intros Hincl mult points Hm Hd Hp;
    cbn [equivalentPoints].
  - intros _. cbn [fst snd]. repeat split; try assumption.
    + exists []. symmetry. apply app_nil_r.
    + constructor.
  - assert (Hrest : incl rest allOps) by (intros x Hx; apply Hincl; right; assumption).
    specialize (IH Hrest).
    destruct (sortsBefore _ redHKL) eqn:Hs; [intros H; exfalso; apply H; reflexivity |].
    destruct (existsb _ points) eqn:He.
    + intros Hne. destruct (IH mult points Hm Hd Hp Hne) as (H1 & H2 & H3 & H4 & H5).
      cbv zeta. repeat split; try assumption.
      constructor; [| assumption].
      split; [assumption |].
      apply existsb_exists in He. destruct He as (p & Hin & Hsame).
      exists p. split; [| assumption].
      destruct H2 as (added & ->). apply in_or_app. left. assumption.
    + intros Hne.
      assert (Hm' : S mult = length (points ++ [roundVector round1 (mulMV op redHKL)]))
        by (rewrite length_app; cbn [length]; lia).
      assert (Hd' : ForallOrdPairs (fun a b => samePoint a b = false)
                      (points ++ [roundVector round1 (mulMV op redHKL)]))
        by (apply ForallOrdPairs_snoc; [assumption | apply existsb_false_Forall, He]).
      assert (Hp' : Forall (fun p => p = redHKL \/
                              exists op0, In op0 allOps /\ roundVector round1 (mulMV op0 redHKL) = p)
                      (points ++ [roundVector round1 (mulMV op redHKL)])).
      { apply Forall_app. split; [assumption |].
        constructor; [right; exists op; split; [apply Hincl; left |]; reflexivity | constructor]. }
      destruct (IH _ _ Hm' Hd' Hp' Hne) as (H1 & H2 & H3 & H4 & H5).
      cbv zeta. repeat split; try assumption.
      * destruct H2 as (added & ->). rewrite <- app_assoc. eexists. reflexivity.
      * constructor; [| assumption].
        split; [assumption |].
        exists (roundVector round1 (mulMV op redHKL)). split.
        -- destruct H2 as (added & ->). apply in_or_app. left.
           apply in_or_app. right. left. reflexivity.
        -- unfold samePoint. rewrite !Rminus_diag, Rabs_R0.
           rewrite !Rltb_true by lra. reflexivity.
Qed.

(** Extra X5: when the search for the points equivalent to a reduced hkl
    does not reject the seed (the counter is not 0 at the end), the counter
    is the number of points collected, the seed is the first of them, the
    points are pairwise distinct (they differ by at least 1e-4 in some
    coordinate), each one is the seed or the rounded image of the seed under
    an operation, and the image under every operation does not sort before
    the seed and is within 1e-4 of a collected point. *)
Theorem equivalentPoints_family (redHKL : Vector3D) (ops : list Matrix3D) :
  fst (equivalentPoints round1 redHKL ops 1 [redHKL]) <> 0%nat ->
  let result := equivalentPoints round1 redHKL ops 1 [redHKL] in
  fst result = length (snd result) /\
  (exists others, snd result = redHKL :: others) /\
  ForallOrdPairs (fun a b => samePoint a b = false) (snd result) /\
  Forall (fun p => p = redHKL \/
                   exists op, In op ops /\ roundVector round1 (mulMV op redHKL) = p)
         (snd result) /\
  Forall (fun op => sortsBefore (roundVector round1 (mulMV op redHKL)) redHKL = false /\
                    exists p, In p (snd result) /\
                              samePoint p (roundVector round1 (mulMV op redHKL)) = true)
         ops.
Proof.
  intros Hne.
  destruct (equivalentPoints_invariant redHKL ops ops (incl_refl ops) 1%nat [redHKL]
              eq_refl) as (H1 & H2 & H3 & H4 & H5); try assumption.
  - constructor; constructor.
  - constructor; [left; reflexivity | constructor].
  - cbv zeta. split; [assumption |]. split; [| auto].
    destruct H2 as (added & ->). exists added. reflexivity.
Qed.

End EquivalentPoints.

(* a centre of inversion: the seed (-1 0 0) is kept, with its image (1 0 0) *)
Lemma equivalentPoints_inversion :
  Enumerator.equivalentPoints (fun x => x) (vec3 (-1) 0 0)
    [mat3 (vec3 (-1) 0 0) (vec3 0 (-1) 0) (vec3 0 0 (-1))] 1 [vec3 (-1) 0 0]
  = (2%nat, [vec3 (-1) 0 0; vec3 1 0 0]).
Proof.
  cbn [Enumerator.equivalentPoints].
  replace (Enumerator.roundVector (fun x => x) (mulMV _ (vec3 (-1) 0 0)))
    with (vec3 1 0 0)
    by (unfold Enumerator.roundVector, mulMV, dot; cbn [vx vy vz row0 row1 row2];
        f_equal; ring).
  unfold Enumerator.sortsBefore; cbn [vx vy vz].
  rewrite (Rltb_false 1) by lra.
  replace (Rabs (1 - -1)) with 2 by (rewrite Rabs_pos_eq; lra).
  rewrite (Rltb_false 2) by lra.
  cbn [existsb]. unfold Enumerator.samePoint; cbn [vx vy vz].
  replace (Rabs (-1 - 1)) with 2 by (rewrite Rabs_left1; lra).
  rewrite (Rltb_false 2) by lra.
  reflexivity.
Qed.

Lemma equivalentPoints_family_witness :
  let result :=
    Enumerator.equivalentPoints (fun x => x) (vec3 (-1) 0 0)
      [mat3 (vec3 (-1) 0 0) (vec3 0 (-1) 0) (vec3 0 0 (-1))] 1 [vec3 (-1) 0 0] in
  fst result = length (snd result).
Proof.
  apply (equivalentPoints_family (fun x => x) (vec3 (-1) 0 0)
           [mat3 (vec3 (-1) 0 0) (vec3 0 (-1) 0) (vec3 0 0 (-1))]).
  rewrite equivalentPoints_inversion. discriminate.
Defined.

(** ** Matching: what the loop over the peaks keeps *)

Section MatchingInvariants.

Import Matching.

Lemma nearestLoop_bound (angle : R) (toVisit : list DiffractionPeak) :
  forall refPeak nearIndex nearDif,
    (nearIndex < refPeak + length toVisit)%nat ->
    (fst (nearestLoop angle refPeak toVisit nearIndex nearDif)
     < refPeak + length toVisit)%nat.
Proof.
  induction toVisit as [| r rest IH]; intros refPeak nearIndex nearDif Hlt;
    cbn [nearestLoop length] in *.
  - exact Hlt.
  - destruct (Rltb _ nearDif).
    + replace (refPeak + S (length rest))%nat with (S refPeak + length rest)%nat by lia.
      apply IH. lia.
    + replace (refPeak + S (length rest))%nat with (S refPeak + length rest)%nat by lia.
      apply IH. lia.
Qed.

Lemma pushAt_length (i k : nat) (matching : list (list nat)) :
  length (pushAt i k matching) = length matching.
Proof.
  revert i. induction matching as [| b rest IH]; intros [| i]; cbn [pushAt length];
    try reflexivity.
  rewrite IH. reflexivity.
Qed.

Lemma pushAt_concat (k : nat) (matching : list (list nat)) :
  forall i, (i < length matching)%nat ->
            Permutation (concat (pushAt i k matching)) (k :: concat matching).
Proof.
  induction matching as [| b rest IH]; intros i Hi; cbn [length] in Hi; [lia |].
  destruct i as [| i]; cbn [pushAt concat].
  - exact (Permutation_app_tail (concat rest)
             (Permutation_sym (Permutation_cons_append b k))).
  - apply Permutation_trans with (b ++ k :: concat rest).
    + apply Permutation_app_head. apply IH. lia.
    + apply Permutation_sym. apply Permutation_middle.
Qed.

(* the loop state after [k] peaks: [k] peaks were copied, the buckets are
   those of the reference, and buckets and unmatched list hold 0 .. k-1 *)
Let kept (referencePeaks : list DiffractionPeak) (k : nat) (st : LoopState) : Prop :=
  let '(visited, matching, unmatched) := st in
  length visited = k /\
  length matching = length referencePeaks /\
  Permutation (concat matching ++ unmatched) (seq 0 k).

Lemma matchPeak_kept (referencePeaks : list DiffractionPeak) (k : nat)
    (p : DiffractionPeak) (st : LoopState) :
  (k < length referencePeaks)%nat ->
  kept referencePeaks k st ->
  exists st', matchPeak referencePeaks k p st = Some st' /\ kept referencePeaks (S k) st'.
Proof.
  intros Hk. destruct st as [[visited matching] unmatched]. intros (Hv & Hm & Hp).
  unfold matchPeak.
  destruct (nth_error referencePeaks k) as [r |] eqn:Hr;
    [| apply nth_error_None in Hr; lia].
  cbn [bind].
  pose proof (nearestLoop_bound (getAngle p) (tl referencePeaks) 1 0
                (Rabs (getAngle p - getAngle r)) ltac:(lia)) as Hb.
  destruct (nearestLoop _ 1 _ 0%nat _) as [nearIndex nearDif]. cbn [fst] in Hb.
  assert (Hlen : (1 + length (tl referencePeaks) = length referencePeaks)%nat)
    by (destruct referencePeaks; cbn [length tl] in *; lia).
  rewrite Hlen in Hb.
  destruct (Rltb tol nearDif); eexists; (split; [reflexivity |]); unfold kept;
    rewrite seq_S, length_app; cbn [length plus].
  - repeat split; [lia | assumption |].
    rewrite app_assoc. apply Permutation_app_tail. assumption.
  - rewrite pushAt_length. repeat split; [lia | assumption |].
    apply Permutation_trans with (k :: concat matching ++ unmatched).
    + change (k :: concat matching ++ unmatched)
        with ((k :: concat matching) ++ unmatched).
      apply Permutation_app_tail. apply pushAt_concat. lia.
    + apply Permutation_trans with (k :: seq 0 k); [apply perm_skip; assumption |].
      apply Permutation_cons_append.
Qed.

Lemma matchLoop_kept (referencePeaks : list DiffractionPeak) :
  forall toVisit k st,
    (k + length toVisit <= length referencePeaks)%nat ->
    kept referencePeaks k st ->
    exists st', matchLoop referencePeaks k toVisit st = Some st' /\
                kept referencePeaks (k + length toVisit) st'.
Proof.
  induction toVisit as [| p rest IH]; intros k st Hle Hst; cbn [matchLoop length] in *.
  - exists st. rewrite Nat.add_0_r. split; [reflexivity | assumption].
  - destruct (matchPeak_kept referencePeaks k p st ltac:(lia) Hst) as (st1 & -> & H1).
    cbn [bind].
    replace (k + S (length rest))%nat with (S k + length rest)%nat by lia.
    apply IH; [lia | assumption].
Qed.

Lemma matchPeak_None (referencePeaks : list DiffractionPeak) (k : nat)
    (p : DiffractionPeak) (st : LoopState) :
  (length referencePeaks <= k)%nat -> matchPeak referencePeaks k p st = None.
Proof.
  intros Hk. destruct st as [[visited matching] unmatched]. unfold matchPeak.
  apply nth_error_None in Hk. rewrite Hk. reflexivity.
Qed.

Lemma matchPeak_Some (referencePeaks : list DiffractionPeak) (k : nat)
    (p : DiffractionPeak) (st : LoopState) :
  (k < length referencePeaks)%nat ->
  exists st', matchPeak referencePeaks k p st = Some st'.
Proof.
  intros Hk. destruct st as [[visited matching] unmatched]. unfold matchPeak.
  destruct (nth_error referencePeaks k) as [r |] eqn:Hr;
    [| apply nth_error_None in Hr; lia].
  cbn [bind]. destruct (nearestLoop _ _ _ _ _) as [nearIndex nearDif].
  destruct (Rltb tol nearDif); eexists; reflexivity.
Qed.

Lemma matchLoop_None (referencePeaks : list DiffractionPeak) :
  forall toVisit k st,
    matchLoop referencePeaks k toVisit st = None <->
    (length referencePeaks < k + length toVisit)%nat /\ toVisit <> [].
Proof.
  induction toVisit as [| p rest IH]; intros k st; cbn [matchLoop length].
  - split; [discriminate | intros [_ H]; contradiction].
  - destruct (Nat.lt_ge_cases k (length referencePeaks)) as [Hlt | Hge].
    + destruct (matchPeak_Some referencePeaks k p st Hlt) as (st1 & ->). cbn [bind].
      rewrite IH. split.
      * intros [H _]. split; [lia | discriminate].
      * intros [H _]. split; [lia |]. intros ->. cbn [length] in H. lia.
    + rewrite matchPeak_None by assumption. cbn [bind].
      split; [intros _; split; [lia | discriminate] | reflexivity].
Qed.

Lemma concat_empty_buckets {A : Type} (l : list A) :
  concat (map (fun _ => @nil nat) l) = [].
Proof. induction l as [| a l IH]; cbn [map concat app]; [reflexivity | exact IH]. Qed.

(** Extra X6: matching reads the reference outside its bounds exactly when
    this pattern has more peaks than the reference: the entry
    referencePeaks[thisPeak] read at the start of each pass does not exist
    for the peaks beyond the size of the reference. *)
Theorem matchPeaksToReference_out_of_bounds (d : Diffraction)
    (referencePeaks thisPeaks : list DiffractionPeak) :
  matchPeaksToReference d referencePeaks thisPeaks = None <->
  (length referencePeaks < length thisPeaks)%nat.
Proof.
  unfold matchPeaksToReference.
  destruct (matchLoop referencePeaks 0 thisPeaks _) as [[[visited matching] unmatched] |]
    eqn:Hloop; cbn [bind].
  - split; [discriminate |]. intros Hlt.
    assert (Hnone : matchLoop referencePeaks 0 thisPeaks
                      ([], map (fun _ => []) referencePeaks, []) = None).
    { apply matchLoop_None. split; [lia |]. intros ->. cbn [length] in Hlt. lia. }
    congruence.
  - apply matchLoop_None in Hloop. split; [intros _; lia | reflexivity].
Qed.

(** Extra X7: when this pattern has no more peaks than the reference, the
    matching is defined, there is one bucket for each reference peak, and
    the buckets together with the list of unmatched peaks hold each index of
    a peak of this pattern exactly once. *)
Theorem matchPeaksToReference_partition (d : Diffraction)
    (referencePeaks thisPeaks : list DiffractionPeak) :
  (length thisPeaks <= length referencePeaks)%nat ->
  exists d' visited,
    matchPeaksToReference d referencePeaks thisPeaks = Some (d', visited) /\
    length (_matchingPeaks d') = length referencePeaks /\
    Permutation (concat (_matchingPeaks d') ++ _unmatchedPeaks d')
                (seq 0 (length thisPeaks)) /\
    length visited = length thisPeaks.
Proof.
  intros Hle. unfold matchPeaksToReference.
  destruct (matchLoop_kept referencePeaks thisPeaks 0
              ([], map (fun _ => []) referencePeaks, []))
    as ([[visited matching] unmatched] & -> & Hv & Hm & Hp).
  - cbn [plus]. assumption.
  - unfold kept. cbn [length seq]. rewrite length_map. repeat split.
    rewrite app_nil_r, concat_empty_buckets. constructor.
  - cbn [bind plus] in *. do 2 eexists. split; [reflexivity |].
    cbn [setMatching _matchingPeaks _unmatchedPeaks]. auto.
Qed.

Lemma matchPeaksToReference_partition_witness :
  exists d' visited,
    matchPeaksToReference Examples.newDiffraction Examples.twoPeaks
      [newDiffractionPeak 20.1 5] = Some (d', visited) /\
    length (_matchingPeaks d') = length Examples.twoPeaks /\
    Permutation (concat (_matchingPeaks d') ++ _unmatchedPeaks d')
                (seq 0 (length [newDiffractionPeak 20.1 5])) /\
    length visited = length [newDiffractionPeak 20.1 5].
Proof.
  apply matchPeaksToReference_partition. cbn [length Examples.twoPeaks]. lia.
Defined.

End MatchingInvariants.

(** ** The R factor of a matched pattern *)

Section MatchedRFactor.

Import Matching RFactor.

Lemma mapM_Some {A B : Type} (f : A -> option B) (l : list A) :
  (forall x, In x l -> exists y, f x = Some y) -> exists ys, mapM f l = Some ys.
Proof.
  induction l as [| a l IH]; intros Hall; cbn [mapM].
  - eexists; reflexivity.
  - destruct (Hall a (or_introl eq_refl)) as (y & ->).
    destruct IH as (ys & ->); [intros x Hx; apply Hall; right; assumption |].
    cbn [bind]. eexists; reflexivity.
Qed.

Lemma intensityAt_Some (thisPeaks : list DiffractionPeak) (k : nat) :
  (k < length thisPeaks)%nat -> exists x, intensityAt thisPeaks k = Some x.
Proof.
  intros Hk. unfold intensityAt.
  destruct (nth_error thisPeaks k) as [p |] eqn:Hp;
    [| apply nth_error_None in Hp; lia].
  cbn [bind]. eexists; reflexivity.
Qed.

Lemma bucketIntensity_Some (thisPeaks : list DiffractionPeak) (bucket : list nat) :
  Forall (fun k => (k < length thisPeaks)%nat) bucket ->
  exists x, bucketIntensity thisPeaks bucket = Some x.
Proof.
  unfold bucketIntensity. generalize 0.
  induction bucket as [| k bucket IH]; intros a Hb; cbn [fold_left].
  - eexists; reflexivity.
  - inversion Hb as [| ? ? Hk Hrest]; subst.
    destruct (intensityAt_Some thisPeaks k Hk) as (x & ->). cbn [bind].
    apply IH. assumption.
Qed.

(** Extra X8: after a pattern with no more peaks than the reference was
    matched against it, getCurrentRFactor reads every intensity within
    bounds and returns, for each of the three methods, unless the reference
    has no peak: then there is no bucket and it stops on its first test,
    as if no matching had been done. *)
Theorem getCurrentRFactor_after_matching (d : Diffraction)
    (referencePeaks thisPeaks : list DiffractionPeak) (rMethod : Rmethod) :
  (length thisPeaks <= length referencePeaks)%nat ->
  exists d' visited,
    matchPeaksToReference d referencePeaks thisPeaks = Some (d', visited) /\
    (getCurrentRFactor d' referencePeaks thisPeaks rMethod = None <->
     referencePeaks = []).
Proof.
  intros Hle. unfold matchPeaksToReference.
  destruct (matchLoop_kept referencePeaks thisPeaks 0
              ([], map (fun _ => []) referencePeaks, []))
    as ([[visited matching] unmatched] & -> & Hv & Hm & Hp).
  - cbn [plus]. assumption.
  - cbn [length seq]. rewrite length_map. repeat split.
    rewrite app_nil_r, concat_empty_buckets. constructor.
  - cbn [bind plus] in *. do 2 eexists. split; [reflexivity |].
    unfold getCurrentRFactor. cbn [setMatching _matchingPeaks].
    destruct matching as [| b matching].
    + cbn [length] in Hm. split; [intros _ | reflexivity].
      destruct referencePeaks; [reflexivity | discriminate].
    + split; [| intros ->; discriminate].
      intros Hnone. exfalso. revert Hnone.
      assert (Hin : forall k, In k (concat (b :: matching) ++ unmatched) ->
                              (k < length thisPeaks)%nat).
      { intros k Hk. apply (Permutation_in _ Hp) in Hk. apply in_seq in Hk. lia. }
      unfold gatherIntensities. cbn [setMatching _matchingPeaks _unmatchedPeaks].
      destruct (mapM_Some
                  (fun i => bucket <- nth_error (b :: matching) i ;;
                            bucketIntensity thisPeaks bucket)
                  (seq 0 (length referencePeaks))) as (ms & ->).
      { intros i Hi. apply in_seq in Hi.
        destruct (nth_error (b :: matching) i) as [bucket |] eqn:Hb;
          [| apply nth_error_None in Hb; lia].
        cbn [bind]. apply bucketIntensity_Some. apply Forall_forall. intros k Hk.
        apply Hin. apply in_or_app. left. apply in_concat.
        exists bucket. split; [eapply nth_error_In; eassumption | assumption]. }
      destruct (mapM_Some (intensityAt thisPeaks) unmatched) as (us & ->).
      { intros k Hk. apply intensityAt_Some. apply Hin. apply in_or_app. right.
        assumption. }
      cbn [bind]. destruct rMethod; try discriminate;
        destruct (scaleAndRFactor _ _ _ _); discriminate.
Qed.

Lemma getCurrentRFactor_after_matching_witness :
  exists d' visited,
    matchPeaksToReference Examples.newDiffraction Examples.twoPeaks
      [newDiffractionPeak 20.1 5] = Some (d', visited) /\
    (getCurrentRFactor d' Examples.twoPeaks [newDiffractionPeak 20.1 5] DR_ABS = None <->
     Examples.twoPeaks = []).
Proof.
  apply getCurrentRFactor_after_matching. cbn [length Examples.twoPeaks]. lia.
Defined.

End MatchedRFactor.

(** ** The scale chosen by getCurrentRFactor *)

Section OptimalScale.

Import RFactor.

(* the sums of Part #3 and Part #5 (DR_SQUARED), with their start values free *)
Lemma squared_matched_expand (s : R) (r m : list R) :
  length r = length m ->
  forall e a b d,
    fold_left (fun e rm => e + (fst rm - s * snd rm) ^ 2) (combine r m) e - e
    = (fold_left (fun n x => n + x * x) r a - a)
      - 2 * s * (fold_left (fun acc xy => acc + fst xy * snd xy) (combine m r) b - b)
      + s * s * (fold_left (fun acc xy => acc + fst xy * snd xy) (combine m m) d - d).
Proof.
  revert m. induction r as [| x r IH]; intros [| y m] Hlen; try discriminate;
    intros e a b d; cbn [combine fold_left fst snd].
  - ring.
  - injection Hlen as Hlen.
    pose proof (IH m Hlen (e + (x - s * y) ^ 2) (a + x * x) (b + y * x) (d + y * y)) as H.
    lra.
Qed.

Lemma squared_unmatched_expand (s : R) (u : list R) :
  forall e d,
    fold_left (fun e x => e + (s * x) ^ 2) u e - e
    = s * s * (fold_left (fun acc xy => acc + fst xy * snd xy) (combine u u) d - d).
Proof.
  induction u as [| x u IH]; intros e d; cbn [combine fold_left fst snd].
  - ring.
  - pose proof (IH (e + (s * x) ^ 2) (d + x * x)) as H. lra.
Qed.

(* the error of Part #5 (DR_SQUARED) is a quadratic in the scale *)
Lemma squaredError_quadratic (s : R) (r m u : list R) :
  length r = length m ->
  squaredError s r m u
  = fold_left (fun n x => n + x * x) r 0
    - 2 * s * inner_product m r
    + s * s * (inner_product m m + inner_product u u).
Proof.
  intros Hlen. unfold squaredError, inner_product.
  pose proof (squared_matched_expand s r m Hlen 0 0 0 0) as Hm.
  pose proof (squared_unmatched_expand s u
                (fold_left (fun e rm => e + (fst rm - s * snd rm) ^ 2) (combine r m) 0)
                0) as Hu.
  lra.
Qed.

(** Extra X9: with DR_SQUARED the scale stored in _optimalScale is the
    least-squares scale: when the reference and matched intensities have the
    same number of entries and the calculated intensities are not all zero,
    no scale gives a smaller sum of squared differences, so no scale gives a
    smaller R factor than the one returned. *)
Theorem scaleAndRFactor_squared_least (r m u : list R) (s : R) :
  length r = length m ->
  0 < inner_product m m + inner_product u u ->
  0 < fold_left (fun n x => n + x * x) r 0 ->
  squaredError (fst (scaleAndRFactor DR_SQUARED r m u)) r m u <= squaredError s r m u /\
  snd (scaleAndRFactor DR_SQUARED r m u)
  <= squaredError s r m u / fold_left (fun n x => n + x * x) r 0.
Proof.
  intros Hlen Hd Hn.
  assert (Hle : squaredError (fst (scaleAndRFactor DR_SQUARED r m u)) r m u
                <= squaredError s r m u).
  { cbn [scaleAndRFactor fst].
    rewrite !squaredError_quadratic by assumption.
    set (A := fold_left _ r 0). set (B := inner_product m r).
    set (D := inner_product m m + inner_product u u) in *.
    assert (Hs : B / D * D = B) by (field; lra).
    set (t := B / D) in *. clearbody t B A D.
    assert (Hsq : 0 <= D * (s - t) * (s - t)).
    { replace (D * (s - t) * (s - t)) with (D * ((s - t) * (s - t))) by ring.
      apply Rmult_le_pos; [lra | exact (Rle_0_sqr (s - t))]. }
    nra. }
  split; [exact Hle |].
  cbn [scaleAndRFactor snd]. cbn [scaleAndRFactor fst] in Hle.
  unfold Rdiv. apply Rmult_le_compat_r; [| exact Hle].
  left. apply Rinv_0_lt_compat. assumption.
Qed.

Lemma scaleAndRFactor_squared_least_witness :
  squaredError (fst (scaleAndRFactor DR_SQUARED [2; 4] [1; 2] [1])) [2; 4] [1; 2] [1]
  <= squaredError 2 [2; 4] [1; 2] [1] /\
  snd (scaleAndRFactor DR_SQUARED [2; 4] [1; 2] [1])
  <= squaredError 2 [2; 4] [1; 2] [1] / fold_left (fun n x => n + x * x) [2; 4] 0.
Proof.
  apply scaleAndRFactor_squared_least.
  - reflexivity.
  - unfold inner_product. cbn [combine fold_left fst snd]. lra.
  - cbn [fold_left]. lra.
Defined.

End OptimalScale.

Section CandidateScales.

Import RFactor.

(* what the scan of Part #3 (DR_ABS) returns, from the state (M, s0) *)
Lemma scanScales_spec (r m u : list R) (cands : list (R * R)) :
  forall M s0,
    let res := scanScales r m u cands M s0 in
    fst res <= M /\
    (forall ri mi, In (ri, mi) cands -> mi <> 0 -> fst res <= absError (ri / mi) r m u) /\
    (res = (M, s0) \/
     (fst res < M /\ fst res = absError (snd res) r m u /\
      exists ri mi, In (ri, mi) cands /\ mi <> 0 /\ snd res = ri / mi)).
Proof.
  induction cands as [| [rc mc] rest IH]; intros M s0; cbn [scanScales].
  - cbn [fst]. split; [lra |]. split; [intros ri mi [] | left; reflexivity].
  - destruct (Reqb_cases mc 0) as [[Hz ->] | [Hz ->]].
    + destruct (IH M s0) as (H1 & H2 & H3). cbv zeta. split; [assumption |]. split.
      * intros ri mi [Heq | Hin] Hne; [congruence | apply H2; assumption].
      * destruct H3 as [H3 | (H3 & H4 & ri & mi & Hin & Hne & Hs)]; [left; assumption |].
        right. repeat split; try assumption. exists ri, mi. auto with datatypes.
    + destruct (Rltb_cases (absError (rc / mc) r m u) M) as [[Hlt ->] | [Hge ->]].
      * destruct (IH (absError (rc / mc) r m u) (rc / mc)) as (H1 & H2 & H3).
        cbv zeta. split; [lra |]. split.
        -- intros ri mi [Heq | Hin] Hne; [| apply H2; assumption].
           injection Heq as <- <-. assumption.
        -- right. destruct H3 as [H3 | (H3 & H4 & ri & mi & Hin & Hne & Hs)].
           ++ rewrite H3. cbn [fst snd]. repeat split; try assumption.
              exists rc, mc. auto with datatypes.
           ++ repeat split; [lra | assumption |]. exists ri, mi. auto with datatypes.
      * destruct (IH M s0) as (H1 & H2 & H3). cbv zeta. split; [assumption |]. split.
        -- intros ri mi [Heq | Hin] Hne; [| apply H2; assumption].
           injection Heq as <- <-. lra.
        -- destruct H3 as [H3 | (H3 & H4 & ri & mi & Hin & Hne & Hs)]; [left; assumption |].
           right. repeat split; try assumption. exists ri, mi. auto with datatypes.
Qed.

(** Extra X10: with DR_ABS, when some reference peak has a non-zero matched
    intensity and the error at its scale I_ref / I_matched is below the
    start value 1e100, the scale stored in _optimalScale is one of these
    candidate scales and its error is not larger than that of any candidate;
    the R factor returned is that least error divided by the sum of the
    reference intensities. *)
Theorem scaleAndRFactor_abs_best_candidate (r m u : list R) (ri mi : R) :
  In (ri, mi) (combine r m) ->
  mi <> 0 ->
  absError (ri / mi) r m u < 1e100 ->
  let s := fst (scaleAndRFactor DR_ABS r m u) in
  (exists rj mj, In (rj, mj) (combine r m) /\ mj <> 0 /\ s = rj / mj) /\
  (forall rj mj, In (rj, mj) (combine r m) -> mj <> 0 ->
                 absError s r m u <= absError (rj / mj) r m u) /\
  snd (scaleAndRFactor DR_ABS r m u) = absError s r m u / accumulate r.
Proof.
  intros Hin Hne Hlt. cbn [scaleAndRFactor].
  pose proof (scanScales_spec r m u (combine r m) 1e100 1.0) as Hspec. cbv zeta in Hspec.
  destruct (scanScales r m u (combine r m) 1e100 1.0) as [e s] eqn:Hscan.
  cbn [fst snd] in *. destruct Hspec as (H1 & H2 & H3).
  destruct H3 as [H3 | (H3 & H4 & rj & mj & Hj & Hnej & Hs)].
  - injection H3 as -> ->. specialize (H2 ri mi Hin Hne). lra.
  - split; [exists rj, mj; auto |]. split; [| reflexivity].
    intros rk mk Hk Hnek. rewrite <- H4. apply H2; assumption.
Qed.

Lemma scaleAndRFactor_abs_best_candidate_witness :
  let s := fst (scaleAndRFactor DR_ABS [2; 3] [1; 1] [1]) in
  (exists rj mj, In (rj, mj) (combine [2; 3] [1; 1]) /\ mj <> 0 /\ s = rj / mj) /\
  (forall rj mj, In (rj, mj) (combine [2; 3] [1; 1]) -> mj <> 0 ->
                 absError s [2; 3] [1; 1] [1] <= absError (rj / mj) [2; 3] [1; 1] [1]) /\
  snd (scaleAndRFactor DR_ABS [2; 3] [1; 1] [1])
  = absError s [2; 3] [1; 1] [1] / accumulate [2; 3].
Proof.
  apply (scaleAndRFactor_abs_best_candidate [2; 3] [1; 1] [1] 2 1).
  - left. reflexivity.
  - lra.
  - unfold absError. cbn [combine fold_left fst snd].
    replace (2 / 1) with 2 by field.
    rewrite (Rabs_pos_eq (2 - 2 * 1)), (Rabs_pos_eq (3 - 2 * 1)), (Rabs_pos_eq (2 * 1))
      by lra.
    lra.
Defined.

End CandidateScales.

Section PerfectAgreement.

Import RFactor.

Variable s0 : R.

Lemma fold_matched_abs_exact (m : list R) (acc : R) :
  fold_left (fun e rm => e + Rabs (fst rm - s0 * snd rm))
            (combine (map (Rmult s0) m) m) acc = acc.
Proof.
  revert acc. induction m as [| x m IH]; intros acc; cbn [map combine fold_left fst snd];
    [reflexivity |].
  rewrite Rminus_diag, Rabs_R0, Rplus_0_r. apply IH.
Qed.

Lemma fold_unmatched_abs_zero (s : R) (u : list R) (acc : R) :
  Forall (fun x => x = 0) u ->
  fold_left (fun e x => e + Rabs (s * x)) u acc = acc.
Proof.
  intros Hu. revert acc. induction Hu as [| x u -> Hu IH]; intros acc; cbn [fold_left];
    [reflexivity |].
  rewrite Rmult_0_r, Rabs_R0, Rplus_0_r. apply IH.
Qed.

Lemma fold_matched_sq_exact (m : list R) (acc : R) :
  fold_left (fun e rm => e + (fst rm - s0 * snd rm) ^ 2)
            (combine (map (Rmult s0) m) m) acc = acc.
Proof.
  revert acc. induction m as [| x m IH]; intros acc; cbn [map combine fold_left fst snd];
    [reflexivity |].
  replace (acc + (s0 * x - s0 * x) ^ 2) with acc by ring. apply IH.
Qed.

Lemma fold_unmatched_sq_zero (s : R) (u : list R) (acc : R) :
  Forall (fun x => x = 0) u ->
  fold_left (fun e x => e + (s * x) ^ 2) u acc = acc.
Proof.
  intros Hu. revert acc. induction Hu as [| x u -> Hu IH]; intros acc; cbn [fold_left];
    [reflexivity |].
  replace (acc + (s * 0) ^ 2) with acc by ring. apply IH.
Qed.

Lemma inner_product_exact (m : list R) (a : R) :
  fold_left (fun acc xy => acc + fst xy * snd xy) (combine m (map (Rmult s0) m)) (s0 * a)
  = s0 * fold_left (fun acc xy => acc + fst xy * snd xy) (combine m m) a.
Proof.
  revert a. induction m as [| x m IH]; intros a; cbn [map combine fold_left fst snd];
    [reflexivity |].
  replace (s0 * a + x * (s0 * x)) with (s0 * (a + x * x)) by ring. apply IH.
Qed.

Lemma inner_product_self_zero (u : list R) (a : R) :
  Forall (fun x => x = 0) u ->
  fold_left (fun acc xy => acc + fst xy * snd xy) (combine u u) a = a.
Proof.
  intros Hu. revert a. induction Hu as [| x u -> Hu IH]; intros a;
    cbn [combine fold_left fst snd]; [reflexivity |].
  rewrite Rmult_0_r, Rplus_0_r. apply IH.
Qed.

Lemma inner_product_self_mono (m : list R) (a : R) :
  a <= fold_left (fun acc xy => acc + fst xy * snd xy) (combine m m) a.
Proof.
  revert a. induction m as [| x m IH]; intros a; cbn [combine fold_left fst snd]; [lra |].
  specialize (IH (a + x * x)). pose proof (Rle_0_sqr x) as Hx. unfold Rsqr in Hx. lra.
Qed.

Lemma inner_product_self_pos (m : list R) (a : R) :
  Exists (fun x => x <> 0) m ->
  a < fold_left (fun acc xy => acc + fst xy * snd xy) (combine m m) a.
Proof.
  intros Hm. revert a. induction Hm as [x m Hx | x m Hm IH]; intros a;
    cbn [combine fold_left fst snd].
  - pose proof (inner_product_self_mono m (a + x * x)) as Hmono.
    assert (0 < x * x) by (apply Rsqr_pos_lt; assumption). lra.
  - specialize (IH (a + x * x)). pose proof (Rle_0_sqr x) as Hx. unfold Rsqr in Hx. lra.
Qed.

Lemma combine_exact_In (m : list R) (rj mj : R) :
  In (rj, mj) (combine (map (Rmult s0) m) m) -> rj = s0 * mj.
Proof.
  induction m as [| x m IH]; cbn [map combine In]; [intros [] |].
  intros [Heq | Hin]; [injection Heq as <- <-; reflexivity | apply IH; assumption].
Qed.

Lemma combine_exact_Exists (m : list R) :
  Exists (fun x => x <> 0) m ->
  exists mi, In (s0 * mi, mi) (combine (map (Rmult s0) m) m) /\ mi <> 0.
Proof.
  induction 1 as [x m Hx | x m Hm IH]; cbn [map combine].
  - exists x. split; [left; reflexivity | assumption].
  - destruct IH as (mi & Hin & Hne). exists mi. split; [right |]; assumption.
Qed.

(** Extra X11: when the reference intensities are exactly s0 times the
    matched intensities, with s0 > 0, the matched intensities are not
    negative and not all zero, and every unmatched intensity is zero,
    getCurrentRFactor finds the scale s0 and returns R = 0, with DR_ABS and
    with DR_SQUARED. *)
Theorem scaleAndRFactor_exact_multiple (m u : list R) :
  0 < s0 ->
  Forall (fun x => 0 <= x) m ->
  Exists (fun x => x <> 0) m ->
  Forall (fun x => x = 0) u ->
  scaleAndRFactor DR_ABS (map (Rmult s0) m) m u = (s0, 0) /\
  scaleAndRFactor DR_SQUARED (map (Rmult s0) m) m u = (s0, 0).
Proof.
  intros _ _ Hm Hu.
  assert (Habs : absError s0 (map (Rmult s0) m) m u = 0).
  { unfold absError. rewrite fold_unmatched_abs_zero by assumption.
    apply fold_matched_abs_exact. }
  split.
  - cbn [scaleAndRFactor].
    pose proof (scanScales_spec (map (Rmult s0) m) m u (combine (map (Rmult s0) m) m)
                  1e100 1.0) as Hspec. cbv zeta in Hspec.
    destruct (scanScales _ m u _ 1e100 1.0) as [e s] eqn:Hscan.
    cbn [fst snd] in *. destruct Hspec as (H1 & H2 & H3).
    destruct (combine_exact_Exists m Hm) as (mi & Hin & Hne).
    specialize (H2 _ _ Hin Hne).
    replace (s0 * mi / mi) with s0 in H2 by (field; assumption).
    rewrite Habs in H2.
    destruct H3 as [H3 | (H3 & H4 & rj & mj & Hj & Hnej & Hs)].
    + injection H3 as -> ->. lra.
    + apply combine_exact_In in Hj. subst rj.
      replace (s0 * mj / mj) with s0 in Hs by (field; assumption). subst s.
      rewrite Habs. unfold Rdiv. rewrite Rmult_0_l. reflexivity.
  - cbn [scaleAndRFactor]. unfold inner_product.
    rewrite (inner_product_self_zero u 0 Hu), Rplus_0_r.
    pose proof (inner_product_exact m 0) as Hnum. rewrite Rmult_0_r in Hnum.
    rewrite Hnum.
    pose proof (inner_product_self_pos m 0 Hm) as Hpos.
    replace (s0 * _ / _) with s0 by (field; lra).
    unfold squaredError.
    rewrite fold_unmatched_sq_zero by assumption.
    rewrite fold_matched_sq_exact. unfold Rdiv. rewrite Rmult_0_l. reflexivity.
Qed.

End PerfectAgreement.

Lemma scaleAndRFactor_exact_multiple_witness :
  RFactor.scaleAndRFactor DR_ABS (map (Rmult 3) [0; 2; 5]) [0; 2; 5] [0] = (3, 0) /\
  RFactor.scaleAndRFactor DR_SQUARED (map (Rmult 3) [0; 2; 5]) [0; 2; 5] [0] = (3, 0).
Proof.
  apply (scaleAndRFactor_exact_multiple 3 [0; 2; 5] [0]).
  - lra.
  - repeat constructor; lra.
  - right. left. lra.
  - repeat constructor.
Defined.

(** ** What set stores *)

Section StoredPattern.

Import Experimental.

Variable fitLocated : list R -> list R -> list R -> list R -> option (list (R * R)).

Lemma pairLt_asym (a b : R * R) : pairLt a b = true -> pairLt b a = false.
Proof.
  unfold pairLt.
  destruct (Rltb_cases (fst a) (fst b)) as [[H1 ->] | [H1 ->]];
    destruct (Rltb_cases (fst b) (fst a)) as [[H2 ->] | [H2 ->]];
    cbn [orb andb negb]; try lra; try discriminate; try reflexivity.
  intros H. apply Rltb_lt in H. apply Rltb_false. lra.
Qed.

Lemma pairLt_false_le (a b : R * R) : pairLt b a = false -> fst a <= fst b.
Proof.
  unfold pairLt. destruct (Rltb_cases (fst b) (fst a)) as [[H1 ->] | [H1 ->]];
    cbn [orb]; [discriminate | intros _; assumption].
Qed.

Lemma peakLt_asym (a b : DiffractionPeak) : peakLt a b = true -> peakLt b a = false.
Proof. unfold peakLt. intros H. apply Rltb_lt in H. apply Rltb_false. lra. Qed.

Lemma Sorted_map_le {A : Type} (f : A -> R) (P : A -> A -> Prop) (l : list A) :
  (forall a b, P a b -> f a <= f b) -> Sorted P l -> Sorted Rle (map f l).
Proof.
  intros HP Hs. induction Hs as [| a l Hs IH Hhd]; cbn [map]; constructor; [exact IH |].
  destruct Hhd; cbn [map]; constructor. apply HP. assumption.
Qed.

Lemma combine_fst_snd {A B : Type} (l : list (A * B)) :
  combine (map fst l) (map snd l) = l.
Proof.
  induction l as [| [a b] l IH]; cbn [map combine fst snd]; [reflexivity |].
  rewrite IH. reflexivity.
Qed.

Lemma map_fst_combine {A B : Type} (l : list A) (l' : list B) :
  (length l <= length l')%nat -> map fst (combine l l') = l.
Proof.
  revert l'. induction l as [| a l IH]; intros [| b l'] Hlen; cbn [length] in Hlen;
    cbn [combine map fst]; try reflexivity; [lia |].
  rewrite IH by lia. reflexivity.
Qed.

(* std::min_element and std::max_element return a least and a greatest entry *)
Lemma min_element_spec (rest : list R) :
  forall first,
    In (min_element first rest) (first :: rest) /\
    Forall (fun x => min_element first rest <= x) (first :: rest).
Proof.
  unfold min_element.
  induction rest as [| x rest IH]; intros first; cbn [fold_left].
  - split; [left; reflexivity | constructor; [lra | constructor]].
  - destruct (Rltb_cases x first) as [[Hlt ->] | [Hge ->]].
    + destruct (IH x) as (Hin & Hall). inversion Hall as [| ? ? Hx Hrest]; subst.
      split; [right; assumption |].
      constructor; [lra |]. constructor; assumption.
    + destruct (IH first) as (Hin & Hall). inversion Hall as [| ? ? Hf Hrest]; subst.
      split; [destruct Hin as [<- | Hin]; [left; reflexivity | right; right; assumption] |].
      constructor; [assumption |]. constructor; [lra | assumption].
Qed.

Lemma max_element_spec (rest : list R) :
  forall first,
    In (max_element first rest) (first :: rest) /\
    Forall (fun x => x <= max_element first rest) (first :: rest).
Proof.
  unfold max_element.
  induction rest as [| x rest IH]; intros first; cbn [fold_left].
  - split; [left; reflexivity | constructor; [lra | constructor]].
  - destruct (Rltb_cases first x) as [[Hlt ->] | [Hge ->]].
    + destruct (IH x) as (Hin & Hall). inversion Hall as [| ? ? Hx Hrest]; subst.
      split; [right; assumption |].
      constructor; [lra |]. constructor; assumption.
    + destruct (IH first) as (Hin & Hall). inversion Hall as [| ? ? Hf Hrest]; subst.
      split; [destruct Hin as [<- | Hin]; [left; reflexivity | right; right; assumption] |].
      constructor; [assumption |]. constructor; [lra | assumption].
Qed.

(* the angles after the sort are the angles given, when each has an intensity *)
Lemma sorted_angles_perm (twoTheta intensity : list R) :
  (length twoTheta <= length intensity)%nat ->
  Permutation (map fst (sortBy pairLt (combine twoTheta intensity))) twoTheta.
Proof.
  intros Hlen. rewrite <- (map_fst_combine twoTheta intensity Hlen) at 2.
  apply Permutation_map. apply sortBy_perm.
Qed.

Lemma stored_intensities (twoTheta intensity : list R) :
  let pairs := sortBy pairLt (combine twoTheta intensity) in
  firstn (length (map fst pairs)) (map snd pairs ++ skipn (length twoTheta) intensity)
  = map snd pairs.
Proof.
  intros pairs. rewrite length_map, <- (length_map snd pairs).
  rewrite firstn_app, Nat.sub_diag, firstn_all. cbn [firstn]. apply app_nil_r.
Qed.

(** Extra X12: when set takes a list of measurements for a raw pattern and
    the processing of the sorted data (smoothing, background removal, peak
    location and fit) returns fitted peaks, it stores the angles in
    ascending order, each with its own intensity (the stored pairs are a
    permutation of the pairs given), and the window [_minTwoTheta,
    _maxTwoTheta] is the range measured: both ends are angles of the input
    and every angle lies between them.  This holds whether or not the
    fitted peaks are rejected afterwards. *)
Theorem set_raw_stores_sorted (e : ExperimentalPattern) (twoTheta intensity : list R)
    (fitted : list (R * R)) :
  let pairs := sortBy pairLt (combine twoTheta intensity) in
  (length twoTheta <= length intensity)%nat ->
  alreadyProcessed (map fst pairs) = false ->
  fitPeaks fitLocated (map fst pairs) (map snd pairs ++ skipn (length twoTheta) intensity)
  = Some fitted ->
  exists e',
    set fitLocated e twoTheta intensity = Some e' /\
    _type (expBase e') = PT_EXP_RAW /\
    Sorted Rle (_continuousTwoTheta e') /\
    Permutation (combine (_continuousTwoTheta e') (_continuousIntensity e'))
                (combine twoTheta intensity) /\
    In (_minTwoTheta (expBase e')) twoTheta /\
    In (_maxTwoTheta (expBase e')) twoTheta /\
    Forall (fun t => _minTwoTheta (expBase e') <= t <= _maxTwoTheta (expBase e')) twoTheta.
Proof.
  intros pairs0 Hlen Hraw Hfit. subst pairs0. unfold set.
  replace (length intensity <? length twoTheta)%nat with false
    by (symmetry; apply Nat.ltb_ge; assumption).
  rewrite Hraw. unfold setRaw.
  pose proof (stored_intensities twoTheta intensity) as Hstored. cbv zeta in Hstored.
  pose proof (sorted_angles_perm twoTheta intensity Hlen) as Hperm.
  pose proof (sortBy_sorted pairLt pairLt_asym (combine twoTheta intensity)) as Hsorted.
  pose proof (combine_fst_snd (sortBy pairLt (combine twoTheta intensity))) as Hpairs.
  pose proof (sortBy_perm pairLt (combine twoTheta intensity)) as Hpp.
  set (pairs := sortBy pairLt (combine twoTheta intensity)) in *.
  rewrite Hfit.
  destruct (map fst pairs) as [| t0 rest] eqn:Htt.
  { rewrite alreadyProcessed_nil in Hraw. discriminate. }
  cbn [bind]. unfold getPeakIntensities.
  cbn [setDiffractionPeaks expBase setTypeAndWindow _minTwoTheta _maxTwoTheta
       _diffractionPeaks].
  destruct (extractPeaks _ _ _ []) as [peaks thrown].
  destruct (min_element_spec rest t0) as (Hmin_in & Hmin).
  destruct (max_element_spec rest t0) as (Hmax_in & Hmax).
  assert (Hsub : forall t, In t twoTheta <-> In t (t0 :: rest)).
  { intros t. split; apply Permutation_in; [symmetry |]; exact Hperm. }
  exists (if thrown
          then setDiffractionPeaks [] (setDiffractionPeaks peaks
                 {| expBase := setTypeAndWindow PT_EXP_RAW (min_element t0 rest)
                                 (max_element t0 rest) (expBase (clear e));
                    _continuousTwoTheta := t0 :: rest;
                    _continuousIntensity := map snd pairs;
                    _diffractionPeaks := [] |})
          else setDiffractionPeaks peaks
                 {| expBase := setTypeAndWindow PT_EXP_RAW (min_element t0 rest)
                                 (max_element t0 rest) (expBase (clear e));
                    _continuousTwoTheta := t0 :: rest;
                    _continuousIntensity := map snd pairs;
                    _diffractionPeaks := [] |}).
  split.
  { rewrite Hstored. cbn [setDiffractionPeaks expBase _continuousTwoTheta
                          _continuousIntensity _diffractionPeaks].
    reflexivity. }
  assert (Hgoal :
    Sorted Rle (t0 :: rest) /\
    Permutation (combine (t0 :: rest) (map snd pairs)) (combine twoTheta intensity) /\
    In (min_element t0 rest) twoTheta /\ In (max_element t0 rest) twoTheta /\
    Forall (fun t => min_element t0 rest <= t <= max_element t0 rest) twoTheta).
  { split; [| split; [| split; [| split]]].
    - rewrite <- Htt. apply (Sorted_map_le fst _ pairs pairLt_false_le). exact Hsorted.
    - rewrite Hpairs. exact Hpp.
    - apply Hsub. exact Hmin_in.
    - apply Hsub. exact Hmax_in.
    - apply Forall_forall. intros t Ht. apply Hsub in Ht.
      rewrite Forall_forall in Hmin, Hmax. split; [apply Hmin | apply Hmax]; assumption. }
  destruct thrown;
    cbn [setDiffractionPeaks expBase setTypeAndWindow _type _minTwoTheta _maxTwoTheta
         _continuousTwoTheta _continuousIntensity];
    (split; [reflexivity | exact Hgoal]).
Qed.

Lemma combine_app_r {A B : Type} (l : list A) (l1 l2 : list B) :
  length l = length l1 -> combine l (l1 ++ l2) = combine l l1.
Proof.
  revert l1. induction l as [| a l IH]; intros [| b l1] Hlen; try discriminate;
    cbn [combine app]; [destruct l2; reflexivity |].
  injection Hlen as Hlen. rewrite IH by assumption. reflexivity.
Qed.

Lemma last_default {A : Type} (l : list A) (a d d' : A) : last (a :: l) d = last (a :: l) d'.
Proof.
  revert a. induction l as [| b l IH]; intros a; [reflexivity |].
  change (last (b :: l) d = last (b :: l) d'). apply IH.
Qed.

(* in a list of peaks sorted with operator<, the first has the least angle
   and the last the greatest *)
Lemma sorted_peaks_bounds (l : list DiffractionPeak) :
  forall p,
    Sorted (fun a b => peakLt b a = false) (p :: l) ->
    Forall (fun q => getAngle p <= getAngle q <= getAngle (last (p :: l) p)) (p :: l).
Proof.
  induction l as [| q l IH]; intros p Hs.
  - constructor; [cbn [last]; lra | constructor].
  - inversion Hs as [| ? ? Hrest Hhd]; subst.
    inversion Hhd as [| ? ? Hpq]; subst.
    assert (Hle : getAngle p <= getAngle q).
    { unfold peakLt in Hpq. apply Rltb_ge in Hpq. unfold getAngle. lra. }
    specialize (IH q Hrest).
    change (last (p :: q :: l) p) with (last (q :: l) p).
    rewrite (last_default l q p q).
    assert (Hq : getAngle q <= getAngle (last (q :: l) q)).
    { inversion IH as [| ? ? Hqq _]; subst. lra. }
    constructor; [lra |].
    eapply Forall_impl; [| exact IH]. cbn beta. intros r Hr. lra.
Qed.

Lemma peakLt_false_le (a b : DiffractionPeak) :
  peakLt b a = false -> getAngle a <= getAngle b.
Proof. unfold peakLt, getAngle. intros H. apply Rltb_ge in H. lra. Qed.

Lemma map_getAngle_new (l : list (R * R)) :
  map getAngle (map (fun ti => newDiffractionPeak (fst ti) (snd ti)) l) = map fst l.
Proof. rewrite map_map. reflexivity. Qed.

(** Extra X13: when set takes a non-empty list of measurements for an
    already processed pattern, it stores one peak for each measurement (the
    peaks are a permutation of the peaks built from the pairs given, so each
    has pattern index -1), in ascending order of angle, stores no continuous
    data, and sets the window to the least angle minus the resolution and
    the greatest angle plus half the resolution. *)
Theorem set_processed_stores_peaks (e : ExperimentalPattern) (twoTheta intensity : list R) :
  (length twoTheta <= length intensity)%nat ->
  twoTheta <> [] ->
  alreadyProcessed (map fst (sortBy pairLt (combine twoTheta intensity))) = true ->
  exists e',
    set fitLocated e twoTheta intensity = Some e' /\
    _type (expBase e') = PT_EXP_INT /\
    Sorted Rle (map getAngle (_diffractionPeaks e')) /\
    Permutation (_diffractionPeaks e')
      (map (fun ti => newDiffractionPeak (fst ti) (snd ti)) (combine twoTheta intensity)) /\
    _continuousTwoTheta e' = [] /\ _continuousIntensity e' = [] /\
    In (_minTwoTheta (expBase e') + _resolution (expBase e)) twoTheta /\
    In (_maxTwoTheta (expBase e') - _resolution (expBase e) / 2) twoTheta /\
    Forall (fun t => _minTwoTheta (expBase e') + _resolution (expBase e) <= t
                     <= _maxTwoTheta (expBase e') - _resolution (expBase e) / 2)
           twoTheta.
Proof.
  intros Hlen Hne Hproc. unfold set.
  replace (length intensity <? length twoTheta)%nat with false
    by (symmetry; apply Nat.ltb_ge; assumption).
  rewrite Hproc. unfold setProcessed.
  pose proof (sortBy_perm pairLt (combine twoTheta intensity)) as Hpp.
  set (pairs := sortBy pairLt (combine twoTheta intensity)) in *.
  rewrite combine_app_r by (rewrite !length_map; reflexivity).
  rewrite combine_fst_snd.
  set (mk := fun ti : R * R => newDiffractionPeak (fst ti) (snd ti)).
  pose proof (sortBy_perm peakLt (map mk pairs)) as Hperm.
  pose proof (sortBy_sorted peakLt peakLt_asym (map mk pairs)) as Hsorted.
  assert (Hall : Permutation (sortBy peakLt (map mk pairs))
                             (map mk (combine twoTheta intensity))).
  { rewrite Hperm. apply Permutation_map. exact Hpp. }
  assert (Hangles : Permutation (map getAngle (sortBy peakLt (map mk pairs))) twoTheta).
  { rewrite Hall. unfold mk. rewrite map_getAngle_new.
    rewrite map_fst_combine by assumption. reflexivity. }
  destruct (sortBy peakLt (map mk pairs)) as [| first others] eqn:Hpeaks.
  { cbn [map] in Hangles. apply Permutation_nil in Hangles. contradiction. }
  pose proof (sorted_peaks_bounds others first Hsorted) as Hbounds.
  eexists. split; [reflexivity |].
  cbn [expBase setTypeAndWindow _type _minTwoTheta _maxTwoTheta _resolution
       _diffractionPeaks _continuousTwoTheta _continuousIntensity clear].
  replace (getAngle first - _resolution (expBase e) + _resolution (expBase e))
    with (getAngle first) by ring.
  replace (getAngle (last (first :: others) first) + _resolution (expBase e) / 2
           - _resolution (expBase e) / 2)
    with (getAngle (last (first :: others) first)) by field.
  assert (Hin : forall t, In t (map getAngle (first :: others)) <-> In t twoTheta).
  { intros t. split; apply Permutation_in; [| symmetry]; exact Hangles. }
  repeat split.
  - apply (Sorted_map_le getAngle _ _ peakLt_false_le). exact Hsorted.
  - exact Hall.
  - apply Hin. left. reflexivity.
  - apply Hin. apply in_map.
    destruct (exists_last (l := first :: others) ltac:(discriminate)) as (l' & z & Hz).
    rewrite Hz, last_last. apply in_or_app. right. left. reflexivity.
  - apply Forall_forall. intros t Ht. apply Hin in Ht. apply in_map_iff in Ht.
    destruct Ht as (q & <- & Hq). rewrite Forall_forall in Hbounds.
    apply Hbounds. assumption.
Qed.

(** Extra X14: set has no result exactly when there are fewer intensities
    than angles (an intensity is read outside its vector), or there is no
    angle at all (the empty list counts as an already processed pattern,
    whose first peak is read), or the measurements are taken for a raw
    pattern and the processing of the sorted data has no result. *)
Theorem set_undefined_iff (e : ExperimentalPattern) (twoTheta intensity : list R) :
  let pairs := sortBy pairLt (combine twoTheta intensity) in
  set fitLocated e twoTheta intensity = None <->
  (length intensity < length twoTheta)%nat \/ twoTheta = [] \/
  (alreadyProcessed (map fst pairs) = false /\
   fitPeaks fitLocated (map fst pairs) (map snd pairs ++ skipn (length twoTheta) intensity)
   = None).
Proof.
  intros pairs0. subst pairs0. unfold set.
  destruct (Nat.ltb_spec (length intensity) (length twoTheta)) as [Hlt | Hge].
  - split; [intros _; left; assumption | reflexivity].
  - pose proof (sorted_angles_perm twoTheta intensity Hge) as Hperm.
    set (pairs := sortBy pairLt (combine twoTheta intensity)) in *.
    destruct (alreadyProcessed (map fst pairs)) eqn:Hproc.
    + unfold setProcessed.
      rewrite combine_app_r by (rewrite !length_map; reflexivity).
      rewrite combine_fst_snd.
      pose proof (sortBy_perm peakLt
                    (map (fun ti => newDiffractionPeak (fst ti) (snd ti)) pairs)) as Hp.
      destruct (sortBy peakLt _) as [| first others].
      * split; [intros _; right; left | reflexivity].
        apply Permutation_nil in Hp. apply map_eq_nil in Hp.
        rewrite Hp in Hperm. cbn [map] in Hperm.
        apply Permutation_nil in Hperm. assumption.
      * split; [discriminate |]. intros [Hlt | [-> | [Hraw _]]]; [lia | | discriminate].
        subst pairs. cbn in Hp.
        apply Permutation_sym, Permutation_nil in Hp. discriminate.
    + unfold setRaw.
      destruct (fitPeaks fitLocated (map fst pairs) _) as [fitted |] eqn:Hfit.
      * destruct (map fst pairs) as [| t0 rest] eqn:Htt.
        { rewrite alreadyProcessed_nil in Hproc. discriminate. }
        cbn [bind]. destruct (getPeakIntensities _ _) as [e1 thrown].
        split; [discriminate |]. intros [Hlt | [-> | [_ Hnone]]]; [lia | | discriminate].
        apply Permutation_sym, Permutation_nil in Hperm. discriminate.
      * split; [intros _; right; right; split; reflexivity |]. intros _.
        destruct (map fst pairs) as [| t0 rest]; reflexivity.
Qed.

Lemma extractPeaks_accepted (minTwoTheta maxTwoTheta : R) (fitted : list (R * R)) :
  Forall (fun f => 0 <= snd f /\ minTwoTheta <= fst f <= maxTwoTheta) fitted ->
  forall peaks,
    extractPeaks minTwoTheta maxTwoTheta fitted peaks
    = (peaks ++ map (fun f => newDiffractionPeak (fst f) (snd f)) fitted, false).
Proof.
  induction 1 as [| [location intensity] rest Hf Hrest IH]; intros peaks;
    cbn [extractPeaks map].
  - rewrite app_nil_r. reflexivity.
  - cbn [fst snd] in Hf.
    rewrite (Rltb_false intensity 0.0), (Rltb_false location minTwoTheta),
      (Rltb_false maxTwoTheta location) by lra.
    cbn [orb]. rewrite IH, <- app_assoc. reflexivity.
Qed.

(** Extra X15: when a raw pattern is processed and every fitted peak has a
    non-negative integrated intensity and its maximum within the measured
    range, set stores one diffraction peak for each fitted peak, in the
    order of the fit, with the fitted location as its angle, the integrated
    intensity as its intensity and pattern index -1.  The fitted peaks are
    those the processing of the sorted data arrives at. *)
Theorem set_raw_keeps_accepted_peaks
    (e : ExperimentalPattern) (twoTheta intensity : list R) (fitted : list (R * R)) :
  let pairs := sortBy pairLt (combine twoTheta intensity) in
  let sortedTwoTheta := map fst pairs in
  let sortedIntensity := map snd pairs in
  (length twoTheta <= length intensity)%nat ->
  alreadyProcessed sortedTwoTheta = false ->
  fitPeaks fitLocated sortedTwoTheta (sortedIntensity ++ skipn (length twoTheta) intensity)
  = Some fitted ->
  Forall (fun f => 0 <= snd f /\
                   lowestAngle sortedTwoTheta <= fst f <= highestAngle sortedTwoTheta)
         fitted ->
  exists e',
    set fitLocated e twoTheta intensity = Some e' /\
    _diffractionPeaks e' = map (fun f => newDiffractionPeak (fst f) (snd f)) fitted.
Proof.
  intros pairs sortedTwoTheta sortedIntensity Hlen Hraw Hfit Hok.
  unfold set. fold pairs. fold sortedIntensity. fold sortedTwoTheta.
  replace (length intensity <? length twoTheta)%nat with false
    by (symmetry; apply Nat.ltb_ge; assumption).
  rewrite Hraw. unfold setRaw.
  destruct sortedTwoTheta as [| t0 rest] eqn:Htt.
  { rewrite alreadyProcessed_nil in Hraw. discriminate. }
  rewrite Hfit. cbn [bind].
  cbn [lowestAngle highestAngle] in Hok.
  unfold getPeakIntensities.
  cbn [setDiffractionPeaks expBase setTypeAndWindow _minTwoTheta _maxTwoTheta
       _diffractionPeaks].
  rewrite (extractPeaks_accepted _ _ _ Hok []). cbn [app].
  eexists. split; reflexivity.
Qed.

(** Extra X16: two measurements at different angles are always taken for a
    raw pattern (their single spacing is at once the smallest and the
    largest, so the test for a processed pattern fails), and set has no
    result on them: locatePeaks smooths the first derivative, a vector of
    two entries, with three points per side, where the unsigned bound
    size() - numPerSide of the loop of smoothData wraps around and the
    vector is read outside its bounds. *)
Theorem set_two_measurements_undefined (e : ExperimentalPattern) (a b ia ib : R)
    (more : list R) :
  a <> b ->
  alreadyProcessed (map fst (sortBy pairLt (combine [a; b] (ia :: ib :: more)))) = false /\
  set fitLocated e [a; b] (ia :: ib :: more) = None.
Proof.
  intros Hab.
  assert (Hraw : forall lo hi, lo < hi -> alreadyProcessed [lo; hi] = false).
  { intros lo hi Hlt. unfold alreadyProcessed. cbn [spacing spacingLoop].
    rewrite (Rltb_false (hi - lo) (hi - lo)) by lra.
    rewrite (Rltb_false (1.1 * (hi - lo))), (Reqb_false (hi - lo) 0) by lra.
    reflexivity. }
  assert (Hnone : forall lo hi ints, fitPeaks fitLocated [lo; hi] ints = None).
  { intros lo hi ints. unfold fitPeaks.
    destruct (Processing.smoothData [lo; hi] ints 2 0.25) as [smoothed |];
      [cbn [bind] | reflexivity].
    destruct (Baseline.removeBackground [lo; hi] smoothed) as [cleaned |];
      [cbn [bind] | reflexivity].
    unfold Processing.getFirstDerivative.
    cbn [length repeat nth_error bind Processing.assign Nat.sub seq Processing.forEach].
    unfold Processing.smoothData. cbn [length Nat.ltb Nat.leb bind]. reflexivity. }
  assert (Hset : forall lo hi ints,
            lo < hi ->
            alreadyProcessed [lo; hi] = false /\
            (if alreadyProcessed [lo; hi]
             then setProcessed (clear e) [lo; hi] ints
             else setRaw fitLocated (clear e) [lo; hi] ints) = None).
  { intros lo hi ints Hlt. rewrite (Hraw lo hi Hlt). split; [reflexivity |].
    unfold setRaw. rewrite Hnone. reflexivity. }
  unfold set. cbn [length Nat.ltb Nat.leb combine sortBy fold_right insertSorted].
  unfold pairLt; cbn [fst snd].
  destruct (Rlt_le_dec a b) as [Hlt | Hge].
  - rewrite (Rltb_false b a), (Rltb_true a b) by lra. cbn [orb andb negb map fst snd].
    apply Hset. assumption.
  - rewrite (Rltb_true b a) by lra. cbn [orb map fst snd].
    apply Hset. lra.
Qed.

End StoredPattern.

(* evaluate the sort of the pairs, and the test on their spacing, on numerals *)
Ltac sort_pairs :=
  repeat (cbn [sortBy fold_right insertSorted combine]; unfold pairLt;
          cbn [fst snd]; rcmp; cbn [orb andb negb]).

Ltac spacing_eval :=
  unfold Experimental.alreadyProcessed;
  repeat (cbn [Experimental.spacing Experimental.spacingLoop length]; rcmp);
  cbn [orb andb].

Lemma sortBy_pairs_raw :
  sortBy pairLt (combine [12; 10; 11] [1; 1; 5]) = [(10, 1); (11, 5); (12, 1)].
Proof. sort_pairs. reflexivity. Qed.

Lemma sortBy_pairs_processed :
  sortBy pairLt (combine [40; 10; 20] [2; 3; 1]) = [(10, 3); (20, 1); (40, 2)].
Proof. sort_pairs. reflexivity. Qed.

Lemma set_raw_stores_sorted_witness :
  let fitLocated := fun _ _ _ _ : list R => Some [(11, 4)] in
  exists e',
    Experimental.set fitLocated Examples.emptyPattern [12; 10; 11] [1; 1; 5] = Some e' /\
    _type (expBase e') = PT_EXP_RAW /\
    Sorted Rle (_continuousTwoTheta e') /\
    Permutation (combine (_continuousTwoTheta e') (_continuousIntensity e'))
                (combine [12; 10; 11] [1; 1; 5]) /\
    In (_minTwoTheta (expBase e')) [12; 10; 11] /\
    In (_maxTwoTheta (expBase e')) [12; 10; 11] /\
    Forall (fun t => _minTwoTheta (expBase e') <= t <= _maxTwoTheta (expBase e'))
           [12; 10; 11].
Proof.
  intros fitLocated.
  apply (set_raw_stores_sorted fitLocated Examples.emptyPattern [12; 10; 11] [1; 1; 5]
           [(11, 4)]).
  - cbn [length]. lia.
  - rewrite sortBy_pairs_raw. cbn [map fst]. spacing_eval. reflexivity.
  - rewrite sortBy_pairs_raw. cbn [map fst snd length skipn app].
    apply fitPeaks_three_measurements. reflexivity.
Defined.

Lemma set_processed_stores_peaks_witness :
  let fitLocated := fun _ _ _ _ : list R => @None (list (R * R)) in
  let e := Examples.emptyPattern in
  exists e',
    Experimental.set fitLocated e [40; 10; 20] [2; 3; 1] = Some e' /\
    _type (expBase e') = PT_EXP_INT /\
    Sorted Rle (map getAngle (_diffractionPeaks e')) /\
    Permutation (_diffractionPeaks e')
      (map (fun ti => newDiffractionPeak (fst ti) (snd ti))
           (combine [40; 10; 20] [2; 3; 1])) /\
    _continuousTwoTheta e' = [] /\ _continuousIntensity e' = [] /\
    In (_minTwoTheta (expBase e') + _resolution (expBase e)) [40; 10; 20] /\
    In (_maxTwoTheta (expBase e') - _resolution (expBase e) / 2) [40; 10; 20] /\
    Forall (fun t => _minTwoTheta (expBase e') + _resolution (expBase e) <= t
                     <= _maxTwoTheta (expBase e') - _resolution (expBase e) / 2)
           [40; 10; 20].
Proof.
  intros fitLocated e. apply set_processed_stores_peaks.
  - cbn [length]. lia.
  - discriminate.
  - rewrite sortBy_pairs_processed. cbn [map fst]. spacing_eval. reflexivity.
Defined.

Lemma set_two_measurements_undefined_witness :
  Experimental.alreadyProcessed
    (map fst (sortBy pairLt (combine [30; 20] [5; 7]))) = false /\
  Experimental.set (fun _ _ _ _ => Some []) Examples.emptyPattern [30; 20] [5; 7] = None.
Proof. apply set_two_measurements_undefined. lra. Defined.

Lemma set_raw_keeps_accepted_peaks_witness :
  let fitLocated := fun _ _ _ _ : list R => Some [(11, 4); (11.5, 0)] in
  exists e',
    Experimental.set fitLocated Examples.emptyPattern [12; 10; 11] [1; 1; 5] = Some e' /\
    _diffractionPeaks e' = [newDiffractionPeak 11 4; newDiffractionPeak 11.5 0].
Proof.
  intros fitLocated.
  pose proof (set_raw_keeps_accepted_peaks fitLocated Examples.emptyPattern
                [12; 10; 11] [1; 1; 5] [(11, 4); (11.5, 0)]) as H.
  cbv zeta in H. rewrite sortBy_pairs_raw in H. cbn [map fst snd] in H.
  apply H.
  - cbn [length]. lia.
  - spacing_eval. reflexivity.
  - cbn [length skipn app]. apply fitPeaks_three_measurements. reflexivity.
  - unfold Experimental.lowestAngle, Experimental.highestAngle,
      Experimental.min_element, Experimental.max_element.
    cbn [fold_left]. rcmp.
    repeat constructor; cbn [fst snd]; lra.
Defined.

(** ** Interpolation in a raw pattern *)

Section Interpolation.

Import Measured.

Lemma insertSorted_below (x : R) (l : list R) :
  HdRel Rlt x l -> insertSorted Rltb x l = x :: l.
Proof.
  intros Hhd. destruct l as [| y l]; [reflexivity |].
  inversion Hhd; subst. cbn [insertSorted].
  rewrite (Rltb_false y x) by lra. reflexivity.
Qed.

(* sorting does not move the entries of a list in strictly ascending order *)
Lemma sortBy_ascending (l : list R) : Sorted Rlt l -> sortBy Rltb l = l.
Proof.
  induction 1 as [| x l Hs IH Hhd]; [reflexivity |].
  change (sortBy Rltb (x :: l)) with (insertSorted Rltb x (sortBy Rltb l)).
  rewrite IH. apply insertSorted_below. assumption.
Qed.

Lemma nth_error_last (l : list R) (x d : R) :
  nth_error (x :: l) (length (x :: l) - 1) = Some (last (x :: l) d).
Proof.
  revert x. induction l as [| y l IH]; intros x; [reflexivity |].
  specialize (IH y). cbn [length Nat.sub] in *. rewrite Nat.sub_0_r in *.
  change (last (x :: y :: l) d) with (last (y :: l) d).
  cbn [nth_error]. exact IH.
Qed.

Lemma skipn_window (pre : list R) (a : R) (rest : list R) :
  skipn (S (length pre)) (pre ++ a :: rest) = rest.
Proof.
  induction pre as [| p pre IH]; [reflexivity |]. exact IH.
Qed.

Lemma nth_error_window (pre : list R) (a : R) (rest : list R) (n : nat) :
  length pre = n -> nth_error (pre ++ a :: rest) n = Some a.
Proof. intros <-. rewrite nth_error_app2, Nat.sub_diag by lia. reflexivity. Qed.

Lemma nth_error_window_next (pre : list R) (a b : R) (rest : list R) (n : nat) :
  length pre = n -> nth_error (pre ++ a :: b :: rest) (S n) = Some b.
Proof.
  intros <-. rewrite nth_error_app2 by lia.
  replace (S (length pre) - length pre)%nat with 1%nat by lia. reflexivity.
Qed.

Lemma interpolate_cons (T I : list R) (cpos : nat) (angle : R) (rest : list R) :
  interpolate T I cpos (angle :: rest)
  = (c <- seek angle cpos (skipn (S cpos) T) ;;
     i0 <- nth_error I c ;;
     i1 <- nth_error I (S c) ;;
     t1 <- nth_error T (S c) ;;
     t0 <- nth_error T c ;;
     output <- interpolate T I c rest ;;
     Some (i0 + (i1 - i0) / (t1 - t0) * (angle - t0) :: output)).
Proof. reflexivity. Qed.

(* from the interval [a, b] on: the angles from b on give the intensities
   from ib on *)
Lemma interpolate_nodes (rest : list R) :
  forall pre a b ipre ia ib irest,
    length ipre = length pre ->
    length irest = length rest ->
    a < b ->
    Sorted Rlt (b :: rest) ->
    interpolate (pre ++ a :: b :: rest) (ipre ++ ia :: ib :: irest) (length pre) (b :: rest)
    = Some (ib :: irest).
Proof.
  induction rest as [| c rest IH]; intros pre a b ipre ia ib irest Hpre Hrest Hab Hs.
  - destruct irest; [| discriminate]. cbn [interpolate].
    rewrite skipn_window. cbn [seek]. rewrite (Rltb_false b b) by lra. cbn [bind].
    rewrite (nth_error_window ipre _ _ _ Hpre), (nth_error_window_next ipre _ _ _ _ Hpre).
    rewrite (nth_error_window pre _ _ _ eq_refl), (nth_error_window_next pre _ _ _ _ eq_refl).
    cbn [bind].
    f_equal. f_equal. field. lra.
  - destruct irest as [| ic irest]; [discriminate |]. injection Hrest as Hrest.
    inversion Hs as [| ? ? Hs' Hhd]; subst. inversion Hhd as [| ? ? Hbc]; subst.
    specialize (IH (pre ++ [a]) b c (ipre ++ [ia]) ib ic irest).
    rewrite !length_app in IH. cbn [length] in IH.
    rewrite <- !app_assoc in IH. cbn [app] in IH.
    specialize (IH ltac:(lia) Hrest Hbc Hs').
    rewrite Nat.add_1_r in IH.
    cbn [interpolate]. rewrite skipn_window. cbn [seek].
    rewrite (Rltb_false b b) by lra. cbn [bind].
    rewrite (nth_error_window ipre _ _ _ Hpre), (nth_error_window_next ipre _ _ _ _ Hpre).
    rewrite (nth_error_window pre _ _ _ eq_refl), (nth_error_window_next pre _ _ _ _ eq_refl).
    cbn [bind].
    (* the next angle: cpos moves on by one *)
    cbn [interpolate] in IH. rewrite skipn_window. cbn [seek].
    rewrite (Rltb_true b c) by assumption.
    replace (pre ++ a :: b :: c :: rest) with ((pre ++ [a]) ++ b :: c :: rest) in IH
      by (rewrite <- app_assoc; reflexivity).
    replace (S (length pre)) with (length (pre ++ [a])) in IH
      by (rewrite length_app; cbn [length]; lia).
    rewrite skipn_window in IH. cbn [seek] in IH.
    rewrite length_app in IH. cbn [length] in IH. rewrite Nat.add_1_r in IH.
    rewrite <- app_assoc in IH. cbn [app] in IH.
    rewrite IH. cbn [bind]. f_equal. f_equal. field. lra.
Qed.

(** Extra X17: a raw pattern stored with at least two angles in strictly
    ascending order, each with an intensity, returns the stored intensities
    when it is asked for the intensity at its own angles: the linear
    interpolation is exact at the measured points. *)
Theorem getDiffractedIntensity_at_measured_angles (e : ExperimentalPattern) :
  Sorted Rlt (_continuousTwoTheta e) ->
  length (_continuousIntensity e) = length (_continuousTwoTheta e) ->
  (2 <= length (_continuousTwoTheta e))%nat ->
  getDiffractedIntensity e (_continuousTwoTheta e) = Some (_continuousIntensity e).
Proof.
  intros Hs Hlen H2. unfold getDiffractedIntensity.
  rewrite (sortBy_ascending _ Hs).
  destruct (_continuousTwoTheta e) as [| a [| b rest]]; cbn [length] in H2; try lia.
  destruct (_continuousIntensity e) as [| ia [| ib irest]]; try discriminate.
  injection Hlen as Hlen.
  cbn [nth_error bind]. rewrite (Rltb_false a a) by lra.
  rewrite (nth_error_last (b :: rest) a 0). cbn [bind].
  rewrite (Rltb_false (last (a :: b :: rest) 0)) by lra.
  inversion Hs as [| ? ? Hs' Hhd]; subst. inversion Hhd as [| ? ? Hab]; subst.
  pose proof (interpolate_nodes rest [] a b [] ia ib irest eq_refl Hlen Hab Hs') as Hnodes.
  cbn [app length] in Hnodes.
  rewrite interpolate_cons. cbn [skipn seek]. rewrite (Rltb_false b a) by lra.
  cbn [bind nth_error]. rewrite Hnodes. cbn [bind].
  f_equal. f_equal. field. lra.
Qed.

Lemma Rltb_asym (a b : R) : Rltb a b = true -> Rltb b a = false.
Proof. intros H. apply Rltb_lt in H. apply Rltb_false. lra. Qed.

(* in a sorted list of numbers the first is the least and the last the greatest *)
Lemma sorted_reals_bounds (l : list R) :
  forall p,
    Sorted (fun a b => Rltb b a = false) (p :: l) ->
    Forall (fun q => p <= q <= last (p :: l) p) (p :: l).
Proof.
  induction l as [| q l IH]; intros p Hs.
  - constructor; [cbn [last]; lra | constructor].
  - inversion Hs as [| ? ? Hrest Hhd]; subst.
    inversion Hhd as [| ? ? Hpq]; subst. apply Rltb_ge in Hpq.
    specialize (IH q Hrest).
    change (last (p :: q :: l) p) with (last (q :: l) p).
    rewrite (last_default l q p q).
    assert (Hq : q <= last (q :: l) q) by (inversion IH; subst; lra).
    constructor; [lra |].
    eapply Forall_impl; [| exact IH]. cbn beta. intros r Hr. lra.
Qed.

(** Extra X18: getDiffractedIntensity gives no intensity (it quits, or reads
    outside a vector) when it is asked for no angle at all, when the pattern
    holds no continuous data, or when one of the angles asked for lies below
    the first or above the last angle stored. *)
Theorem getDiffractedIntensity_outside_range (e : ExperimentalPattern) (twoTheta : list R) :
  twoTheta = [] \/
  _continuousTwoTheta e = [] \/
  Exists (fun x => x < hd 0 (_continuousTwoTheta e) \/
                   last (_continuousTwoTheta e) 0 < x) twoTheta ->
  getDiffractedIntensity e twoTheta = None.
Proof.
  unfold getDiffractedIntensity. intros [-> | [Hnone | Hout]].
  - reflexivity.
  - rewrite Hnone. destruct (nth_error (sortBy Rltb twoTheta) 0); reflexivity.
  - pose proof (sortBy_perm Rltb twoTheta) as Hperm.
    pose proof (sortBy_sorted Rltb Rltb_asym twoTheta) as Hsorted.
    apply Exists_exists in Hout. destruct Hout as (x & Hx & Hrange).
    apply (Permutation_in _ (Permutation_sym Hperm)) in Hx.
    destruct (sortBy Rltb twoTheta) as [| s0 srest]; [destruct Hx |].
    pose proof (sorted_reals_bounds srest s0 Hsorted) as Hb.
    rewrite Forall_forall in Hb. specialize (Hb x Hx).
    destruct (_continuousTwoTheta e) as [| t0 rest]; [reflexivity |].
    cbn [hd] in Hrange. cbn [nth_error bind].
    destruct (Rltb_cases s0 t0) as [[Hlt ->] | [Hge ->]]; [reflexivity |].
    rewrite (nth_error_last rest t0 0). cbn [bind].
    rewrite (last_default srest s0 0 s0).
    rewrite Rltb_true; [reflexivity |]. lra.
Qed.

End Interpolation.

Lemma getDiffractedIntensity_at_measured_angles_witness :
  Measured.getDiffractedIntensity
    (mkExperimentalPattern Examples.newDiffraction [10; 11; 12] [1; 5; 1] [])
    [10; 11; 12] = Some [1; 5; 1].
Proof.
  apply (getDiffractedIntensity_at_measured_angles
           (mkExperimentalPattern Examples.newDiffraction [10; 11; 12] [1; 5; 1] [])).
  - cbn [_continuousTwoTheta]. repeat constructor; lra.
  - reflexivity.
  - cbn [_continuousTwoTheta length]. lia.
Defined.

Lemma getDiffractedIntensity_outside_range_witness :
  Measured.getDiffractedIntensity
    (mkExperimentalPattern Examples.newDiffraction [10; 11; 12] [1; 5; 1] [])
    [11; 12.5] = None.
Proof.
  apply getDiffractedIntensity_outside_range. right. right.
  cbn [_continuousTwoTheta hd last].
  apply Exists_cons_tl, Exists_cons_hd. right. lra.
Defined.

(** ** Derivatives of a sampled curve *)

Section Derivatives.

Import Processing.

Lemma assign_app (pre : list R) (a v : R) (rest : list R) (n : nat) :
  length pre = n -> assign n v (pre ++ a :: rest) = pre ++ v :: rest.
Proof.
  intros <-. induction pre as [| p pre IH]; [reflexivity |].
  cbn [app length assign]. rewrite IH. reflexivity.
Qed.

(* a loop that fills the cells s, s + 1, ... of a vector of zeros with g *)
Lemma forEach_fill (body : nat -> list R -> option (list R)) (g : nat -> R) (m : nat) :
  forall k s pre,
    (forall i d, (s <= i < s + k)%nat -> body i d = Some (assign i (g i) d)) ->
    length pre = s ->
    forEach body (seq s k) (pre ++ repeat 0 (k + m))
    = Some (pre ++ map g (seq s k) ++ repeat 0 m).
Proof.
  induction k as [| k IH]; intros s pre Hbody Hpre; [reflexivity |].
  cbn [seq forEach plus repeat map app].
  rewrite Hbody by lia. cbn [bind].
  rewrite (assign_app pre 0 (g s) _ s Hpre).
  specialize (IH (S s) (pre ++ [g s])).
  rewrite <- !app_assoc in IH. cbn [app] in IH. apply IH.
  - intros i d Hi. apply Hbody. lia.
  - rewrite length_app. cbn [length]. lia.
Qed.

Lemma map_const_repeat {A : Type} (c : R) (l : list A) :
  map (fun _ => c) l = repeat c (length l).
Proof. induction l as [| a l IH]; cbn [map length repeat]; [| rewrite IH]; reflexivity. Qed.

(* the points x0, x0 + delta, ... and the values of f on them *)
Lemma nth_error_grid (f : R -> R) (x0 delta : R) (n j : nat) :
  (j < n)%nat ->
  nth_error (map f (map (fun k => x0 + INR k * delta) (seq 0 n))) j
  = Some (f (x0 + INR j * delta)).
Proof.
  intros Hj. rewrite map_map.
  rewrite (nth_error_map (fun k => f (x0 + INR k * delta))).
  rewrite nth_error_nth' with (d := 0%nat) by (rewrite length_seq; assumption).
  rewrite seq_nth by assumption. reflexivity.
Qed.

Lemma nth_error_points (x0 delta : R) (n j : nat) :
  (j < n)%nat ->
  nth_error (map (fun k => x0 + INR k * delta) (seq 0 n)) j = Some (x0 + INR j * delta).
Proof.
  intros Hj. pose proof (nth_error_grid (fun t => t) x0 delta n j Hj) as H.
  rewrite map_id in H. exact H.
Qed.

(* the vector after the loop, seen from its last two cells *)
Lemma filled_vector (first g : R) (m : nat) :
  [first] ++ map (fun _ : nat => g) (seq 1 (S m)) ++ repeat 0 1
  = (first :: repeat g m) ++ [g; 0].
Proof.
  rewrite map_const_repeat, length_seq. cbn [repeat app]. f_equal.
  change (g :: repeat g m ++ [0]) with ((g :: repeat g m) ++ [0]).
  rewrite repeat_cons, <- app_assoc. reflexivity.
Qed.

Lemma assign_last (pre : list R) (q z v : R) :
  assign (S (length pre)) v (pre ++ [q; z]) = pre ++ [q; v].
Proof.
  change (pre ++ [q; z]) with (pre ++ [q] ++ [z]). rewrite app_assoc.
  rewrite (assign_app (pre ++ [q]) z v [] (S (length pre)))
    by (rewrite length_app; cbn [length]; lia).
  rewrite <- app_assoc. reflexivity.
Qed.

(** Extra X19: for a straight line y = a x + b sampled at three or more
    equally spaced points, getFirstDerivative returns the slope a at every
    interior point, 0 at the first point and -a / delta at the last one
    (delta is the spacing): the two end values are computed from the
    output vector, not from y. *)
Theorem getFirstDerivative_linear (n : nat) (x0 delta a b : R) :
  (3 <= n)%nat ->
  delta <> 0 ->
  let x := map (fun k => x0 + INR k * delta) (seq 0 n) in
  let y := map (fun t => a * t + b) x in
  getFirstDerivative x y = Some (0 :: repeat a (n - 2) ++ [- a / delta]).
Proof.
  intros Hn Hd x y. destruct n as [| [| [| m]]]; try lia.
  unfold getFirstDerivative.
  assert (Hlen : length x = S (S (S m))) by (unfold x; rewrite length_map, length_seq; reflexivity).
  rewrite Hlen.
  unfold x at 1 2. rewrite !nth_error_points by lia. cbn [bind].
  replace (2 * (x0 + INR 1 * delta - (x0 + INR 0 * delta))) with (2 * delta)
    by (cbn [INR]; ring).
  cbn [repeat nth_error bind assign Nat.sub].
  replace ((0 - 0) / (2 * delta) * 2) with 0 by (field; assumption).
  replace (0 :: 0 :: 0 :: repeat 0 m) with ([0] ++ repeat 0 (S m + 1))
    by (rewrite Nat.add_1_r; reflexivity).
  rewrite (forEach_fill _ (fun _ => a) 1 (S m) 1 [0]).
  - rewrite filled_vector. cbn [bind].
    set (pre := 0 :: repeat a m).
    replace (length (pre ++ [a; 0])) with (S (S (length pre)))
      by (rewrite length_app; cbn [length]; lia).
    cbn [Nat.sub]. rewrite !Nat.sub_0_r.
    rewrite (nth_error_window_next pre a 0 [] (length pre) eq_refl).
    rewrite (nth_error_window pre a [0] (length pre) eq_refl). cbn [bind].
    rewrite assign_last. unfold pre.
    rewrite (repeat_cons m a), <- app_assoc. cbn [app].
    replace ((0 - a) / (2 * delta) * 2) with (- a / delta) by (field; assumption).
    reflexivity.
  - intros i d Hi. unfold y, x.
    rewrite !nth_error_grid by lia. cbn [bind]. do 2 f_equal.
    rewrite plus_INR, minus_INR by lia. cbn [INR]. field. assumption.
  - reflexivity.
Qed.

(** Extra X20: for a parabola y = a x^2 + b x + c sampled at three or more
    equally spaced points, getSecondDerivative returns 2 a at every point. *)
Theorem getSecondDerivative_quadratic (n : nat) (x0 delta a b c : R) :
  (3 <= n)%nat ->
  delta <> 0 ->
  let x := map (fun k => x0 + INR k * delta) (seq 0 n) in
  let y := map (fun t => a * (t * t) + b * t + c) x in
  getSecondDerivative x y = Some (repeat (2 * a) n).
Proof.
  intros Hn Hd x y. destruct n as [| [| [| m]]]; try lia.
  unfold getSecondDerivative.
  assert (Hlen : length x = S (S (S m))) by (unfold x; rewrite length_map, length_seq; reflexivity).
  rewrite Hlen.
  unfold x at 1 2. rewrite !nth_error_points by lia. cbn [bind].
  replace (x0 + INR 1 * delta - (x0 + INR 0 * delta)) with delta by (cbn [INR]; ring).
  cbn [repeat Nat.sub].
  replace (0 :: 0 :: 0 :: repeat 0 m) with ([0] ++ repeat 0 (S m + 1))
    by (rewrite Nat.add_1_r; reflexivity).
  rewrite (forEach_fill _ (fun _ => 2 * a) 1 (S m) 1 [0]).
  - rewrite filled_vector. cbn [bind].
    assert (Hsecond : nth_error ((0 :: repeat (2 * a) m) ++ [2 * a; 0]) 1 = Some (2 * a)).
    { destruct m; reflexivity. }
    rewrite Hsecond. cbn [bind app assign].
    set (pre := 2 * a :: repeat (2 * a) m).
    change (2 * a :: repeat (2 * a) m ++ [2 * a; 0]) with (pre ++ [2 * a; 0]).
    replace (length (pre ++ [2 * a; 0])) with (S (S (length pre)))
      by (rewrite length_app; cbn [length]; lia).
    cbn [Nat.sub]. rewrite !Nat.sub_0_r.
    rewrite (nth_error_window pre (2 * a) [0] (length pre) eq_refl). cbn [bind].
    rewrite assign_last. unfold pre.
    change (2 * a :: repeat (2 * a) m) with (repeat (2 * a) (S m)).
    change [2 * a; 2 * a] with (repeat (2 * a) 2). rewrite <- repeat_app.
    replace (S m + 2)%nat with (S (S (S m))) by lia. reflexivity.
  - intros i d Hi. unfold y, x.
    rewrite !nth_error_grid by lia. cbn [bind]. do 2 f_equal.
    rewrite plus_INR, minus_INR by lia. cbn [INR]. field. assumption.
  - reflexivity.
Qed.

End Derivatives.

Lemma getFirstDerivative_linear_witness :
  Processing.getFirstDerivative
    (map (fun k => 10 + INR k * 2) (seq 0 4))
    (map (fun t => 3 * t + 1) (map (fun k => 10 + INR k * 2) (seq 0 4)))
  = Some (0 :: repeat 3 (4 - 2) ++ [- 3 / 2]).
Proof. apply (getFirstDerivative_linear 4 10 2 3 1); [lia | lra]. Defined.

Lemma getSecondDerivative_quadratic_witness :
  Processing.getSecondDerivative
    (map (fun k => 10 + INR k * 2) (seq 0 4))
    (map (fun t => 3 * (t * t) + 1 * t + 5) (map (fun k => 10 + INR k * 2) (seq 0 4)))
  = Some (repeat (2 * 3) 4).
Proof. apply (getSecondDerivative_quadratic 4 10 2 3 1 5); [lia | lra]. Defined.

(** ** Smoothing *)

Section Smoothing.

Import Processing.

Let sumR (l : list R) : R := fold_right Rplus 0 l.

Lemma sumR_app (l1 l2 : list R) : sumR (l1 ++ l2) = sumR l1 + sumR l2.
Proof.
  unfold sumR. induction l1 as [| a l1 IH]; cbn [app fold_right]; [ring |].
  rewrite IH. ring.
Qed.

Lemma sumR_rev (l : list R) : sumR (rev l) = sumR l.
Proof.
  induction l as [| a l IH]; [reflexivity |].
  cbn [rev]. rewrite sumR_app, IH. unfold sumR. cbn [fold_right]. ring.
Qed.

Lemma sumR_scaled (t : R) (l : list R) : sumR (map (fun w => w / t) l) = sumR l / t.
Proof.
  unfold sumR. induction l as [| a l IH]; cbn [map fold_right].
  - unfold Rdiv. ring.
  - rewrite IH. unfold Rdiv. ring.
Qed.

Lemma sumR_nonneg (l : list R) : Forall (fun w => 0 <= w) l -> 0 <= sumR l.
Proof.
  unfold sumR. induction 1 as [| a l Ha Hl IH]; cbn [fold_right]; lra.
Qed.

Lemma totalWeight_sum (temp : nat -> R) (l : list nat) (start : R) :
  fold_left (fun t i => t + 2 * temp i) l start = start + 2 * sumR (map temp l).
Proof.
  unfold sumR. revert start.
  induction l as [| i l IH]; intros start; cbn [fold_left map fold_right].
  - ring.
  - rewrite IH. ring.
Qed.

(* the weight of a neighbour lies between the far weight and 1 *)
Lemma temp_nonneg (numPerSide i : nat) (farWeight : R) :
  0 <= farWeight -> (1 <= i <= numPerSide)%nat ->
  0 <= 1.0 + (farWeight - 1.0) * INR i / INR numPerSide.
Proof.
  intros Hfw Hi.
  assert (Hn : 0 < INR numPerSide) by (apply lt_0_INR; lia).
  assert (Hin : INR i <= INR numPerSide) by (apply le_INR; lia).
  assert (Hi0 : 0 <= INR i) by apply pos_INR.
  assert (H1 : 1.0 = 1) by lra. rewrite !H1.
  replace (1 + (farWeight - 1) * INR i / INR numPerSide)
    with ((INR numPerSide - INR i + farWeight * INR i) / INR numPerSide)
    by (field; lra).
  apply Rle_mult_inv_pos; [| assumption].
  assert (0 <= farWeight * INR i) by (apply Rmult_le_pos; assumption). lra.
Qed.

(* the weights are not negative and add up to 1 *)
Lemma smoothWeights_convex (numPerSide : nat) (farWeight : R) :
  0 <= farWeight ->
  Forall (fun w => 0 <= w) (smoothWeights numPerSide farWeight) /\
  sumR (smoothWeights numPerSide farWeight) = 1 /\
  length (smoothWeights numPerSide farWeight) = (numPerSide + S numPerSide)%nat.
Proof.
  intros Hfw. unfold smoothWeights.
  set (temp := fun i : nat => 1.0 + (farWeight - 1.0) * INR i / INR numPerSide).
  assert (Htemp : Forall (fun w => 0 <= w) (map temp (seq 1 numPerSide))).
  { apply Forall_forall. intros w Hw. apply in_map_iff in Hw.
    destruct Hw as (i & <- & Hi). apply in_seq in Hi.
    apply temp_nonneg; [assumption | lia]. }
  rewrite totalWeight_sum.
  pose proof (sumR_nonneg _ Htemp) as Hs.
  set (S1 := sumR (map temp (seq 1 numPerSide))) in *.
  assert (Htot : 0 < 1.0 + 2 * S1) by lra.
  split; [| split].
  - apply Forall_forall. intros w Hw. apply in_map_iff in Hw.
    destruct Hw as (r & <- & Hr).
    apply Rle_mult_inv_pos; [| assumption].
    apply in_app_or in Hr. destruct Hr as [Hr | Hr].
    + rewrite map_rev in Hr. apply in_rev in Hr.
      rewrite Forall_forall in Htemp. apply Htemp. assumption.
    + destruct Hr as [<- | Hr]; [lra |].
      rewrite Forall_forall in Htemp. apply Htemp. assumption.
  - rewrite sumR_scaled, !sumR_app, map_rev, sumR_rev.
    fold S1. replace (sumR [1.0]) with 1 by (unfold sumR; cbn [fold_right]; lra).
    match goal with |- _ / ?d = _ => change d with (1.0 + 2 * S1) end.
    replace (1.0 + 2 * S1) with (1 + 2 * S1) by lra. field. lra.
  - rewrite length_map, !length_app, !length_map, length_rev, length_seq.
    cbn [length]. lia.
Qed.

(* a weighted sum with weights that are not negative lies between the
   least and the greatest entry, times the sum of the weights *)
Lemma weightedSum_from (W X : list R) (s : nat) (lo hi : R) :
  Forall (fun x => lo <= x <= hi) X ->
  forall suf pre acc,
    W = pre ++ suf ->
    Forall (fun w => 0 <= w) suf ->
    (s + length W <= length X)%nat ->
    exists v,
      fold_left (fun acc j =>
                   a <- acc ;;
                   w <- nth_error W j ;;
                   x <- nth_error X (s + j) ;;
                   Some (a + w * x))
                (seq (length pre) (length suf)) (Some acc) = Some v /\
      acc + lo * sumR suf <= v <= acc + hi * sumR suf.
Proof.
  intros HX. induction suf as [| w suf IH]; intros pre acc HW Hsuf Hlen.
  - exists acc. unfold sumR. cbn [length seq fold_left fold_right].
    split; [reflexivity | lra].
  - inversion Hsuf as [| ? ? Hw Hrest]; subst.
    cbn [length seq fold_left bind].
    rewrite nth_error_app2, Nat.sub_diag by lia. cbn [nth_error bind].
    rewrite length_app in Hlen. cbn [length] in Hlen.
    destruct (nth_error X (s + length pre)) as [x |] eqn:Hx;
      [| apply nth_error_None in Hx; lia].
    cbn [bind].
    assert (Hxr : lo <= x <= hi).
    { rewrite Forall_forall in HX. apply HX. eapply nth_error_In. eassumption. }
    destruct (IH (pre ++ [w]) (acc + w * x)) as (v & Hv & Hb).
    + rewrite <- app_assoc. reflexivity.
    + assumption.
    + rewrite length_app. cbn [length]. lia.
    + rewrite length_app in Hv. cbn [length] in Hv. rewrite Nat.add_1_r in Hv.
      exists v. split; [exact Hv |].
      unfold sumR in *. cbn [fold_right].
      assert (lo * w <= w * x) by nra. assert (w * x <= hi * w) by nra. lra.
Qed.

Lemma weightedSum_between (W X : list R) (s : nat) (lo hi : R) :
  Forall (fun w => 0 <= w) W ->
  sumR W = 1 ->
  Forall (fun x => lo <= x <= hi) X ->
  (s + length W <= length X)%nat ->
  exists v, weightedSum W X s = Some v /\ lo <= v <= hi.
Proof.
  intros HW Hsum HX Hlen.
  destruct (weightedSum_from W X s lo hi HX W [] 0 eq_refl HW Hlen) as (v & Hv & Hb).
  exists v. split; [exact Hv |]. rewrite Hsum in Hb. lra.
Qed.

Lemma assign_Forall (P : R -> Prop) (i : nat) (x : R) (v : list R) :
  P x -> Forall P v -> Forall P (assign i x v).
Proof.
  intros Hx Hv. revert i. induction Hv as [| a v Ha Hv IH]; intros [| i]; cbn [assign];
    constructor; auto.
Qed.

Lemma assign_firstn (n i : nat) (x : R) (v : list R) :
  (n <= i)%nat -> firstn n (assign i x v) = firstn n v.
Proof.
  revert n i. induction v as [| a v IH]; intros [| n] [| i] Hle; cbn [assign firstn];
    try reflexivity; try lia.
  rewrite IH by lia. reflexivity.
Qed.

Lemma assign_skipn (k i : nat) (x : R) (v : list R) :
  (i < k)%nat -> skipn k (assign i x v) = skipn k v.
Proof.
  revert k i. induction v as [| a v IH]; intros [| k] [| i] Hlt; cbn [assign skipn];
    try reflexivity; try lia.
  apply IH. lia.
Qed.

(** Extra X21: with a far weight that is not negative and at least
    numPerSide points, smoothData returns a vector of the same length whose
    first and last numPerSide entries are those of the input, and every
    entry lies between any two bounds that hold for all entries of the
    input: the new values are weighted means with weights that are not
    negative and add up to 1.  A constant signal is thus returned unchanged. *)
Theorem smoothData_within_bounds (rawTwoTheta rawIntensity : list R) (numPerSide : nat)
    (power lo hi : R) :
  0 <= power ->
  (numPerSide <= length rawIntensity)%nat ->
  Forall (fun x => lo <= x <= hi) rawIntensity ->
  exists smoothed,
    smoothData rawTwoTheta rawIntensity numPerSide power = Some smoothed /\
    length smoothed = length rawIntensity /\
    Forall (fun x => lo <= x <= hi) smoothed /\
    firstn numPerSide smoothed = firstn numPerSide rawIntensity /\
    skipn (length rawIntensity - numPerSide) smoothed
    = skipn (length rawIntensity - numPerSide) rawIntensity.
Proof.
  intros Hp Hn Hraw. unfold smoothData.
  replace (length rawIntensity <? numPerSide)%nat with false
    by (symmetry; apply Nat.ltb_ge; assumption).
  destruct (smoothWeights_convex numPerSide power Hp) as (Hw & Hsum & Hlen).
  apply (forEach_preserves
           (fun d => length d = length rawIntensity /\
                     Forall (fun x => lo <= x <= hi) d /\
                     firstn numPerSide d = firstn numPerSide rawIntensity /\
                     skipn (length rawIntensity - numPerSide) d
                     = skipn (length rawIntensity - numPerSide) rawIntensity)).
  - intros i d Hi (Hd1 & Hd2 & Hd3 & Hd4). apply in_seq in Hi.
    destruct (weightedSum_between (smoothWeights numPerSide power) rawIntensity
                (i - numPerSide) lo hi Hw Hsum Hraw) as (v & -> & Hv).
    { rewrite Hlen. lia. }
    cbn [bind]. eexists. split; [reflexivity |].
    rewrite assign_length, assign_firstn, assign_skipn by lia.
    repeat split; try assumption. apply assign_Forall; assumption.
  - repeat split. assumption.
Qed.

End Smoothing.

Lemma smoothData_within_bounds_witness :
  exists smoothed,
    Processing.smoothData [10; 11; 12; 13; 14] [4; 4; 4; 4; 4] 2 0.25 = Some smoothed /\
    length smoothed = length [4; 4; 4; 4; 4] /\
    Forall (fun x => 4 <= x <= 4) smoothed /\
    firstn 2 smoothed = firstn 2 [4; 4; 4; 4; 4] /\
    skipn (length [4; 4; 4; 4; 4] - 2) smoothed
    = skipn (length [4; 4; 4; 4; 4] - 2) [4; 4; 4; 4; 4].
Proof.
  apply smoothData_within_bounds.
  - lra.
  - cbn [length]. lia.
  - repeat constructor; lra.
Defined.

(** ** The background signal *)

Section Background.

Import Profile Series.

(* the recurrence of the Chebyshev polynomials, on cosines *)
Lemma cos_recurrence (theta : R) (k : nat) :
  2 * cos theta * cos (INR (S k) * theta) - cos (INR k * theta)
  = cos (INR (S (S k)) * theta).
Proof.
  rewrite !S_INR.
  replace ((INR k + 1 + 1) * theta) with ((INR k + 1) * theta + theta) by ring.
  replace (INR k * theta) with ((INR k + 1) * theta - theta) by ring.
  rewrite cos_plus, cos_minus. ring.
Qed.

Lemma chebyshevTail_cosine (theta : R) (params : list R) :
  forall k output,
    chebyshevTail (cos theta) params (cos (INR k * theta)) (cos (INR (S k) * theta)) output
    = output + cosineSeries theta (S (S k)) params.
Proof.
  induction params as [| c rest IH]; intros k output; cbn [chebyshevTail cosineSeries].
  - ring.
  - rewrite cos_recurrence, IH. ring.
Qed.

(** Extra X22: with Chebyshev terms, the background at an angle t of the
    window [_minTwoTheta, _maxTwoTheta] is the cosine series
    c_0 + c_1 cos(theta) + c_2 cos(2 theta) + ..., where
    cos(theta) = 2 (t - _minTwoTheta) / (_maxTwoTheta - _minTwoTheta) - 1:
    the recurrence of the loop computes the Chebyshev polynomials T_k. *)
Theorem backgroundAt_chebyshev (pat : CalculatedPattern) (t : R) :
  _useChebyshev pat = true ->
  _minTwoTheta (calcBase pat) < _maxTwoTheta (calcBase pat) ->
  _minTwoTheta (calcBase pat) <= t <= _maxTwoTheta (calcBase pat) ->
  let x := 2 * (t - _minTwoTheta (calcBase pat))
           / (_maxTwoTheta (calcBase pat) - _minTwoTheta (calcBase pat)) - 1 in
  backgroundAt pat t = cosineSeries (acos x) 0 (_backgroundParameters pat).
Proof.
  intros Hc Hwin Ht x. unfold backgroundAt. rewrite Hc.
  assert (Hx : -1 <= x <= 1).
  { unfold x.
    set (lo := _minTwoTheta (calcBase pat)) in *.
    set (hi := _maxTwoTheta (calcBase pat)) in *.
    assert (Hpos : 0 < hi - lo) by lra.
    assert (H0 : 0 <= 2 * (t - lo) / (hi - lo)).
    { apply Rle_mult_inv_pos; lra. }
    assert (H2 : 2 * (t - lo) / (hi - lo) <= 2).
    { apply (Rmult_le_reg_r (hi - lo)); [assumption |].
      unfold Rdiv. rewrite Rmult_assoc, Rinv_l by lra. lra. }
    lra. }
  pose proof (cos_acos x Hx) as Hcos.
  destruct (_backgroundParameters pat) as [| c0 [| c1 rest]]; cbn [cosineSeries].
  - reflexivity.
  - cbn [INR]. rewrite Rmult_0_l, cos_0. ring.
  - fold x. rewrite <- Hcos at 1 2.
    pose proof (chebyshevTail_cosine (acos x) rest 0) as Htail.
    cbn [INR] in Htail. rewrite Rmult_0_l, Rmult_1_l, cos_0 in Htail.
    rewrite Htail. cbn [INR]. rewrite Rmult_0_l, Rmult_1_l, cos_0, Hcos. ring.
Qed.

Lemma polynomialTerms_polynomial (t : R) (params : list R) :
  forall x output,
    polynomialTerms t params x output = output + x * polynomial t params.
Proof.
  induction params as [| c rest IH]; intros x output; cbn [polynomialTerms polynomial].
  - ring.
  - rewrite IH. ring.
Qed.

(** Extra X23: without Chebyshev terms, the background at an angle t that
    is not 0 is t^start (c_0 + c_1 t + c_2 t^2 + ...), where start is
    _backgroundPolyStart: with start = -1 this is
    c_0 / t + c_1 + c_2 t + ... *)
Theorem backgroundAt_polynomial (pat : CalculatedPattern) (t : R) :
  _useChebyshev pat = false ->
  t <> 0 ->
  backgroundAt pat t
  = powerRZ t (_backgroundPolyStart pat) * polynomial t (_backgroundParameters pat).
Proof.
  intros Hc _. unfold backgroundAt. rewrite Hc.
  rewrite polynomialTerms_polynomial. ring.
Qed.

End Background.

Lemma backgroundAt_chebyshev_witness :
  Profile.backgroundAt Samples.chebyshevBackground 55
  = Series.cosineSeries (acos (2 * (55 - 10) / (100 - 10) - 1)) 0 [1; 2; 3].
Proof.
  apply (backgroundAt_chebyshev Samples.chebyshevBackground 55).
  - reflexivity.
  - cbn. lra.
  - cbn. lra.
Defined.

Lemma backgroundAt_polynomial_witness :
  Profile.backgroundAt Samples.polynomialBackground 2
  = powerRZ 2 (-1) * Series.polynomial 2 [1; 2; 3].
Proof.
  apply (backgroundAt_polynomial Samples.polynomialBackground 2).
  - reflexivity.
  - lra.
Defined.

(** ** The peak signal of extinct reflections *)

Section ExtinctReflections.

Import Profile.

Let silent (output : list double) : Prop := Forall (fun d => d = Fin 0) output.

Lemma addAt_length (a : nat) (v : double) (output : list double) :
  length (addAt a v output) = length output.
Proof.
  revert a. induction output as [| o rest IH]; intros [| a]; cbn [addAt length];
    try reflexivity.
  rewrite IH. reflexivity.
Qed.

Lemma addAt_silent (a : nat) (k : R) (output : list double) :
  silent output -> silent (addAt a (Fin (0 * k)) output).
Proof.
  unfold silent. intros Hs. revert a.
  induction Hs as [| o rest Ho Hrest IH]; intros [| a]; cbn [addAt]; constructor; auto.
  subst o. cbn [dadd lift2]. f_equal. ring.
Qed.

Lemma addProfile_length (twoTheta : list R) (center : R) (H maxAngle : double)
    (intensity eta : R) (fuel : nat) :
  forall a output,
    length (addProfile twoTheta center H maxAngle intensity eta fuel a output)
    = length output.
Proof.
  induction fuel as [| fuel IH]; intros a output; cbn [addProfile]; [reflexivity |].
  destruct (nth_error twoTheta a) as [t |]; [| reflexivity].
  destruct (dlt (Fin t) maxAngle && (a <? length twoTheta)%nat); [| reflexivity].
  rewrite IH, addAt_length. reflexivity.
Qed.

(* a reflection of intensity 0 adds 0 wherever its profile is added *)
Lemma addProfile_silent (twoTheta : list R) (center h : R) (maxAngle : double)
    (eta : R) (fuel : nat) :
  forall a output,
    silent output ->
    silent (addProfile twoTheta center (Fin h) maxAngle 0 eta fuel a output).
Proof.
  induction fuel as [| fuel IH]; intros a output Hs; cbn [addProfile]; [assumption |].
  destruct (nth_error twoTheta a) as [t |]; [| assumption].
  destruct (dlt (Fin t) maxAngle && (a <? length twoTheta)%nat); [| assumption].
  apply IH. cbn [ddiv dmul dadd dexp lift1 lift2]. apply addAt_silent. assumption.
Qed.

(* with a width that is not a number the profile loop is not entered *)
Lemma addProfile_NaN (twoTheta : list R) (center intensity eta : R) (fuel a : nat)
    (output : list double) :
  addProfile twoTheta center NaN NaN intensity eta fuel a output = output.
Proof.
  destruct fuel as [| fuel]; cbn [addProfile]; [reflexivity |].
  destruct (nth_error twoTheta a) as [t |]; reflexivity.
Qed.

Lemma peakSignal_silent (pat : CalculatedPattern) (twoTheta : list R)
    (output output' : list double) (refl : CalculatedPeak) :
  getIntensity (base refl) = 0 ->
  peakSignal pat twoTheta output refl = Some output' ->
  silent output -> silent output' /\ length output' = length output.
Proof.
  intros Hzero. unfold peakSignal. rewrite Hzero.
  destruct (dge _ _); [intros [= <-]; auto |].
  destruct (skipBelow _ _ _ _) as [a |]; cbn [bind]; [| discriminate].
  intros [= <-] Hs. split; [| apply addProfile_length].
  unfold dsqrt. destruct (Rltb (caglioti pat refl) 0).
  - cbn [dmul dadd lift2]. rewrite addProfile_NaN. assumption.
  - apply addProfile_silent. assumption.
Qed.

Lemma peakLoop_silent (pat : CalculatedPattern) (twoTheta : list R)
    (reflections : list CalculatedPeak) :
  Forall (fun r => getIntensity (base r) = 0) reflections ->
  forall output output',
    peakLoop pat twoTheta reflections output = Some output' ->
    silent output -> silent output' /\ length output' = length output.
Proof.
  induction 1 as [| refl rest Hr Hrest IH]; intros output output'; cbn [peakLoop].
  - intros [= <-]. auto.
  - destruct (peakSignal pat twoTheta output refl) as [o1 |] eqn:H1; cbn [bind];
      [| discriminate].
    intros Hloop Hs.
    destruct (peakSignal_silent _ _ _ _ _ Hr H1 Hs) as (Hs1 & Hl1).
    destruct (IH _ _ Hloop Hs1) as (Hs2 & Hl2). split; [assumption | congruence].
Qed.

Lemma silent_eq (twoTheta : list R) (output : list double) :
  silent output -> length output = length twoTheta ->
  output = map (fun _ => Fin 0) twoTheta.
Proof.
  unfold silent. intros Hs. revert twoTheta.
  induction Hs as [| o rest Ho Hrest IH]; intros [| t twoTheta] Hlen;
    try discriminate; [reflexivity |].
  cbn [map]. subst o. f_equal. apply IH. injection Hlen as Hlen. assumption.
Qed.

(** Extra X24: when every reflection has intensity 0 (a Caglioti term that
    is not 0, and an angle away from the pole of the tangent at 180
    degrees), the peak signal, where generatePeakSignal returns one, is 0
    at every angle asked for. *)
Theorem generatePeakSignal_extinct (pat : CalculatedPattern) (twoTheta : list R) :
  Forall (fun r => getIntensity (base r) = 0 /\ caglioti pat r <> 0 /\
                   cos (getAngleRadians (base r) / 2) <> 0)
         (_reflections pat) ->
  generatePeakSignal pat twoTheta = None \/
  generatePeakSignal pat twoTheta = Some (map (fun _ => Fin 0) twoTheta).
Proof.
  intros Hall. unfold generatePeakSignal.
  destruct (peakLoop pat twoTheta (_reflections pat) (map (fun _ => Fin 0) twoTheta))
    as [out |] eqn:Hloop; [right | left; reflexivity].
  assert (Hz : Forall (fun r => getIntensity (base r) = 0) (_reflections pat)).
  { eapply Forall_impl; [| exact Hall]. cbn beta. intros r [Hr _]. exact Hr. }
  destruct (peakLoop_silent pat twoTheta _ Hz _ _ Hloop) as (Hs & Hl).
  - apply Forall_forall. intros d Hd. apply in_map_iff in Hd.
    destruct Hd as (t & <- & _). reflexivity.
  - f_equal. apply silent_eq; [assumption |]. rewrite Hl, length_map. reflexivity.
Qed.

End ExtinctReflections.

(* With U = V = 0 and W = 1 the width is 1 and the profile of a reflection
   at 20 degrees runs from 14 to 26 degrees: on the grid 10, 15, ..., 35
   lower_bound gives index 1, the loop while (twoTheta[++a] < minAngle)
   stops at index 2, and the profile is added at 20 and at 25 degrees. *)
Lemma extinct_signal_returned :
  let pat := Refinement.setW 1 (Examples.calculatedPattern [Samples.extinctAt 20]) in
  Profile.generatePeakSignal pat [10; 15; 20; 25; 30; 35] <> None.
Proof.
  intros pat. unfold Profile.generatePeakSignal.
  cbn [pat Refinement.setW Examples.calculatedPattern _reflections Profile.peakLoop].
  unfold Profile.peakSignal.
  assert (Hc : Profile.caglioti pat (Samples.extinctAt 20) = 1).
  { unfold Profile.caglioti. cbn [pat Refinement.setW Examples.calculatedPattern U V W]. lra. }
  fold pat. rewrite Hc. unfold Profile.dsqrt. rewrite (Rltb_false 1 0) by lra. rewrite sqrt_1.
  cbn [pat Refinement.setW Examples.calculatedPattern _shiftParameters nth calcBase
       Examples.newDiffraction _maxTwoTheta Samples.extinctAt base newDiffractionPeak
       getAngle getAngleRadians getIntensity TwoThetaDeg twoThetaRad peakIntensity
       _eta0 _eta1 _eta2
       Profile.dsub Profile.dadd Profile.dmul Profile.lift2 Profile.dge].
  set (shift := 0 / tan (toRadians 20) + 0 / sin (toRadians 20) +
        0 / tan (toRadians 20 / 2) + 0 * sin (toRadians 20) +
        0 * cos (toRadians 20) + 0).
  assert (Hshift : shift = 0) by (unfold shift; lra).
  rewrite Hshift. clear Hshift shift.
  replace (20 + 0 - 6.0 * 1) with 14 by lra.
  unfold Rgeb. rcmp.
  unfold Profile.lower_bound.
  repeat (cbn [length Profile.lowerBoundLoop Nat.eqb Nat.div2 Nat.add Nat.sub nth Profile.dlt];
          rcmp).
  repeat (cbn [length Profile.skipBelow nth_error Profile.dlt]; rcmp).
  cbn [bind]. discriminate.
Qed.

(** The signal of that pattern is returned, and is 0 at the six angles. *)
Lemma generatePeakSignal_extinct_witness :
  let pat := Refinement.setW 1 (Examples.calculatedPattern [Samples.extinctAt 20]) in
  Profile.generatePeakSignal pat [10; 15; 20; 25; 30; 35]
  = Some (map (fun _ => Profile.Fin 0) [10; 15; 20; 25; 30; 35]).
Proof.
  intros pat.
  destruct (generatePeakSignal_extinct pat [10; 15; 20; 25; 30; 35]) as [Hnone | Hsome].
  - constructor; [| constructor]. split; [reflexivity |]. split.
    + unfold Profile.caglioti. cbn [pat Refinement.setW Examples.calculatedPattern U V W].
      lra.
    + cbn [Samples.extinctAt base newDiffractionPeak getAngleRadians twoThetaRad].
      unfold toRadians. pose proof PI_RGT_0 as Hpi.
      apply Rgt_not_eq. apply cos_gt_0; lra.
  - exfalso. exact (extinct_signal_returned Hnone).
  - exact Hsome.
Defined.

(** ** The vector of refined parameters *)

Section PackingProperties.

Import Refinement Packing.

Variable _U : R.
Variable lengths angles : Basis.t -> Vector3D.
Variable setBasis : list R -> Engine -> Engine.
Variable setPositions : list R -> Engine -> Engine.

Lemma block_length (kind : RefinementParameters) (p : CalculatedPattern)
    (values : option (list R)) (l bound : list R) :
  block kind p values = Some l ->
  (forall l', values = Some l' -> length l' = length bound) ->
  length l = length (boundary kind p bound).
Proof.
  unfold block, boundary. destruct (willRefine kind (_currentlyRefining p)).
  - intros Hv Hlen. apply Hlen. assumption.
  - intros [= <-] _. reflexivity.
Qed.

Lemma firstPositions_length (s : Symmetry) (l : list R) :
  firstPositions s = Some l -> length l = (length (orbits s) * 3)%nat.
Proof.
  unfold firstPositions. generalize (orbits s) as orbs. intros orbs. revert l.
  induction orbs as [| o orbs IH]; intros l; cbn [mapM bind concat length].
  - intros [= <-]. reflexivity.
  - destruct (nth_error (atoms o) 0) as [a |]; cbn [bind]; [| discriminate].
    destruct (mapM _ orbs) as [ps |]; cbn [bind] in *; [| discriminate].
    intros [= <-]. cbn [length]. rewrite (IH (concat ps) eq_refl). lia.
Qed.

Lemma boundary_length_eq (kind : RefinementParameters) (p : CalculatedPattern)
    (b b' : list R) :
  length b = length b' -> length (boundary kind p b) = length (boundary kind p b').
Proof. unfold boundary. destruct (willRefine kind _); [auto | reflexivity]. Qed.

(* the two boundaries have the same length *)
Lemma boundaries_length (lim : Limits) (e : Engine)
    (a1 a2 a3 a4 a5 a6 a7 a8 a9 a10 a11 b1 b2 b3 b4 b5 b6 b7 b8 b9 b10 b11 : R) :
  length (boundaries a1 a2 a3 a4 a5 a6 a7 a8 a9 a10 a11 lim e)
  = length (boundaries b1 b2 b3 b4 b5 b6 b7 b8 b9 b10 b11 lim e).
Proof.
  unfold boundaries. rewrite !length_app.
  repeat (f_equal;
          try (apply boundary_length_eq; rewrite ?length_map, ?repeat_length; reflexivity)).
Qed.

(** Extra X25: the vector of the parameters being refined and the vectors
    of their lower and upper boundaries have the same length, whatever is
    being refined: each kind contributes the same number of entries to the
    three. *)
Theorem refinement_vectors_same_length (lim : Limits) (e : Engine) (v : list R) :
  getRefinementParameters _U lengths angles e = Some v ->
  length v = length (getRefinementParameterLowerBoundary lim e) /\
  length v = length (getRefinementParameterUpperBoundary lim e).
Proof.
  intros Hv.
  assert (Hlow : length v = length (getRefinementParameterLowerBoundary lim e)).
  { revert Hv.
    unfold getRefinementParameters, getRefinementParameterLowerBoundary, boundaries.
    set (p := pattern e).
    destruct (block RF_SCALE p _) as [b1 |] eqn:H1; cbn [bind]; [| discriminate].
    destruct (block RF_SPECDISP p _) as [b2 |] eqn:H2; cbn [bind]; [| discriminate].
    destruct (block RF_BACKGROUND p _) as [b3 |] eqn:H3; cbn [bind]; [| discriminate].
    destruct (block RF_BASIS p _) as [b4 |] eqn:H4; cbn [bind]; [| discriminate].
    destruct (block RF_UVFACTORS p _) as [b5 |] eqn:H5; cbn [bind]; [| discriminate].
    destruct (block RF_WFACTOR p _) as [b6 |] eqn:H6; cbn [bind]; [| discriminate].
    destruct (block RF_POSITIONS p _) as [b7 |] eqn:H7; cbn [bind]; [| discriminate].
    destruct (block RF_BFACTORS p _) as [b8 |] eqn:H8; cbn [bind]; [| discriminate].
    destruct (block RF_TEXTURE p _) as [b9 |] eqn:H9; cbn [bind]; [| discriminate].
    destruct (block RF_ZEROSHIFT p _) as [b10 |] eqn:H10; cbn [bind]; [| discriminate].
    intros [= <-]. rewrite !length_app.
    rewrite (block_length _ _ _ _ [0] H1) by (intros l' [= <-]; reflexivity).
    rewrite (block_length _ _ _ _ [-0.1] H2) by (intros l' [= <-]; reflexivity).
    rewrite (block_length _ _ _ _
               (map (fun _ => -1e100) (_backgroundParameters p)) H3)
      by (intros l' [= <-]; symmetry; apply length_map).
    rewrite (block_length _ _ _ _
               (map (fun x => x * (1 - _maxLatChange p))
                    (components (_originalLengths lim) ++ components (_originalAngles lim)))
               H4)
      by (intros l' [= <-]; reflexivity).
    rewrite (block_length _ _ _ _ [-1e100; -1e100; -1e100; -1e100] H5)
      by (intros l' [= <-]; reflexivity).
    rewrite (block_length _ _ _ _ [0; 0] H6) by (intros l' [= <-]; reflexivity).
    rewrite (block_length _ _ _ _ (repeat (-1) (length (orbits (symmetry e)) * 3)) H7)
      by (intros l' Hl'; rewrite repeat_length; apply firstPositions_length; exact Hl').
    rewrite (block_length _ _ _ _ (map (fun _ => _minBFactor lim) (_BFactors p)) H8)
      by (intros l' [= <-]; symmetry; apply length_map).
    rewrite (block_length _ _ _ _ [-10; -10; -10] H9) by (intros l' [= <-]; reflexivity).
    rewrite (block_length _ _ _ _ [-0.1] H10) by (intros l' [= <-]; reflexivity).
    reflexivity. }
  split; [exact Hlow |]. rewrite Hlow. apply boundaries_length.
Qed.

Lemma take_app (l rest : list R) : take (length l) (l ++ rest) = Some (l, rest).
Proof.
  unfold take. replace (length (l ++ rest) <? length l)%nat with false
    by (symmetry; apply Nat.ltb_ge; rewrite length_app; lia).
  rewrite firstn_app, Nat.sub_diag, firstn_all, skipn_app, Nat.sub_diag, skipn_all.
  cbn [firstn skipn app]. rewrite app_nil_r. reflexivity.
Qed.

Lemma store_step (kind : RefinementParameters) (n : Engine -> nat)
    (write : list R -> Engine -> Engine) (e e' : Engine) (b : bool) (l rest : list R) :
  willRefine kind (refiningOf e) = b ->
  (b = true -> length l = n e /\ write l e = e') ->
  (b = false -> e' = e) ->
  store kind n write (e, (if b then l else []) ++ rest) = Some (e', rest).
Proof.
  intros Hb Hon Hoff. unfold store. rewrite Hb. destruct b.
  - destruct (Hon eq_refl) as [Hlen <-]. rewrite <- Hlen, take_app. reflexivity.
  - rewrite (Hoff eq_refl). reflexivity.
Qed.

Lemma block_Some (kind : RefinementParameters) (p : CalculatedPattern) (l : list R) :
  block kind p (Some l) = Some (if willRefine kind (_currentlyRefining p) then l else []).
Proof. unfold block. destruct (willRefine kind _); reflexivity. Qed.

Lemma assign_nth (i : nat) (l : list R) : Processing.assign i (nth i l 0) l = l.
Proof.
  revert i. induction l as [| a l IH]; intros [| i]; cbn [Processing.assign nth];
    try reflexivity.
  rewrite IH. reflexivity.
Qed.

(* the state after the parameters were read back: U holds the value of _U
   when RF_UVFACTORS is refined *)
Let readBack (e : Engine) : Engine :=
  onPattern (fun p => if willRefine RF_UVFACTORS (_currentlyRefining p)
                      then setShape _U (V p) (W p) (_eta0 p) (_eta1 p) (_eta2 p) p
                      else p) e.

Ltac record_fields :=
  cbn [pattern basis symmetry calls calcBase _reflections _maxLatChange _BFactors
       _atfParams _useChebyshev _numBackground _backgroundPolyStart
       _backgroundParameters _shiftParameters U V W _eta0 _eta1 _eta2
       _preferredOrientation _currentlyRefining _optimalScale
       setCalcBase setOptimalScale setShiftParameters setBackgroundParameters
       setShape setBFactors setPreferredOrientation components nth length] in *.

Ltac same_record e :=
  destruct e as [[[] ? ? ? ? ? ? ? ? ? ? ? ? ? ? ? [] ?] ? ? ?];
  unfold readBack, onPattern, refiningOf in *;
  record_fields;
  try match goal with
      | |- context [willRefine RF_UVFACTORS ?r] =>
          destruct (willRefine RF_UVFACTORS r) eqn:?
      end;
  record_fields;
  rewrite ?assign_nth;
  try reflexivity; try congruence.

(** Extra X26: when neither the lattice nor the atomic positions are being
    refined, writing back the vector returned by getRefinementParameters
    consumes it exactly and leaves every member as it was, but for U when
    RF_UVFACTORS is refined: the vector holds the value of _U in its place,
    and that is what U is set to. *)
Theorem setAccordingToParameters_round_trip (e : Engine) :
  willRefine RF_BASIS (refiningOf e) = false ->
  willRefine RF_POSITIONS (refiningOf e) = false ->
  exists v,
    getRefinementParameters _U lengths angles e = Some v /\
    setAccordingToParameters setBasis setPositions v e
    = Some (onPattern
              (fun p => if willRefine RF_UVFACTORS (_currentlyRefining p)
                        then setShape _U (V p) (W p) (_eta0 p) (_eta1 p) (_eta2 p) p
                        else p) e).
Proof.
  intros Hbasis Hpos. fold (readBack e).
  unfold getRefinementParameters.
  assert (Hpositions : block RF_POSITIONS (pattern e) (firstPositions (symmetry e)) = Some []).
  { unfold block. unfold refiningOf in Hpos. rewrite Hpos. reflexivity. }
  rewrite !block_Some, Hpositions. cbn [bind].
  eexists. split; [reflexivity |].
  unfold setAccordingToParameters. fold (refiningOf e).
  rewrite (store_step RF_SCALE _ _ e e _ _ _ eq_refl); cbn [bind];
    [| intros _; split; [reflexivity | same_record e] | reflexivity].
  rewrite (store_step RF_SPECDISP _ _ e e _ _ _ eq_refl); cbn [bind];
    [| intros _; split; [reflexivity | same_record e] | reflexivity].
  rewrite (store_step RF_BACKGROUND _ _ e e _ _ _ eq_refl); cbn [bind];
    [| intros _; split; [reflexivity | same_record e] | reflexivity].
  rewrite Hbasis. cbn [app]. unfold store at 1. rewrite Hbasis. cbn [bind].
  rewrite (store_step RF_UVFACTORS _ _ e (readBack e) _ _ _ eq_refl); cbn [bind];
    [| intros Hon; split; [reflexivity |]; unfold refiningOf in Hon; same_record e
     | intros Hoff; unfold refiningOf in Hoff; same_record e].
  assert (Hsame : refiningOf (readBack e) = refiningOf e) by (same_record e).
  rewrite (store_step RF_WFACTOR _ _ (readBack e) (readBack e) _ _ _
             ltac:(rewrite Hsame; reflexivity)); cbn [bind];
    [| intros _; split; [reflexivity | same_record e] | reflexivity].
  unfold store at 1. rewrite Hsame, Hpos. cbn [bind app].
  rewrite (store_step RF_BFACTORS _ _ (readBack e) (readBack e) _ _ _
             ltac:(rewrite Hsame; reflexivity)); cbn [bind];
    [| intros _; split; same_record e | reflexivity].
  rewrite (store_step RF_TEXTURE _ _ (readBack e) (readBack e) _ _ _
             ltac:(rewrite Hsame; reflexivity)); cbn [bind];
    [| intros _; split; [reflexivity | same_record e;
                                        match goal with
                                        | |- context [vec3 (vx ?v) _ _] => destruct v
                                        end; reflexivity]
     | reflexivity].
  rewrite <- (app_nil_r (if willRefine RF_ZEROSHIFT (refiningOf e) then _ else _)).
  rewrite (store_step RF_ZEROSHIFT _ _ (readBack e) (readBack e) _ _ _
             ltac:(rewrite Hsame; reflexivity)); cbn [bind];
    [| intros _; split; [reflexivity | same_record e] | reflexivity].
  reflexivity.
Qed.

End PackingProperties.

Lemma refinement_vectors_same_length_witness :
  length [1.0; 7; 0.0; 0.0; 0.0; 0.3; 0.5]
  = length (Packing.getRefinementParameterLowerBoundary Engines.unitLimits
              Engines.profileEngine) /\
  length [1.0; 7; 0.0; 0.0; 0.0; 0.3; 0.5]
  = length (Packing.getRefinementParameterUpperBoundary Engines.unitLimits
              Engines.profileEngine).
Proof.
  apply (refinement_vectors_same_length 7 (fun _ => vec3 1 1 1) (fun _ => vec3 90 90 90)
           Engines.unitLimits Engines.profileEngine).
  reflexivity.
Defined.

Lemma setAccordingToParameters_round_trip_witness :
  exists v,
    Packing.getRefinementParameters 7 (fun _ => vec3 1 1 1) (fun _ => vec3 90 90 90)
      Engines.profileEngine = Some v /\
    Packing.setAccordingToParameters (fun _ e => e) (fun _ e => e) v Engines.profileEngine
    = Some (Refinement.onPattern
              (fun p => if Refinement.willRefine RF_UVFACTORS (_currentlyRefining p)
                        then Packing.setShape 7 (V p) (W p) (_eta0 p) (_eta1 p) (_eta2 p) p
                        else p) Engines.profileEngine).
Proof.
  apply (setAccordingToParameters_round_trip 7 (fun _ => vec3 1 1 1)
           (fun _ => vec3 90 90 90) (fun _ e => e) (fun _ e => e) Engines.profileEngine);
    reflexivity.
Defined.

(** ** Atomic form factors *)

Section FormFactorProperties.

Import FormFactors.

(* the shape of every row of the table *)
Let wellFormed (params : list R) : Prop :=
  exists a1 a2 a3 a4 b1 b2 b3 b4 c,
    params = [a1; a2; a3; a4; b1; b2; b3; b4; c] /\
    0 <= a1 /\ 0 <= a2 /\ 0 <= a3 /\ 0 <= a4 /\
    0 < b1 /\ 0 < b2 /\ 0 < b3 /\ 0 < b4.

Ltac next_element n :=
  destruct n as [| n];
  [ try discriminate;
    try (intros [= <-]; do 9 eexists; split; [reflexivity |]; repeat split; lra)
  | ].

Lemma atfParamsOf_wellFormed (number : nat) (params : list R) :
  atfParamsOf number = Some params -> wellFormed params.
Proof.
  unfold wellFormed. revert params. intros params.
  do 99 next_element number.
  discriminate.
Qed.

Lemma term_bounds (a b s2 : R) :
  0 <= a -> 0 < b -> 0 <= s2 -> 0 <= a * exp (- b * s2) <= a.
Proof.
  intros Ha Hb Hs.
  assert (Hexp : 0 < exp (- b * s2) <= 1).
  { split; [apply exp_pos |].
    rewrite <- exp_0. destruct (Req_dec (b * s2) 0) as [Hz | Hnz].
    - replace (- b * s2) with 0 by lra. lra.
    - left. apply exp_increasing. assert (0 <= b * s2) by (apply Rmult_le_pos; lra). lra. }
  split; [apply Rmult_le_pos; lra |].
  rewrite <- (Rmult_1_r a) at 2. apply Rmult_le_compat_l; lra.
Qed.

(** Extra X27: for every atomic number that setATFParams knows (1 to 98),
    the atomic scattering factor computed from the stored coefficients is,
    at every angle and wavelength (not 0), at most its value at angle 0 and
    at least the constant term c: every a_i of the table is non-negative
    and every b_i positive. *)
Theorem atomicScatteringFactor_bounds (number : nat) (params : list R)
    (angle wavelength : R) :
  atfParamsOf number = Some params ->
  wavelength <> 0 ->
  nth 8 params 0 <= Peak.atomicScatteringFactor params angle wavelength
  <= Peak.atomicScatteringFactor params 0 wavelength.
Proof.
  intros Hrow _. apply atfParamsOf_wellFormed in Hrow.
  destruct Hrow as (a1 & a2 & a3 & a4 & b1 & b2 & b3 & b4 & c & -> & Ha).
  destruct Ha as (Ha1 & Ha2 & Ha3 & Ha4 & Hb1 & Hb2 & Hb3 & Hb4).
  unfold Peak.atomicScatteringFactor. cbn [nth].
  rewrite sin_0. replace (0 / wavelength * (0 / wavelength)) with 0
    by (unfold Rdiv; ring).
  rewrite !Rmult_0_r, exp_0.
  set (s2 := sin angle / wavelength * (sin angle / wavelength)).
  assert (Hs : 0 <= s2) by (unfold s2; apply Rle_0_sqr).
  pose proof (term_bounds a1 b1 s2 Ha1 Hb1 Hs).
  pose proof (term_bounds a2 b2 s2 Ha2 Hb2 Hs).
  pose proof (term_bounds a3 b3 s2 Ha3 Hb3 Hs).
  pose proof (term_bounds a4 b4 s2 Ha4 Hb4 Hs).
  lra.
Qed.

Lemma forward_sum_of_coefficients (a1 a2 a3 a4 b1 b2 b3 b4 c wavelength : R) :
  Peak.atomicScatteringFactor [a1; a2; a3; a4; b1; b2; b3; b4; c] 0 wavelength
  = a1 + a2 + a3 + a4 + c.
Proof.
  unfold Peak.atomicScatteringFactor. cbn [nth].
  rewrite sin_0. replace (0 / wavelength * (0 / wavelength)) with 0
    by (unfold Rdiv; ring).
  rewrite !Rmult_0_r, exp_0. ring.
Qed.

Ltac forward_value n :=
  destruct n as [| n];
  [ try discriminate;
    try (intros [= <-]; rewrite forward_sum_of_coefficients;
         match goal with
         | |- context [Z.of_nat ?k] =>
             let z := eval cbv in (Z.of_nat k) in change (Z.of_nat k) with z
         end;
         split;
         [ intros Hne; first [ exfalso; apply Hne; reflexivity | apply Rabs_le; lra ]
         | intros Heq; first [ discriminate Heq | lra ] ])
  | ].

(** Extra X28: at angle 0 the atomic scattering factor computed from the
    stored coefficients is a1 + a2 + a3 + a4 + c; for every atomic number
    from 1 to 98 other than 33 this is within 0.06 of the atomic number,
    and for 33 (arsenic, stored with a1 = 10.6723) it is 26.9826. *)
Theorem atomicScatteringFactor_forward (number : nat) (params : list R) (wavelength : R) :
  atfParamsOf number = Some params ->
  wavelength <> 0 ->
  (number <> 33%nat ->
   Rabs (Peak.atomicScatteringFactor params 0 wavelength - IZR (Z.of_nat number)) <= 0.06) /\
  (number = 33%nat -> Peak.atomicScatteringFactor params 0 wavelength = 26.9826).
Proof.
  intros Hrow _. revert Hrow.
  do 99 forward_value number.
  discriminate.
Qed.

End FormFactorProperties.

Lemma atomicScatteringFactor_bounds_witness :
  nth 8 [2.310000; 1.020000; 1.588600; 0.865000; 20.843901; 10.207500; 0.568700;
         51.651199; 0.215600] 0
  <= Peak.atomicScatteringFactor
       [2.310000; 1.020000; 1.588600; 0.865000; 20.843901; 10.207500; 0.568700;
        51.651199; 0.215600] (PI / 6) 1.5418
  <= Peak.atomicScatteringFactor
       [2.310000; 1.020000; 1.588600; 0.865000; 20.843901; 10.207500; 0.568700;
        51.651199; 0.215600] 0 1.5418.
Proof.
  apply (atomicScatteringFactor_bounds 6); [reflexivity | lra].
Defined.

Lemma atomicScatteringFactor_forward_witness :
  (33%nat <> 33%nat ->
   Rabs (Peak.atomicScatteringFactor
           [10.672300; 6.070100; 3.431300; 4.277900; 2.634500; 0.264700; 12.947900;
            47.797199; 2.531000] 0 1.5418 - IZR (Z.of_nat 33)) <= 0.06) /\
  (33%nat = 33%nat ->
   Peak.atomicScatteringFactor
     [10.672300; 6.070100; 3.431300; 4.277900; 2.634500; 0.264700; 12.947900;
      47.797199; 2.531000] 0 1.5418 = 26.9826).
Proof.
  apply (atomicScatteringFactor_forward 33); [reflexivity | lra].
Defined.

(** ** Combined peaks *)

Section CombinedPeaks.

Import Combined.

Let total (l : list R) : R := fold_right Rplus 0 l.

Lemma total_app (l1 l2 : list R) : total (l1 ++ l2) = total l1 + total l2.
Proof.
  unfold total. induction l1 as [| a l1 IH]; cbn [app fold_right]; [ring |].
  rewrite IH. ring.
Qed.

Lemma addToBack_spec (x : R) (l : list R) :
  l <> [] ->
  length (addToBack x l) = length l /\ total (addToBack x l) = total l + x.
Proof.
  unfold total. induction l as [| a l IH]; [contradiction |]. intros _.
  destruct l as [| b l].
  - cbn [addToBack length fold_right]. split; [reflexivity | ring].
  - destruct (IH ltac:(discriminate)) as (Hl & Ht).
    change (addToBack x (a :: b :: l)) with (a :: addToBack x (b :: l)).
    cbn [length fold_right] in *. split; [lia | lra].
Qed.

(* what both loops keep: as many angles as intensities, at least one and no
   more than one for each reflection, and the sum of the intensities *)
Let kept (seen : nat) (sum : R) (state : list R * list R) : Prop :=
  length (fst state) = length (snd state) /\
  (1 <= length (snd state) <= seen)%nat /\
  total (snd state) = sum.

Lemma kept_push (seen : nat) (sum : R) (tt ti : list R) (r : CalculatedPeak) :
  kept seen sum (tt, ti) ->
  kept (S seen) (sum + getIntensity (base r))
       (tt ++ [getAngle (base r)], ti ++ [getIntensity (base r)]).
Proof.
  unfold kept. cbn [fst snd]. intros (Hl & Hn & Ht).
  rewrite !length_app, total_app, Ht. cbn [length]. unfold total. cbn [fold_right].
  repeat split; try lia. ring.
Qed.

Lemma kept_add (seen : nat) (sum : R) (tt ti : list R) (r : CalculatedPeak) :
  kept seen sum (tt, ti) ->
  kept (S seen) (sum + getIntensity (base r))
       (tt, addToBack (getIntensity (base r)) ti).
Proof.
  unfold kept. cbn [fst snd]. intros (Hl & Hn & Ht).
  destruct (addToBack_spec (getIntensity (base r)) ti) as (Hl' & Ht').
  { intros ->. cbn [length] in Hn. lia. }
  rewrite Hl', Ht', Ht. repeat split; try lia.
Qed.

Lemma combineMatched_kept (lastPatternIndex : Z) (reflections : list CalculatedPeak) :
  forall seen sum tt ti,
    kept seen sum (tt, ti) ->
    kept (seen + length reflections)
         (sum + total (map (fun r => getIntensity (base r)) reflections))
         (combineMatched lastPatternIndex reflections tt ti).
Proof.
  induction reflections as [| r rest IH]; intros seen sum tt ti Hk;
    cbn [combineMatched length map].
  - unfold total. cbn [fold_right]. rewrite Nat.add_0_r, Rplus_0_r. assumption.
  - replace (seen + S (length rest))%nat with (S seen + length rest)%nat by lia.
    replace (sum + total (getIntensity (base r)
                            :: map (fun r0 => getIntensity (base r0)) rest))
      with (sum + getIntensity (base r)
            + total (map (fun r0 => getIntensity (base r0)) rest))
      by (unfold total; cbn [fold_right]; ring).
    destruct (_ || _); apply IH; [apply kept_push | apply kept_add]; assumption.
Qed.

Lemma combineNear_kept (reflections : list CalculatedPeak) :
  forall lastAngle seen sum tt ti,
    kept seen sum (tt, ti) ->
    kept (seen + length reflections)
         (sum + total (map (fun r => getIntensity (base r)) reflections))
         (combineNear lastAngle reflections tt ti).
Proof.
  induction reflections as [| r rest IH]; intros lastAngle seen sum tt ti Hk;
    cbn [combineNear length map].
  - unfold total. cbn [fold_right]. rewrite Nat.add_0_r, Rplus_0_r. assumption.
  - replace (seen + S (length rest))%nat with (S seen + length rest)%nat by lia.
    replace (sum + total (getIntensity (base r)
                            :: map (fun r0 => getIntensity (base r0)) rest))
      with (sum + getIntensity (base r)
            + total (map (fun r0 => getIntensity (base r0)) rest))
      by (unfold total; cbn [fold_right]; ring).
    destruct (Rltb 0.15 _); apply IH; [apply kept_push | apply kept_add]; assumption.
Qed.

Lemma total_scaled (s : R) (tt ti : list R) :
  length tt = length ti ->
  total (map getIntensity
             (map (fun p => newDiffractionPeak (fst p) (snd p * s)) (List.combine tt ti)))
  = s * total ti /\
  length (map (fun p => newDiffractionPeak (fst p) (snd p * s)) (List.combine tt ti))
  = length ti.
Proof.
  unfold total. revert ti. induction tt as [| t tt IH]; intros [| i ti] Hlen;
    try discriminate; cbn [List.combine map fold_right length].
  - split; [ring | reflexivity].
  - injection Hlen as Hlen. destruct (IH ti Hlen) as (Ht & Hl).
    rewrite Ht, Hl. cbn [getIntensity peakIntensity newDiffractionPeak fst snd].
    split; [ring | reflexivity].
Qed.

(** Extra X29: for a pattern with at least one reflection, getCombinedPeaks
    returns at least one peak and at most one for each reflection.  When no
    peaks were matched (the scale factor is then 1), the intensities of the
    peaks returned add up to the sum of the intensities of the reflections:
    combining moves the intensity of a reflection to the group before it
    and loses none. *)
Theorem getCombinedPeaks_conserves_intensity (p : CalculatedPattern) :
  _reflections p <> [] ->
  exists peaks,
    getCombinedPeaks p = Some peaks /\
    (1 <= length peaks <= length (_reflections p))%nat /\
    (_matchingPeaks (calcBase p) = [] ->
     fold_right Rplus 0 (map getIntensity peaks)
     = fold_right Rplus 0 (map (fun r => getIntensity (base r)) (_reflections p))).
Proof.
  intros Hne. unfold getCombinedPeaks.
  destruct (_reflections p) as [| first rest]; [contradiction |].
  assert (Hstart : kept 1 (getIntensity (base first))
                     ([getAngle (base first)], [getIntensity (base first)])).
  { unfold kept, total. cbn [fst snd length fold_right]. repeat split; try lia. ring. }
  unfold combine.
  destruct (_matchingPeaks (calcBase p)) as [| bucket buckets].
  - pose proof (combineNear_kept rest (-100)%Z _ _ _ _ Hstart) as Hk.
    destruct (combineNear _ rest _ _) as [tt ti].
    destruct Hk as (Hl & Hn & Ht). cbn [fst snd] in *.
    destruct (total_scaled 1.0 tt ti Hl) as (Hs & Hlen).
    eexists. split; [reflexivity |]. rewrite Hlen. cbn [length map fold_right].
    split; [lia |]. intros _.
    unfold total in *. rewrite Hs, Ht. lra.
  - pose proof (combineMatched_kept (patternIndex (base first)) rest _ _ _ _ Hstart) as Hk.
    destruct (combineMatched _ rest _ _) as [tt ti].
    destruct Hk as (Hl & Hn & Ht). cbn [fst snd] in *.
    set (s := 1000.0 / Experimental.max_element (hd 0 ti) (tl ti)).
    destruct (total_scaled s tt ti Hl) as (Hs & Hlen).
    eexists. split; [reflexivity |]. rewrite Hlen. cbn [length].
    split; [lia | discriminate].
Qed.

End CombinedPeaks.

Lemma getCombinedPeaks_conserves_intensity_witness :
  let p := Examples.calculatedPattern [Examples.reflectionAt 20.05; Examples.reflectionAt 20.1] in
  exists peaks,
    Combined.getCombinedPeaks p = Some peaks /\
    (1 <= length peaks <= length (_reflections p))%nat /\
    (_matchingPeaks (calcBase p) = [] ->
     fold_right Rplus 0 (map getIntensity peaks)
     = fold_right Rplus 0 (map (fun r => getIntensity (base r)) (_reflections p))).
Proof.
  intros p. apply getCombinedPeaks_conserves_intensity. discriminate.
Defined.

(** ** Background removal *)

Section FlatSignal.

Import Baseline.

Variable c : R.

(* the two sums over neighbours of a flat signal *)
Lemma flat_sums (n : nat) (indices : list nat) :
  Forall (fun i => (i < n)%nat) indices ->
  forall signal totalWeight,
    fold_left (fun acc i =>
                 '(signal, totalWeight) <- acc ;;
                 x <- nth_error (repeat c n) i ;;
                 Some (signal + fitWeight x * x, totalWeight + fitWeight x))
              indices (Some (signal, totalWeight))
    = Some (signal + INR (length indices) * (fitWeight c * c),
            totalWeight + INR (length indices) * fitWeight c).
Proof.
  induction 1 as [| i indices Hi Hrest IH]; intros signal totalWeight.
  - cbn [fold_left length INR]. f_equal. f_equal; ring.
  - cbn [fold_left bind]. rewrite nth_error_repeat by assumption. cbn [bind].
    rewrite IH. change (length (i :: indices)) with (S (length indices)).
    rewrite S_INR. f_equal. f_equal; ring.
Qed.

Lemma backgroundAt_flat (n : nat) (pointsPerSide : Z) (point : nat) :
  (0 <= pointsPerSide)%Z -> (point < n)%nat ->
  exists b, backgroundAt (repeat c n) pointsPerSide point = Some b /\ c - b = 0.
Proof.
  intros Hpps Hpoint. unfold backgroundAt. rewrite repeat_length.
  set (k := Z.min (Z.min (Z.of_nat point) pointsPerSide)
                  (Z.of_nat n - 1 - Z.of_nat point)).
  assert (Hk : (0 <= k <= Z.of_nat point)%Z /\ (k <= Z.of_nat n - 1 - Z.of_nat point)%Z)
    by (unfold k; lia).
  unfold neighbours. replace (k <? 0)%Z with false by (symmetry; apply Z.ltb_ge; lia).
  rewrite flat_sums.
  - cbn [bind]. rewrite length_seq. pose proof (fitWeight_positive c) as Hw.
    assert (Hm : 0 < INR (2 * Z.to_nat k + 1)) by (apply lt_0_INR; lia).
    assert (Ht : 0 < 0 + INR (2 * Z.to_nat k + 1) * fitWeight c).
    { rewrite Rplus_0_l. apply Rmult_lt_0_compat; assumption. }
    rewrite Reqb_false by lra.
    eexists. split; [reflexivity |]. field. split; lra.
  - apply Forall_forall. intros i Hi. apply in_seq in Hi. lia.
Qed.

Lemma mapM_flat (n : nat) (pointsPerSide : Z) (points : list nat) :
  (0 <= pointsPerSide)%Z ->
  Forall (fun point => (point < n)%nat) points ->
  exists bs,
    mapM (backgroundAt (repeat c n) pointsPerSide) points = Some bs /\
    length bs = length points /\ Forall (fun b => c - b = 0) bs.
Proof.
  intros Hpps. induction 1 as [| point points Hp Hrest IH]; cbn [mapM].
  - exists []. repeat split. constructor.
  - destruct (backgroundAt_flat n pointsPerSide point Hpps Hp) as (b & -> & Hb).
    destruct IH as (bs & -> & Hl & Hall). cbn [bind].
    exists (b :: bs). cbn [length]. repeat split; [lia | constructor; assumption].
Qed.

Lemma subtract_flat (n : nat) :
  forall bs, length bs = n -> Forall (fun b => c - b = 0) bs ->
             map (fun xb => fst xb - snd xb) (combine (repeat c n) bs) = repeat 0 n.
Proof.
  induction n as [| n IH]; intros [| b bs] Hl Hall; try discriminate; [reflexivity |].
  inversion Hall as [| ? ? Hb Hrest]; subst. injection Hl as Hl.
  cbn [repeat combine map fst snd]. rewrite Hb, (IH bs Hl Hrest). reflexivity.
Qed.

(** Extra X30: removeBackground takes a constant signal, measured at angles
    of which the second is above the first by enough for the box of 4
    degrees to hold fewer than 2^31 points (the number of points is
    converted to int), to the signal that is 0 everywhere: the weights are
    positive whatever the sign of the constant, and the background found at
    every point is the constant. *)
Theorem removeBackground_flat (rawTwoTheta : list R) (t0 t1 : R) (rest : list R) (n : nat) :
  rawTwoTheta = t0 :: t1 :: rest ->
  t0 < t1 ->
  4.0 / (t1 - t0) < 2147483648 ->
  removeBackground rawTwoTheta (repeat c n) = Some (repeat 0 n).
Proof.
  intros -> Hlt Hbox. unfold removeBackground. cbn [nth_error bind].
  rewrite repeat_length, (Reqb_false (t1 - t0) 0) by lra.
  destruct (toInt_within (4.0 / (t1 - t0))) as (nPoints & -> & Hn).
  { split; [| assumption]. apply Rlt_le. apply Rdiv_lt_0_compat; lra. }
  cbn [bind].
  assert (Hpps : (0 <= Z.quot nPoints 2)%Z) by (apply Z.quot_pos; lia).
  destruct (mapM_flat n _ (seq 0 n) Hpps) as (bs & -> & Hl & Hall).
  { apply Forall_forall. intros i Hi. apply in_seq in Hi. lia. }
  cbn [bind]. rewrite length_seq in Hl. rewrite (subtract_flat n bs Hl Hall). reflexivity.
Qed.

End FlatSignal.

Lemma removeBackground_flat_witness :
  Baseline.removeBackground [10; 10.5; 11; 11.5] (repeat 3 4) = Some (repeat 0 4).
Proof.
  apply (removeBackground_flat 3 [10; 10.5; 11; 11.5] 10 10.5 [11; 11.5] 4);
    [reflexivity | lra | replace (10.5 - 10) with (/ 2) by lra; lra].
Defined.
